(** * Incremental speech playback: TTSWorker, TTSManager and the WAV header patch

    A shallow embedding of [gui/tts/tts_manager.py], of
    [KokoroTTS._fix_wav_header] from [gui/tts/kokoro_manager.py], and of
    the handlers of [gui/components/readonly_tts_widget.py] that drive
    the manager.

    Indices into [sentence_data] come from [range] and [len] and are
    modelled as [nat]; a block of the document is the list of its
    sentence strings (the ['sentences'] entry of the block dictionary). *)

From Stdlib Require Import ZArith Lia.
From Stdlib.Strings Require Byte.
From stdpp Require Import base decidable option list gmap strings sorting.
From Equations Require Import Equations.

Set Default Proof Using "Type".

(** ** Data model *)

(** A sentence key is a pair [(block_idx, sent_idx)] of type [nat * nat]. *)

Record Block : Type := mkBlock {
  sentences : list string;
  offsets : list (nat * nat)
}.

(** [len(self.sentence_data[b]['sentences'])], 0 when [b] is out of range. *)
Definition block_len (sentence_data : list Block) (b : nat) : nat :=
  match sentence_data !! b with
  | Some blk => length (sentences blk)
  | None => 0
  end.

(** The lexicographic order of keys: by block, then by sentence. *)
Definition key_lt (k1 k2 : nat * nat) : Prop :=
  k1.1 < k2.1 ∨ (k1.1 = k2.1 ∧ k1.2 < k2.2).

Definition key_le (k1 k2 : nat * nat) : Prop := k1 = k2 ∨ key_lt k1 k2.

(** A key that indexes an existing sentence. *)
Definition valid_key (sentence_data : list Block) (k : nat * nat) : Prop :=
  k.1 < length sentence_data ∧ k.2 < block_len sentence_data k.1.

(** The existing sentences of block [b] from sentence [s] on, and the
    existing sentences of the document at or after [(b, s)], in document
    order. *)
Definition block_keys (sentence_data : list Block) (b s : nat) : list (nat * nat) :=
  (λ i, (b, i)) <$> seq s (block_len sentence_data b - s).

Definition keys_from (sentence_data : list Block) (b s : nat) : list (nat * nat) :=
  block_keys sentence_data b s ++
  (b' ← seq (S b) (length sentence_data - S b); block_keys sentence_data b' 0).

Module TTSWorker.

(** *** [_get_next_sentences]

    The inner [while sent_idx < len(block_sentences) and len(sentences) < count]
    loop: [n] is [len(block_sentences)]; the result is the final
    [(sent_idx, sentences)]. *)
Equations? add_block_sentences (block_idx n count sent_idx : nat)
    (sentences : list (nat * nat)) : nat * list (nat * nat)
    by wf (n - sent_idx) lt :=
  add_block_sentences block_idx n count sent_idx sentences
    with decide (sent_idx < n ∧ length sentences < count) := {
    | left _ =>
        add_block_sentences block_idx n count (S sent_idx)
          (sentences ++ [(block_idx, sent_idx)])
    | right _ => (sent_idx, sentences) }.
Proof. lia. Qed.

(** The measure of the outer loop: blocks left, plus one while the
    result list is not full. *)
Definition next_measure (sentence_data : list Block) (count block_idx : nat)
    (l : list (nat * nat)) : nat :=
  2 * (length sentence_data - block_idx) +
  (if decide (length l < count) then 1 else 0).

(** The outer [while len(sentences) < count and block_idx < len(self.sentence_data)]
    loop, on the loop state [(block_idx, sent_idx, sentences)]. *)
Equations? next_sentences_loop (sentence_data : list Block)
    (count block_idx sent_idx : nat) (sentences : list (nat * nat)) :
    list (nat * nat)
    by wf (next_measure sentence_data count block_idx sentences) lt :=
  next_sentences_loop sentence_data count block_idx sent_idx sentences
    with decide (length sentences < count ∧ block_idx < length sentence_data) := {
    | left _
        with decide (block_len sentence_data block_idx ≤
                       (add_block_sentences block_idx
                          (block_len sentence_data block_idx) count
                          sent_idx sentences).1) := {
        | left _ =>
            next_sentences_loop sentence_data count (S block_idx) 0
              (add_block_sentences block_idx
                 (block_len sentence_data block_idx) count sent_idx sentences).2
        | right _ =>
            next_sentences_loop sentence_data count block_idx
              (add_block_sentences block_idx
                 (block_len sentence_data block_idx) count sent_idx sentences).1
              (add_block_sentences block_idx
                 (block_len sentence_data block_idx) count sent_idx sentences).2 }
    | right _ => sentences }.
Proof.
  - unfold next_measure. repeat case_decide; lia.
  - (* when the inner loop leaves sentences of the block unvisited, the
       result list is full *)
    assert (∀ b n c s l,
              (add_block_sentences b n c s l).1 < n →
              c ≤ length (add_block_sentences b n c s l).2) as Hfull.
    { clear. intros b n c s l.
      funelim (add_block_sentences b n c s l); simpl; [auto|lia]. }
    unfold next_measure.
    match goal with
    | Hn : ¬ _ ≤ (add_block_sentences ?b ?n ?c ?s ?l).1 |- _ =>
        specialize (Hfull b n c s l ltac:(lia))
    end.
    repeat case_decide; lia.
Qed.

(** [_get_next_sentences(current_block, current_sent, count)]. *)
Definition _get_next_sentences (sentence_data : list Block)
    (current_block current_sent count : nat) : list (nat * nat) :=
  next_sentences_loop sentence_data count current_block (current_sent + 1) [].

(** *** The worker thread and its environment

    What the worker cannot decide itself is read from an environment,
    indexed by the instants of the worker's own clock: the two stop flags
    (written by [stop], which runs in another thread), the outcome of a
    synthesis call, the state of the output stream, and what the
    read-ahead thread has done to the shared buffer. *)
Record Env : Type := mkEnv {
  (** [self._stop_flag] as read at an instant. *)
  stop_flag_at : nat → bool;
  (** [self.tts._stop_requested] as read at an instant. *)
  stop_requested_at : nat → bool;
  (** [_generate_audio_for_sentence(sentence)] called at an instant: the
      path of the audio file, [None] when synthesis fails (every
      exception is caught there and turned into [None]). *)
  generate_audio : nat → string → option string;
  (** [sf.read(audio_path)] does not raise. *)
  audio_readable : string → bool;
  (** [sd.play(data, samplerate)] does not raise. *)
  device_available : string → bool;
  (** The number of polls for which [sd.get_stream().active] holds while
      the file plays. *)
  stream_active_polls : string → nat;
  (** The buffer as the read-ahead thread has left it at an instant. *)
  readahead_effect : nat → gmap (nat * nat) string → gmap (nat * nat) string
}.

Inductive Signal : Type :=
  | SentenceStarted (block_index sentence_index : nat)
  | Finished
  | Error (message : string).

Inductive DeviceCall : Type :=
  | SdPlay (audio_path : string)
  | Sleep10ms
  | SdStop
  | OsRemove (audio_path : string).

Inductive Event : Type :=
  | Emit (s : Signal)
  | Device (c : DeviceCall).

#[global] Instance Signal_eq_dec : EqDecision Signal.
Proof. solve_decision. Defined.
#[global] Instance DeviceCall_eq_dec : EqDecision DeviceCall.
Proof. solve_decision. Defined.
#[global] Instance Event_eq_dec : EqDecision Event.
Proof. solve_decision. Defined.

(** The fields of a [TTSWorker] that its threads read and write, the
    clock of the worker thread, and the signals and device calls made so
    far (oldest first). [unvisited] is the state of the two [for] loops
    of [run] (the keys they have still to visit), [sentences_to_buffer]
    the part of the read-ahead thread's list it has still to go through
    and [synthesizing] the key whose audio that thread is generating;
    the three are used when the two threads are interleaved step by
    step. *)
Record Worker : Type := mkWorker {
  sentence_data : list Block;
  start_block : nat;
  start_sentence : nat;
  _audio_buffer : gmap (nat * nat) string;
  _current_playback_position : nat * nat;
  clock : nat;
  events : list Event;
  unvisited : list (nat * nat);
  sentences_to_buffer : list (nat * nat);
  synthesizing : option (nat * nat)
}.

(** [range(a, b)]. *)
Definition range (a b : nat) : list nat := seq a (b - a).

(** The keys the loops of [run] visit, in order: for each block from
    [start_block] on, the sentences from [start_sentence] in the start
    block and from 0 in the others. *)
Definition loop_keys (sentence_data : list Block)
    (start_block start_sentence : nat) : list (nat * nat) :=
  block_index ← range start_block (length sentence_data);
  (λ sentence_index, (block_index, sentence_index)) <$>
    range (if bool_decide (block_index = start_block) then start_sentence else 0)
          (block_len sentence_data block_index).

(** [TTSWorker.__init__]. *)
Definition init (sentence_data : list Block) (start_block start_sentence : nat) :
    Worker :=
  mkWorker sentence_data start_block start_sentence ∅
    (start_block, start_sentence) 0 []
    (loop_keys sentence_data start_block start_sentence) [] None.

Definition record (e : Event) (w : Worker) : Worker :=
  mkWorker (sentence_data w) (start_block w) (start_sentence w) (_audio_buffer w)
    (_current_playback_position w) (clock w) (events w ++ [e])
    (unvisited w) (sentences_to_buffer w) (synthesizing w).

Definition set_buffer (b : gmap (nat * nat) string) (w : Worker) : Worker :=
  mkWorker (sentence_data w) (start_block w) (start_sentence w) b
    (_current_playback_position w) (clock w) (events w)
    (unvisited w) (sentences_to_buffer w) (synthesizing w).

Definition set_position (k : nat * nat) (w : Worker) : Worker :=
  mkWorker (sentence_data w) (start_block w) (start_sentence w) (_audio_buffer w)
    k (clock w) (events w) (unvisited w) (sentences_to_buffer w) (synthesizing w).

Definition set_start_sentence (s : nat) (w : Worker) : Worker :=
  mkWorker (sentence_data w) (start_block w) s (_audio_buffer w)
    (_current_playback_position w) (clock w) (events w)
    (unvisited w) (sentences_to_buffer w) (synthesizing w).

Definition tick (w : Worker) : Worker :=
  mkWorker (sentence_data w) (start_block w) (start_sentence w) (_audio_buffer w)
    (_current_playback_position w) (S (clock w)) (events w)
    (unvisited w) (sentences_to_buffer w) (synthesizing w).

Definition set_unvisited (l : list (nat * nat)) (w : Worker) : Worker :=
  mkWorker (sentence_data w) (start_block w) (start_sentence w) (_audio_buffer w)
    (_current_playback_position w) (clock w) (events w)
    l (sentences_to_buffer w) (synthesizing w).

Definition set_sentences_to_buffer (l : list (nat * nat)) (w : Worker) : Worker :=
  mkWorker (sentence_data w) (start_block w) (start_sentence w) (_audio_buffer w)
    (_current_playback_position w) (clock w) (events w)
    (unvisited w) l (synthesizing w).

Definition set_synthesizing (k : option (nat * nat)) (w : Worker) : Worker :=
  mkWorker (sentence_data w) (start_block w) (start_sentence w) (_audio_buffer w)
    (_current_playback_position w) (clock w) (events w)
    (unvisited w) (sentences_to_buffer w) k.

(** One evaluation of [self._stop_flag or self.tts._stop_requested]; it
    takes one instant. *)
Definition stop_seen (env : Env) (w : Worker) : bool * Worker :=
  (stop_flag_at env (clock w) || stop_requested_at env (clock w), tick w).

(** [_get_audio_for_sentence]: pop the entry from the buffer, or
    synthesize at once. *)
Definition _get_audio_for_sentence (env : Env) (block_idx sent_idx : nat)
    (sentence : string) (w : Worker) : option string * Worker :=
  let buffer := readahead_effect env (clock w) (_audio_buffer w) in
  match buffer !! (block_idx, sent_idx) with
  | Some audio_path =>
      (Some audio_path, tick (set_buffer (delete (block_idx, sent_idx) buffer) w))
  | None =>
      (generate_audio env (clock w) sentence, tick (set_buffer buffer w))
  end.

(** *** [_play_audio_file]

    The loop [while sd.get_stream().active and not self._stop_flag and
    not self.tts._stop_requested: time.sleep(0.01)]; [polls] counts the
    polls for which the stream is still active. *)
Fixpoint wait_for_playback (env : Env) (polls : nat) (w : Worker) : Worker :=
  match polls with
  | 0 => w
  | S polls' =>
      let '(stop, w1) := stop_seen env w in
      if stop then w1
      else wait_for_playback env polls' (record (Device Sleep10ms) w1)
  end.

Definition _play_audio_file (env : Env) (audio_path : string) (w : Worker) :
    bool * Worker :=
  let '(result, w') :=
    if negb (audio_readable env audio_path) then (false, w)
    else
      let '(stop, w1) := stop_seen env w in
      if stop then (false, w1)
      else if negb (device_available env audio_path) then (false, w1)
      else
        let w2 := record (Device (SdPlay audio_path)) w1 in
        let w3 := wait_for_playback env (stream_active_polls env audio_path) w2 in
        let '(stop', w4) := stop_seen env w3 in
        if stop' then (false, record (Device SdStop) w4)
        else (true, w4)
  in
  (result, record (Device (OsRemove audio_path)) w').

(** *** [run] *)

(** How a loop body is left. *)
Inductive Flow : Type :=
  | Normal
  | Break
  | Return
  | Raise (message : string).

(** The loop [for sentence_index in range(start_sent_idx, len(sentences))]. *)
Fixpoint sentence_loop (env : Env) (block_index : nat)
    (sentences : list string) (indices : list nat) (w : Worker) :
    Flow * Worker :=
  match indices with
  | [] => (Normal, w)
  | sentence_index :: indices' =>
      let '(stop, w1) := stop_seen env w in
      if stop then (Return, w1)
      else
        match sentences !! sentence_index with
        | None => (Raise "list index out of range", w1)
        | Some sentence =>
            let w2 := set_position (block_index, sentence_index) w1 in
            let w3 :=
              record (Emit (SentenceStarted block_index sentence_index)) w2 in
            let '(audio_path, w4) :=
              _get_audio_for_sentence env block_index sentence_index sentence w3 in
            match audio_path with
            | None => (Return, w4)
            | Some audio_path =>
                let '(result, w5) := _play_audio_file env audio_path w4 in
                if negb result then (Return, w5)
                else
                  let '(stop', w6) := stop_seen env w5 in
                  if stop' then (Return, w6)
                  else sentence_loop env block_index sentences indices' w6
            end
        end
  end.

(** The loop [for block_index in range(self.start_block, len(self.sentence_data))]. *)
Fixpoint block_loop (env : Env) (sentence_data : list Block)
    (indices : list nat) (w : Worker) : Flow * Worker :=
  match indices with
  | [] => (Normal, w)
  | block_index :: indices' =>
      let '(stop, w1) := stop_seen env w in
      if stop then (Break, w1)
      else
        match sentence_data !! block_index with
        | None => (Raise "list index out of range", w1)
        | Some block_data =>
            if bool_decide (sentences block_data = []) then
              block_loop env sentence_data indices' w1
            else
              let start_sent_idx :=
                if bool_decide (block_index = start_block w1)
                then start_sentence w1 else 0 in
              let '(flow, w2) :=
                sentence_loop env block_index (sentences block_data)
                  (range start_sent_idx (length (sentences block_data))) w1 in
              match flow with
              | Normal =>
                  let w3 := set_start_sentence 0 w2 in
                  let '(stop', w4) := stop_seen env w3 in
                  if stop' then (Return, w4)
                  else block_loop env sentence_data indices' w4
              | _ => (flow, w2)
              end
        end
  end.

(** [_cleanup_audio_buffer]: remove every file of the buffer and clear it. *)
Definition _cleanup_audio_buffer (w : Worker) : Worker :=
  set_buffer ∅
    (foldr (λ kv w', record (Device (OsRemove kv.2)) w') w
       (map_to_list (_audio_buffer w))).

(** [run]: the body of the [try], the [except] clause and the [finally]
    clause. *)
Definition run_body (env : Env) (w : Worker) : Flow * Worker :=
  let '(flow, w1) :=
    block_loop env (sentence_data w)
      (range (start_block w) (length (sentence_data w))) w in
  match flow with
  | Normal | Break =>
      let '(stop, w2) := stop_seen env w1 in
      if stop then (Normal, w2)
      else (Normal, record (Emit Finished) w2)
  | _ => (flow, w1)
  end.

Definition run (env : Env) (w : Worker) : Worker :=
  let '(flow, w1) := run_body env w in
  let w2 :=
    match flow with
    | Raise message => record (Emit (Error message)) w1
    | _ => w1
    end in
  _cleanup_audio_buffer w2.

(** The signals among the events of a worker, oldest first. *)
Definition signals (w : Worker) : list Signal :=
  omap (λ e, match e with Emit s => Some s | Device _ => None end) (events w).

Definition device_calls (w : Worker) : list DeviceCall :=
  omap (λ e, match e with Device c => Some c | Emit _ => None end) (events w).

(** *** The worker and its read-ahead thread, step by step

    The buffer and the playback position are shared by the two threads;
    a step is one access to them, and the steps of the two threads
    interleave in any order. Of [_readahead_worker]: [ReadAheadPass] is
    the top of its [while] loop (read the position, compute the next 5
    sentences), [ReadAheadCheck] the head of one iteration of its [for]
    loop (skip a key that is buffered or out of range, otherwise start
    to generate its audio) and [ReadAheadStore] the end of that
    iteration, with the outcome of the synthesis call (insert the entry).
    Of one iteration of [run]'s sentence loop: [StartSentence] sets the
    position to the next key, and [FetchAudio] is the buffer access of
    [_get_audio_for_sentence] for the key at the position. *)
Inductive Step : Type :=
  | ReadAheadPass
  | ReadAheadCheck
  | ReadAheadStore (audio_path : option string)
  | StartSentence
  | FetchAudio.

Definition readahead_pass (w : Worker) : Worker :=
  match sentences_to_buffer w, synthesizing w with
  | [], None =>
      let '(current_block, current_sent) := _current_playback_position w in
      set_sentences_to_buffer
        (_get_next_sentences (sentence_data w) current_block current_sent 5) w
  | _, _ => w
  end.

Definition readahead_check (w : Worker) : Worker :=
  match sentences_to_buffer w, synthesizing w with
  | (block_idx, sent_idx) :: rest, None =>
      let w1 := set_sentences_to_buffer rest w in
      if bool_decide (is_Some (_audio_buffer w !! (block_idx, sent_idx))) then w1
      else if bool_decide (block_idx < length (sentence_data w)) then
        if bool_decide (sent_idx < block_len (sentence_data w) block_idx) then
          set_synthesizing (Some (block_idx, sent_idx)) w1
        else w1
      else w1
  | _, _ => w
  end.

Definition readahead_store (audio_path : option string) (w : Worker) : Worker :=
  match synthesizing w with
  | Some k =>
      let w1 := set_synthesizing None w in
      match audio_path with
      | Some audio_path => set_buffer (<[k := audio_path]> (_audio_buffer w)) w1
      | None => w1
      end
  | None => w
  end.

Definition start_sentence_step (w : Worker) : Worker :=
  match unvisited w with
  | [] => w
  | k :: rest => set_position k (set_unvisited rest w)
  end.

Definition fetch_audio_step (w : Worker) : Worker :=
  set_buffer (delete (_current_playback_position w) (_audio_buffer w)) w.

Definition interleave_step (st : Step) (w : Worker) : Worker :=
  match st with
  | ReadAheadPass => readahead_pass w
  | ReadAheadCheck => readahead_check w
  | ReadAheadStore audio_path => readahead_store audio_path w
  | StartSentence => start_sentence_step w
  | FetchAudio => fetch_audio_step w
  end.

Definition interleave (sts : list Step) (w : Worker) : Worker :=
  foldl (λ w' st, interleave_step st w') w sts.

(** The buffer entries ahead of the current playback position. *)
Definition pending_ahead (w : Worker) : gmap (nat * nat) string :=
  filter (λ kv, bool_decide (key_lt (_current_playback_position w) kv.1))
    (_audio_buffer w).

(** *** The vocabulary of the worker's properties *)

(** [w'] is [w] after some more steps of the worker thread, which made
    the signals and device calls [new]. *)
Definition extends (w w' : Worker) (new : list Event) : Prop :=
  events w' = events w ++ new ∧
  clock w ≤ clock w' ∧
  start_block w' = start_block w ∧
  sentence_data w' = sentence_data w.

(** What the worker does for one sentence that it plays to the end. *)
Definition sentence_segment (k : nat * nat) (seg : list Event) : Prop :=
  ∃ audio_path n,
    seg = Emit (SentenceStarted k.1 k.2) :: Device (SdPlay audio_path) ::
          replicate n (Device Sleep10ms) ++ [Device (OsRemove audio_path)].

(** Events other than the [finished] and [error] signals. *)
Definition quiet (e : Event) : Prop :=
  match e with
  | Emit Finished | Emit (Error _) => False
  | _ => True
  end.

(** A stop request is visible at instant [t]. *)
Definition stop_at (env : Env) (t : nat) : Prop :=
  stop_flag_at env t || stop_requested_at env t = true.

(** The sentence index at which [run] enters block [b]. *)
Definition start_of (w : Worker) (b : nat) : nat :=
  if bool_decide (b = start_block w) then start_sentence w else 0.

(** The stop flags are only ever set: [stop] assigns [True] to them and
    nothing assigns [False] while the worker lives. *)
Definition flags_monotone (env : Env) : Prop :=
  ∀ t t', t ≤ t' →
    (stop_flag_at env t = true → stop_flag_at env t' = true) ∧
    (stop_requested_at env t = true → stop_requested_at env t' = true).

(** The existing sentences after the playback position. *)
Definition keys_after (w : Worker) : list (nat * nat) :=
  keys_from (sentence_data w) (_current_playback_position w).1
    (S (_current_playback_position w).2).

(** A key that is buffered, or that the read-ahead thread is about to
    buffer. *)
Definition produced (w : Worker) (k : nat * nat) : Prop :=
  is_Some (_audio_buffer w !! k) ∨ k ∈ sentences_to_buffer w ∨
  synthesizing w = Some k.

(** What holds of a session that started with an empty buffer: the
    worker's loops are at the playback position, and every key that is
    buffered, or that the read-ahead thread is about to buffer, is at or
    before the position or among the next 5 sentences after it. *)
Definition session_invariant (w : Worker) : Prop :=
  (unvisited w = keys_after w ∨
   unvisited w = _current_playback_position w :: keys_after w) ∧
  ∀ k, produced w k →
       key_le k (_current_playback_position w) ∨ k ∈ take 5 (keys_after w).

(** The device calls [_play_audio_file] makes before it removes the
    file: none, playback to the end, or playback cut by a device stop. *)
Definition play_calls (audio_path : string) (calls : list DeviceCall) : Prop :=
  calls = [] ∨
  ∃ n, calls = SdPlay audio_path :: replicate n Sleep10ms ∨
       calls = SdPlay audio_path :: replicate n Sleep10ms ++ [SdStop].

(** What the worker does for one sentence that it starts: the
    [sentence_started] signal, and then either nothing (no audio could
    be obtained) or the calls of [_play_audio_file] for one file, the
    last of which removes the file. *)
Definition sentence_attempt (k : nat * nat) (seg : list Event) : Prop :=
  seg = [Emit (SentenceStarted k.1 k.2)] ∨
  ∃ audio_path calls,
    play_calls audio_path calls ∧
    seg = Emit (SentenceStarted k.1 k.2) ::
          (Device <$> calls) ++ [Device (OsRemove audio_path)].

(** An environment in which nothing interrupts the worker: no stop is
    ever requested, every synthesis call yields a file, and every file
    can be read and played. *)
Definition undisturbed (env : Env) : Prop :=
  (∀ t, stop_flag_at env t = false ∧ stop_requested_at env t = false) ∧
  (∀ t sentence, is_Some (generate_audio env t sentence)) ∧
  (∀ audio_path,
     audio_readable env audio_path = true ∧ device_available env audio_path = true).

(** What the worker does for one sentence that it plays for as long as
    the stream is active: no poll of the wait loop ends it early, and no
    device stop is issued. *)
Definition played_to_the_end (env : Env) (k : nat * nat) (seg : list Event) : Prop :=
  ∃ audio_path,
    seg = Emit (SentenceStarted k.1 k.2) :: Device (SdPlay audio_path) ::
          replicate (stream_active_polls env audio_path) (Device Sleep10ms) ++
          [Device (OsRemove audio_path)].

(** Every [sd.play] of a file is followed by the removal of that file. *)
Definition played_files_removed (calls : list DeviceCall) : Prop :=
  ∀ i audio_path,
    calls !! i = Some (SdPlay audio_path) →
    ∃ j, i < j ∧ calls !! j = Some (OsRemove audio_path).

(** Every key that is buffered, or that the read-ahead thread is about
    to buffer, indexes an existing sentence. *)
Definition produced_valid (w : Worker) : Prop :=
  ∀ k, produced w k → valid_key (sentence_data w) k.

End TTSWorker.

Module TTSManager.

(** *** The manager and the worker threads it has created *)

(** A [TTSWorker] object as the manager handles it: the worker's own
    fields, whether its thread is running ([isRunning()]), and whether
    [stop()] has set its stop flags. *)
Record Thread : Type := mkThread {
  worker : TTSWorker.Worker;
  running : bool;
  stop_flag : bool
}.

(** The fields of a [TTSManager]; [tts_worker] refers to a thread by its
    position in [threads], the list of every worker created so far.
    [destroyed] lists the buffer entries whose audio files have been
    removed by a worker's [_cleanup_audio_buffer], and [error_messages]
    the messages shown by [on_speech_error]. *)
Record Manager : Type := mkManager {
  is_speaking : bool;
  tts_worker : option nat;
  sentence_data : option (list Block);
  _is_navigating : bool;
  tts_sentence_index : nat * nat;
  text_edit : bool;
  threads : list Thread;
  destroyed : list ((nat * nat) * string);
  error_messages : list string
}.

(** [TTSManager.__init__]. *)
Definition init (text_edit : bool) : Manager :=
  mkManager false None None false (0, 0) text_edit [] [] [].

(** How building the synthesis backend ends in
    [_start_speaking_from_index]: a TTS object, one of the
    [return False] paths (binary or model not found, container not
    started, unknown engine), or an exception. *)
Inductive Backend : Type :=
  | BackendReady
  | BackendUnavailable
  | BackendRaises.

(** What the manager reads from outside itself. *)
Record Host : Type := mkHost {
  (** [self.config and self.assistivox_dir]. *)
  config_present : bool;
  (** The engine and voice entries that [toggle_speech] checks. *)
  tts_configured : bool;
  backend : Backend;
  (** [self.text_edit.document().isEmpty()]. *)
  document_empty : bool;
  (** The sentence boundary data of the document. *)
  document_sentences : list Block;
  (** A stopped worker leaves [run] before [wait] times out (otherwise
      it is terminated and its [finally] clause does not run). *)
  exits_in_time : bool
}.

Definition set_is_speaking (v : bool) (m : Manager) : Manager :=
  mkManager v (tts_worker m) (sentence_data m) (_is_navigating m)
    (tts_sentence_index m) (text_edit m) (threads m) (destroyed m)
    (error_messages m).

Definition set_tts_worker (v : option nat) (m : Manager) : Manager :=
  mkManager (is_speaking m) v (sentence_data m) (_is_navigating m)
    (tts_sentence_index m) (text_edit m) (threads m) (destroyed m)
    (error_messages m).

Definition set_sentence_data (v : option (list Block)) (m : Manager) : Manager :=
  mkManager (is_speaking m) (tts_worker m) v (_is_navigating m)
    (tts_sentence_index m) (text_edit m) (threads m) (destroyed m)
    (error_messages m).

Definition set_is_navigating (v : bool) (m : Manager) : Manager :=
  mkManager (is_speaking m) (tts_worker m) (sentence_data m) v
    (tts_sentence_index m) (text_edit m) (threads m) (destroyed m)
    (error_messages m).

Definition set_threads (v : list Thread) (m : Manager) : Manager :=
  mkManager (is_speaking m) (tts_worker m) (sentence_data m) (_is_navigating m)
    (tts_sentence_index m) (text_edit m) v (destroyed m) (error_messages m).

Definition set_destroyed (v : list ((nat * nat) * string)) (m : Manager) : Manager :=
  mkManager (is_speaking m) (tts_worker m) (sentence_data m) (_is_navigating m)
    (tts_sentence_index m) (text_edit m) (threads m) v (error_messages m).

Definition add_error_message (v : string) (m : Manager) : Manager :=
  mkManager (is_speaking m) (tts_worker m) (sentence_data m) (_is_navigating m)
    (tts_sentence_index m) (text_edit m) (threads m) (destroyed m)
    (error_messages m ++ [v]).

(** [get_sentence_index]. *)
Definition get_sentence_index (m : Manager) : nat * nat := tts_sentence_index m.

(** [set_sentence_index]. *)
Definition set_sentence_index (block_index sentence_index : nat) (m : Manager) :
    Manager :=
  mkManager (is_speaking m) (tts_worker m) (sentence_data m) (_is_navigating m)
    (block_index, sentence_index) (text_edit m) (threads m) (destroyed m)
    (error_messages m).

(** The thread [self.tts_worker] refers to. *)
Definition current_thread (m : Manager) : option Thread :=
  i ← tts_worker m; threads m !! i.

Definition thread_buffer (t : Thread) : gmap (nat * nat) string :=
  TTSWorker._audio_buffer (worker t).

Definition set_thread_buffer (b : gmap (nat * nat) string) (t : Thread) : Thread :=
  mkThread (TTSWorker.set_buffer b (worker t)) (running t) (stop_flag t).

(** The end of a worker's [run]: its [finally] clause removes the files
    of the buffer and clears it, and the thread is no longer running. *)
Definition thread_exit (i : nat) (m : Manager) : Manager :=
  match threads m !! i with
  | Some t =>
      if running t then
        set_destroyed (destroyed m ++ map_to_list (thread_buffer t))
          (set_threads
             (<[i := mkThread (TTSWorker.set_buffer ∅ (worker t)) false (stop_flag t)]>
                (threads m)) m)
      else m
  | None => m
  end.

(** [worker.stop()] followed by [wait], and [terminate] when the wait
    times out: afterwards the thread is not running. *)
Definition stop_and_join (h : Host) (i : nat) (m : Manager) : Manager :=
  match threads m !! i with
  | Some t =>
      let m1 :=
        set_threads (<[i := mkThread (worker t) (running t) true]> (threads m)) m in
      if exits_in_time h then thread_exit i m1
      else
        set_threads (<[i := mkThread (worker t) false true]> (threads m)) m
  | None => m
  end.

(** *** [_extract_relevant_buffer_entries] *)

(** The test of the loop body: keep an entry within 2 blocks of the
    target, and in the target's block only within 10 sentences. *)
Definition keep_entry (target_block target_sent : nat) (k : nat * nat) : bool :=
  let block_distance := Z.abs (Z.of_nat k.1 - Z.of_nat target_block) in
  if (block_distance <=? 2)%Z then
    if (block_distance =? 0)%Z then
      let sent_distance := Z.abs (Z.of_nat k.2 - Z.of_nat target_sent) in
      (sent_distance <=? 10)%Z
    else true
  else false.

(** The relevance window in the words of the specification: the same
    block within 10 sentence indices of the target, or another block
    within 2 blocks of it. *)
Definition in_relevance_window (target k : nat * nat) : Prop :=
  (k.1 = target.1 ∧ (Z.abs (Z.of_nat k.2 - Z.of_nat target.2) ≤ 10)%Z) ∨
  (k.1 ≠ target.1 ∧ (Z.abs (Z.of_nat k.1 - Z.of_nat target.1) ≤ 2)%Z).

Definition _extract_relevant_buffer_entries (target_block target_sent : nat)
    (m : Manager) : gmap (nat * nat) string * Manager :=
  match tts_worker m with
  | None => (∅, m)
  | Some i =>
      match threads m !! i with
      | None => (∅, m)
      | Some t =>
          let extracted_buffer :=
            filter (λ kv, keep_entry target_block target_sent kv.1)
              (thread_buffer t) in
          let keys_to_transfer := (map_to_list extracted_buffer).*1 in
          let buffer' := foldr delete (thread_buffer t) keys_to_transfer in
          (extracted_buffer,
           set_threads (<[i := set_thread_buffer buffer' t]> (threads m)) m)
      end
  end.

(** *** [_start_speaking_from_index] *)
Definition _start_speaking_from_index (h : Host)
    (inherited_buffer : gmap (nat * nat) string) (m : Manager) : bool * Manager :=
  match sentence_data m with
  | None | Some [] => (false, m)
  | Some data =>
      if negb (config_present h) then (false, m)
      else
        let '(block_idx, sent_idx) := tts_sentence_index m in
        if bool_decide (length data ≤ block_idx)
           || bool_decide (block_len data block_idx ≤ sent_idx)
        then (false, m)
        else
          match backend h with
          | BackendRaises => (false, set_is_speaking false m)
          | BackendUnavailable => (false, m)
          | BackendReady =>
              (* Ensure no worker is running before creating a new one *)
              let m1 :=
                match tts_worker m with
                | Some i =>
                    let m' :=
                      match threads m !! i with
                      | Some t => if running t then stop_and_join h i m else m
                      | None => m
                      end in
                    set_tts_worker None m'
                | None => m
                end in
              let w := TTSWorker.init data block_idx sent_idx in
              (* self.tts_worker._audio_buffer.update(inherited_buffer) *)
              let w' :=
                TTSWorker.set_buffer
                  (inherited_buffer ∪ TTSWorker._audio_buffer w) w in
              let m2 :=
                set_tts_worker (Some (length (threads m1)))
                  (set_threads (threads m1 ++ [mkThread w' true false]) m1) in
              (true, set_is_speaking true m2)
          end
  end.

(** *** [_navigate_to_sentence] *)
Definition _navigate_to_sentence (h : Host) (block_idx sent_idx : nat)
    (m : Manager) : bool * Manager :=
  match tts_worker m with
  | None => (false, m)
  | Some i =>
      if negb (is_speaking m) then (false, m)
      else
        let target_in_buffer :=
          match threads m !! i with
          | Some t => bool_decide (is_Some (thread_buffer t !! (block_idx, sent_idx)))
          | None => false
          end in
        let '(preserved_buffer, m1) :=
          if target_in_buffer
          then _extract_relevant_buffer_entries block_idx sent_idx m
          else (∅, m) in
        let m2 := set_is_navigating true m1 in
        let m3 := stop_and_join h i m2 in
        let m4 := set_tts_worker None m3 in
        _start_speaking_from_index h preserved_buffer m4
  end.

(** *** [stop_speech] and [toggle_speech] *)
Definition stop_speech (h : Host) (m : Manager) : Manager :=
  match tts_worker m with
  | Some i =>
      match threads m !! i with
      | Some t =>
          if is_speaking m && running t then
            let m1 := stop_and_join h i m in
            set_is_navigating false
              (set_is_speaking false (set_tts_worker None m1))
          else m
      | None => m
      end
  | None => m
  end.

Definition toggle_speech (h : Host) (m : Manager) : Manager :=
  if is_speaking m then stop_speech h m
  else if document_empty h then m
  else if negb (config_present h) then m
  else if negb (tts_configured h) then m
  else
    let m1 := set_sentence_data (Some (document_sentences h)) m in
    let total_sentences :=
      sum_list ((λ block, length (sentences block)) <$> document_sentences h) in
    if bool_decide (total_sentences = 0) then m1
    else
      let m2 := set_is_navigating false m1 in
      (_start_speaking_from_index h ∅ m2).2.

(** *** Sentence navigation *)

(** The loop [while block_idx < len(self.sentence_data)] of
    [navigate_to_next_sentence]; the result is the final
    [(block_idx, sent_idx)]. *)
Equations? find_next_sentence (data : list Block) (block_idx sent_idx : nat) :
    nat * nat by wf (length data - block_idx) lt :=
  find_next_sentence data block_idx sent_idx
    with decide (block_idx < length data) := {
    | right _ => (block_idx, sent_idx)
    | left _ with decide (block_len data block_idx = 0) := {
        | left _ =>
            (* Empty block, move to next *)
            find_next_sentence data (S block_idx) 0
        | right _ with decide (sent_idx + 1 < block_len data block_idx) := {
            | left _ =>
                (* Next sentence in same block *)
                (block_idx, S sent_idx)
            | right _
                with decide (S block_idx < length data ∧
                             block_len data (S block_idx) ≠ 0) := {
                | left _ => (S block_idx, 0)
                | right _ => find_next_sentence data (S block_idx) 0 } } } }.
Proof. all: lia. Qed.

(** The loop [while block_idx >= 0] of [navigate_to_previous_sentence].
    [Some (Some b, s)] is the final [(block_idx, sent_idx)] with
    [block_idx = b], [Some (None, s)] the final state with
    [block_idx = -1], and [None] an [IndexError] of
    [self.sentence_data[block_idx]]. *)
Equations? find_previous_sentence (data : list Block) (block_idx sent_idx : nat) :
    option (option nat * nat) by wf (block_idx + sent_idx) lt :=
  find_previous_sentence data block_idx (S sent_idx')
    with data !! block_idx := {
    | None => None
    | Some block_data with decide (sentences block_data = []) := {
        | right _ => Some (Some block_idx, sent_idx')
        | left _ => find_previous_sentence data block_idx sent_idx' } };
  find_previous_sentence data 0 0 := Some (None, 0);
  find_previous_sentence data (S block_idx') 0
    with data !! block_idx' := {
    | None => None
    | Some prev_block with decide (sentences prev_block = []) := {
        | right _ => Some (Some block_idx', length (sentences prev_block) - 1)
        | left _ => find_previous_sentence data block_idx' 0 } }.
Proof. all: lia. Qed.

Definition navigate_to_next_sentence (h : Host) (m : Manager) : bool * Manager :=
  match sentence_data m with
  | None | Some [] => (false, m)
  | Some data =>
      if negb (is_speaking m) then (false, m)
      else
        let '(block_idx, sent_idx) :=
          find_next_sentence data (tts_sentence_index m).1 (tts_sentence_index m).2 in
        if bool_decide (length data ≤ block_idx)
           || bool_decide (block_len data block_idx = 0)
        then (false, m)
        else
          _navigate_to_sentence h block_idx sent_idx
            (set_sentence_index block_idx sent_idx m)
  end.

(** [None] stands for the [IndexError] that escapes the function. *)
Definition navigate_to_previous_sentence (h : Host) (m : Manager) :
    option (bool * Manager) :=
  match sentence_data m with
  | None | Some [] => Some (false, m)
  | Some data =>
      if negb (is_speaking m) then Some (false, m)
      else
        match find_previous_sentence data
                (tts_sentence_index m).1 (tts_sentence_index m).2 with
        | None => None
        | Some (None, _) => Some (false, m)
        | Some (Some block_idx, sent_idx) =>
            match data !! block_idx with
            | None => None
            | Some block_data =>
                if bool_decide (sentences block_data = []) then Some (false, m)
                else
                  Some (_navigate_to_sentence h block_idx sent_idx
                          (set_sentence_index block_idx sent_idx m))
            end
        end
  end.

(** *** The slots connected to the worker's signals *)

(** [on_speech_finished]. *)
Definition on_speech_finished (m : Manager) : Manager :=
  if _is_navigating m then m else set_is_speaking false m.

(** [on_speech_error]. *)
Definition on_speech_error (error_message : string) (m : Manager) : Manager :=
  add_error_message error_message (set_is_speaking false m).

(** [highlight_current_sentence], as far as the manager's own state goes. *)
Definition highlight_current_sentence (block_index sentence_index : nat)
    (m : Manager) : Manager :=
  if text_edit m then set_sentence_index block_index sentence_index m else m.

(** The slot a signal of the current worker is delivered to. *)
Definition deliver (s : TTSWorker.Signal) (m : Manager) : Manager :=
  match s with
  | TTSWorker.SentenceStarted b i => highlight_current_sentence b i m
  | TTSWorker.Finished => on_speech_finished m
  | TTSWorker.Error msg => on_speech_error msg m
  end.

(** The current worker runs [run] to its end in environment [env]; its
    signals reach the manager in the order of emission. *)
Definition run_current_worker (env : TTSWorker.Env) (m : Manager) : Manager :=
  match tts_worker m with
  | Some i =>
      match threads m !! i with
      | Some t =>
          if running t then
            let w' := TTSWorker.run env (worker t) in
            let m1 :=
              set_threads (<[i := mkThread w' false (stop_flag t)]> (threads m)) m in
            let m2 :=
              set_destroyed
                (destroyed m ++
                 map_to_list
                   (TTSWorker._audio_buffer (TTSWorker.run_body env (worker t)).2))
                m1 in
            foldl (λ m' s, deliver s m') m2 (TTSWorker.signals w')
          else m
      | None => m
      end
  | None => m
  end.

(** The two threads of the current worker take the given steps. *)
Definition interleave_current_worker (sts : list TTSWorker.Step) (m : Manager) :
    Manager :=
  match tts_worker m with
  | Some i =>
      match threads m !! i with
      | Some t =>
          if running t then
            set_threads
              (<[i := mkThread (TTSWorker.interleave sts (worker t))
                        (running t) (stop_flag t)]> (threads m)) m
          else m
      | None => m
      end
  | None => m
  end.

(** The timer started by a navigation clears [_is_navigating] 100 ms
    after the new worker has started. *)
Definition navigation_timer_fires (m : Manager) : Manager :=
  set_is_navigating false m.

(** *** The control surface as a transition system *)
Inductive Op : Type :=
  | ToggleSpeech
  | StopSpeech
  | NavigateNextSentence
  | NavigatePreviousSentence
  | NavigateToSentence (block_idx sent_idx : nat)
  | SetSentenceIndex (block_idx sent_idx : nat)
  | WorkerRuns (env : TTSWorker.Env)
  | WorkerSteps (sts : list TTSWorker.Step)
  | WorkerExits (i : nat)
  | SpeechFinished
  | SpeechError (message : string)
  | NavigationTimerFires.

Definition step (h : Host) (op : Op) (m : Manager) : Manager :=
  match op with
  | ToggleSpeech => toggle_speech h m
  | StopSpeech => stop_speech h m
  | NavigateNextSentence => (navigate_to_next_sentence h m).2
  | NavigatePreviousSentence =>
      match navigate_to_previous_sentence h m with
      | Some r => r.2
      | None => m
      end
  | NavigateToSentence b s => (_navigate_to_sentence h b s m).2
  | SetSentenceIndex b s => set_sentence_index b s m
  | WorkerRuns env => run_current_worker env m
  | WorkerSteps sts => interleave_current_worker sts m
  | WorkerExits i => thread_exit i m
  | SpeechFinished => on_speech_finished m
  | SpeechError msg => on_speech_error msg m
  | NavigationTimerFires => navigation_timer_fires m
  end.

Definition steps (ops : list (Host * Op)) (m : Manager) : Manager :=
  foldl (λ m' hop, step hop.1 hop.2 m') m ops.

(** *** The vocabulary of the manager's properties *)

(** Every running worker thread is the one [tts_worker] refers to. *)
Definition one_running (m : Manager) : Prop :=
  ∀ i t, threads m !! i = Some t → running t = true → tts_worker m = Some i.

(** No worker thread is running. *)
Definition none_running (m : Manager) : Prop :=
  ∀ i t, threads m !! i = Some t → running t = false.

(** *** The other navigation commands *)

(** [reset_sentence_index]. *)
Definition reset_sentence_index (m : Manager) : Manager :=
  set_sentence_index 0 0 m.

(** The loop [while next_block_idx < len(self.sentence_data)] of
    [navigate_to_next_paragraph]: the block at which it returns, [None]
    when it runs to the end of the document. *)
Equations? find_next_paragraph (data : list Block) (next_block_idx : nat) :
    option nat by wf (length data - next_block_idx) lt :=
  find_next_paragraph data next_block_idx
    with decide (next_block_idx < length data) := {
    | right _ => None
    | left _ with decide (block_len data next_block_idx = 0) := {
        | right _ => Some next_block_idx
        | left _ => find_next_paragraph data (S next_block_idx) } }.
Proof. lia. Qed.

Definition navigate_to_next_paragraph (h : Host) (m : Manager) : bool * Manager :=
  match sentence_data m with
  | None | Some [] => (false, m)
  | Some data =>
      if negb (is_speaking m) then (false, m)
      else
        match find_next_paragraph data ((tts_sentence_index m).1 + 1) with
        | Some next_block_idx =>
            _navigate_to_sentence h next_block_idx 0
              (set_sentence_index next_block_idx 0 m)
        | None => (false, m)
        end
  end.

(** The loop [while prev_block_idx >= 0] of
    [navigate_to_previous_paragraph], entered with
    [prev_block_idx = block_idx - 1]: [Some (Some b)] is the block at
    which it returns, [Some None] the end of the loop at
    [prev_block_idx = -1], and [None] an [IndexError] of
    [self.sentence_data[prev_block_idx]]. *)
Fixpoint find_previous_paragraph (data : list Block) (block_idx : nat) :
    option (option nat) :=
  match block_idx with
  | 0 => Some None
  | S prev_block_idx =>
      match data !! prev_block_idx with
      | None => None
      | Some prev_block =>
          if bool_decide (sentences prev_block = [])
          then find_previous_paragraph data prev_block_idx
          else Some (Some prev_block_idx)
      end
  end.

(** [None] stands for the [IndexError] that escapes the function. *)
Definition navigate_to_previous_paragraph (h : Host) (m : Manager) :
    option (bool * Manager) :=
  match sentence_data m with
  | None | Some [] => Some (false, m)
  | Some data =>
      if negb (is_speaking m) then Some (false, m)
      else
        match find_previous_paragraph data (tts_sentence_index m).1 with
        | None => None
        | Some None => Some (false, m)
        | Some (Some prev_block_idx) =>
            Some (_navigate_to_sentence h prev_block_idx 0
                    (set_sentence_index prev_block_idx 0 m))
        end
  end.

(** [navigate_to_first_sentence]. *)
Definition navigate_to_first_sentence (h : Host) (m : Manager) : bool * Manager :=
  match sentence_data m with
  | None | Some [] => (false, m)
  | Some _ =>
      if negb (is_speaking m) then (false, m)
      else _navigate_to_sentence h 0 0 (set_sentence_index 0 0 m)
  end.

(** [cleanup_resources]. *)
Definition cleanup_resources (h : Host) (m : Manager) : Manager :=
  let m1 := if is_speaking m then stop_speech h m else m in
  match tts_worker m1 with
  | Some i =>
      match threads m1 !! i with
      | Some t =>
          if running t then set_tts_worker None (stop_and_join h i m1) else m1
      | None => m1
      end
  | None => m1
  end.

(** The manager is in a session: it is speaking and refers to a worker. *)
Definition in_session (m : Manager) : Prop :=
  is_speaking m = true ∧ is_Some (tts_worker m).

(** The host lets a worker be created: the configuration is there and
    the synthesis backend can be built. *)
Definition host_ready (h : Host) : Prop :=
  config_present h = true ∧ backend h = BackendReady.

(** The current worker is a running thread that starts at key [k] of
    [data] with the buffer [buffer]. *)
Definition session_at (data : list Block) (k : nat * nat)
    (buffer : gmap (nat * nat) string) (m : Manager) : Prop :=
  is_speaking m = true ∧
  tts_sentence_index m = k ∧
  sentence_data m = Some data ∧
  ∃ t, current_thread m = Some t ∧
       running t = true ∧ stop_flag t = false ∧
       worker t = TTSWorker.set_buffer buffer (TTSWorker.init data k.1 k.2).

(** [p] is the existing sentence just before [k], and [q] the one just
    after it, in document order. *)
Definition predecessor (data : list Block) (k p : nat * nat) : Prop :=
  valid_key data p ∧ key_lt p k ∧
  ∀ k', valid_key data k' → key_lt k' k → key_le k' p.

Definition successor (data : list Block) (k q : nat * nat) : Prop :=
  valid_key data q ∧ key_lt k q ∧
  ∀ k', valid_key data k' → key_lt k k' → key_le q k'.

End TTSManager.

Module ReadOnlyTTSWidget.

(** *** [ReadOnlyTTSWidget], as far as it drives the manager *)

(** The loop [for sentence_index, (start_offset, end_offset) in
    enumerate(offsets)] of [find_sentence_id_from_offset], from
    [sentence_index] on. *)
Fixpoint find_offset (offsets : list (nat * nat)) (offset sentence_index : nat) :
    option nat :=
  match offsets with
  | [] => None
  | (start_offset, end_offset) :: offsets' =>
      if bool_decide (start_offset ≤ offset ≤ end_offset) then Some sentence_index
      else find_offset offsets' offset (S sentence_index)
  end.

(** [find_sentence_id_from_offset(block_number, offset)]. *)
Definition find_sentence_id_from_offset (sentence_boundary_data : option (list Block))
    (block_number offset : nat) : option (nat * nat) :=
  match sentence_boundary_data with
  | None | Some [] => None
  | Some data =>
      match data !! block_number with
      | None => None
      | Some block_data =>
          (λ sentence_index, (block_number, sentence_index)) <$>
            find_offset (offsets block_data) offset 0
      end
  end.

(** [mousePressEvent] for a left click at [position_in_block] of block
    [block_number], as far as the manager goes. *)
Definition mousePressEvent (h : TTSManager.Host)
    (sentence_boundary_data : option (list Block))
    (block_number position_in_block : nat) (m : TTSManager.Manager) :
    TTSManager.Manager :=
  let worker_running :=
    match TTSManager.tts_worker m with
    | Some i =>
        match TTSManager.threads m !! i with
        | Some t => TTSManager.running t
        | None => false
        end
    | None => false
    end in
  let tts_is_active := TTSManager.is_speaking m || worker_running in
  if tts_is_active then
    match find_sentence_id_from_offset sentence_boundary_data
            block_number position_in_block with
    | Some (block_idx, sent_idx) =>
        (TTSManager._navigate_to_sentence h block_idx sent_idx
           (TTSManager.set_sentence_index block_idx sent_idx m)).2
    | None => m
    end
  else m.

(** [navigate_to_first_sentence] of the widget: jump when the manager is
    speaking, otherwise reset the index and start. *)
Definition navigate_to_first_sentence (h : TTSManager.Host)
    (m : TTSManager.Manager) : TTSManager.Manager :=
  if TTSManager.is_speaking m then (TTSManager.navigate_to_first_sentence h m).2
  else TTSManager.toggle_speech h (TTSManager.reset_sentence_index m).

End ReadOnlyTTSWidget.

Module KokoroTTS.

(** *** [_fix_wav_header]

    The file is the list of its bytes; the file object's position is a
    [nat]. *)

Inductive Exception : Type :=
  | ValueError (message : string)
  | StructError.

#[global] Instance byte_eq_dec : EqDecision Byte.byte := Byte.byte_eq_dec.

(** [b'RIFF'], [b'WAVE'] and [b'data']. *)
Definition RIFF : list Byte.byte := [Byte.x52; Byte.x49; Byte.x46; Byte.x46].
Definition WAVE : list Byte.byte := [Byte.x57; Byte.x41; Byte.x56; Byte.x45].
Definition data_id : list Byte.byte := [Byte.x64; Byte.x61; Byte.x74; Byte.x61].

(** The value of a little-endian unsigned field ([struct.unpack] with
    format [<I] on 4 bytes). *)
Fixpoint le_value (bs : list Byte.byte) : Z :=
  match bs with
  | [] => 0
  | b :: bs' => Z.of_N (Byte.to_N b) + 256 * le_value bs'
  end.

Definition byte_of_Z (n : Z) : Byte.byte :=
  default Byte.x00 (Byte.of_N (Z.to_N (n `mod` 256))).

(** [struct.pack('<I', n)]: raises [struct.error] outside [0, 2^32). *)
Definition pack_u32 (n : Z) : option (list Byte.byte) :=
  if bool_decide (0 ≤ n < 2 ^ 32)%Z then
    Some [byte_of_Z n; byte_of_Z (n / 256); byte_of_Z (n / 65536);
          byte_of_Z (n / 16777216)]
  else None.

(** [f.read(n)] at position [pos]. *)
Definition read_at (pos n : nat) (file : list Byte.byte) : list Byte.byte :=
  take n (drop pos file).

(** [f.seek(pos); f.write(bs)] at a position inside the file. *)
Definition write_at (pos : nat) (bs file : list Byte.byte) : list Byte.byte :=
  take pos file ++ bs ++ drop (pos + length bs) file.

(** The loop that scans for the ['data'] chunk, from file position
    [pos]: [Some data_chunk_pos] at the [break], [None] when fewer than
    8 bytes are left to read. *)
Equations? scan_for_data_chunk (file : list Byte.byte) (pos : nat) : option nat
    by wf (length file - pos) lt :=
  scan_for_data_chunk file pos with decide (pos + 8 ≤ length file) := {
    | right _ => None
    | left _ with decide (read_at pos 4 file = data_id) := {
        | left _ => Some pos
        | right _ =>
            scan_for_data_chunk file
              (pos + 8 + Z.to_nat (le_value (read_at (pos + 4) 4 file))) } }.
Proof. lia. Qed.

(** The exception raised, if any, and the bytes of the file afterwards. *)
Definition _fix_wav_header (file : list Byte.byte) :
    option Exception * list Byte.byte :=
  let riff := read_at 0 12 file in
  if bool_decide (take 4 riff ≠ RIFF ∨ take 4 (drop 8 riff) ≠ WAVE) then
    (Some (ValueError "Not a valid WAV file"), file)
  else
    match scan_for_data_chunk file 12 with
    | None => (Some (ValueError "No data chunk found"), file)
    | Some data_chunk_pos =>
        let file_size := Z.of_nat (length file) in
        let data_size := (file_size - (Z.of_nat data_chunk_pos + 8))%Z in
        match pack_u32 (file_size - 8) with
        | None => (Some StructError, file)
        | Some riff_size =>
            let file1 := write_at 4 riff_size file in
            match pack_u32 data_size with
            | None => (Some StructError, file1)
            | Some data_size_bytes =>
                (None, write_at (data_chunk_pos + 4) data_size_bytes file1)
            end
        end
    end.

(** The chunk structure of a RIFF file as the scan sees it: a chunk
    header lies at offset 12, and after a chunk that is not the data
    chunk the next header lies behind its 8 header bytes and the number
    of bytes its size field gives. *)
Inductive chunk_at (file : list Byte.byte) : nat → Prop :=
  | chunk_first : chunk_at file 12
  | chunk_next pos :
      chunk_at file pos →
      pos + 8 ≤ length file →
      read_at pos 4 file ≠ data_id →
      chunk_at file (pos + 8 + Z.to_nat (le_value (read_at (pos + 4) 4 file))).

(** A complete chunk header with id ['data'] lies at [pos]. *)
Definition data_chunk_at (file : list Byte.byte) (pos : nat) : Prop :=
  chunk_at file pos ∧ pos + 8 ≤ length file ∧ read_at pos 4 file = data_id.

Definition has_riff_wave_header (file : list Byte.byte) : Prop :=
  read_at 0 4 file = RIFF ∧ read_at 8 4 file = WAVE.

(** The chunk structure as the RIFF format lays it out: a chunk of odd
    size is followed by one pad byte, so the next header lies at an even
    offset. *)
Inductive padded_chunk_at (file : list Byte.byte) : nat → Prop :=
  | padded_chunk_first : padded_chunk_at file 12
  | padded_chunk_next pos :
      padded_chunk_at file pos →
      pos + 8 ≤ length file →
      read_at pos 4 file ≠ data_id →
      padded_chunk_at file
        (pos + 8 + Z.to_nat (le_value (read_at (pos + 4) 4 file)) +
         Z.to_nat (le_value (read_at (pos + 4) 4 file)) mod 2).

End KokoroTTS.

(** * Example documents, environments and hosts *)

Definition block_of (l : list string) : Block := mkBlock l [].

(** One block with two sentences. *)
Definition hello_document : list Block :=
  [block_of ["Hello world."; "Bye."]].

(** No stop request, every synthesis succeeds, every file plays for two
    polls, and the read-ahead thread leaves the buffer alone. *)
Definition quiet_env : TTSWorker.Env :=
  TTSWorker.mkEnv (λ _, false) (λ _, false) (λ _ _, Some "/tmp/audio.wav")
    (λ _, true) (λ _, true) (λ _, 2) (λ _ buffer, buffer).

(** As [quiet_env], but the synthesis of the sentence "Bye." fails. *)
Definition failing_second_env : TTSWorker.Env :=
  TTSWorker.mkEnv (λ _, false) (λ _, false)
    (λ _ sentence, if bool_decide (sentence = "Bye.") then None
                   else Some "/tmp/audio.wav")
    (λ _, true) (λ _, true) (λ _, 2) (λ _ buffer, buffer).

(** Three blocks, the middle one without sentences. *)
Definition gap_document : list Block :=
  [block_of ["a"]; block_of []; block_of ["b"; "c"]].

(** Two blocks of one sentence each. *)
Definition two_block_document : list Block :=
  [block_of ["a"]; block_of ["b"]].

(** A block of three sentences followed by a block of ten. *)
Definition long_document : list Block :=
  [block_of ["a0"; "a1"; "a2"];
   block_of ["b0"; "b1"; "b2"; "b3"; "b4"; "b5"; "b6"; "b7"; "b8"; "b9"]].

(** One block of two sentences with their character ranges in the
    block text "Hi. Bye.". *)
Definition offset_document : list Block :=
  [mkBlock ["Hi."; "Bye."] [(0, 2); (4, 7)]].

(** A configured host whose document has the given sentences. *)
Definition ready_host (document : list Block) : TTSManager.Host :=
  TTSManager.mkHost true true TTSManager.BackendReady false document true.

Definition long_host : TTSManager.Host := ready_host long_document.

(** As [long_host], but the synthesis backend cannot be built (binary or
    model not found, container not started). *)
Definition unavailable_host : TTSManager.Host :=
  TTSManager.mkHost true true TTSManager.BackendUnavailable false long_document
    true.

(** The manager of a text editor just after [toggle_speech] has started
    to read the document. *)
Definition speaking (document : list Block) : TTSManager.Manager :=
  TTSManager.toggle_speech (ready_host document) (TTSManager.init true).

(** The manager speaks [long_document] from (0,0): the worker has
    started the first sentence and the read-ahead thread has buffered
    the next five. *)
Definition buffered_manager : TTSManager.Manager :=
  TTSManager.steps
    [(long_host, TTSManager.ToggleSpeech);
     (long_host,
      TTSManager.WorkerSteps
        [TTSWorker.StartSentence; TTSWorker.FetchAudio; TTSWorker.ReadAheadPass;
         TTSWorker.ReadAheadCheck; TTSWorker.ReadAheadStore (Some "/tmp/1.wav");
         TTSWorker.ReadAheadCheck; TTSWorker.ReadAheadStore (Some "/tmp/2.wav");
         TTSWorker.ReadAheadCheck; TTSWorker.ReadAheadStore (Some "/tmp/3.wav");
         TTSWorker.ReadAheadCheck; TTSWorker.ReadAheadStore (Some "/tmp/4.wav");
         TTSWorker.ReadAheadCheck; TTSWorker.ReadAheadStore (Some "/tmp/5.wav")])]
    (TTSManager.init true).

(** From [buffered_manager]: a navigation to (1,0), which inherits the
    five buffered entries; the new worker starts (1,0) and its read-ahead
    thread buffers (1,3), (1,4) and (1,5); then two navigations to the
    previous sentence, to (0,2) and to (0,1), each inheriting the whole
    buffer. *)
Definition overfull_manager : TTSManager.Manager :=
  TTSManager.steps
    [(long_host, TTSManager.SetSentenceIndex 1 0);
     (long_host, TTSManager.NavigateToSentence 1 0);
     (long_host,
      TTSManager.WorkerSteps
        [TTSWorker.StartSentence; TTSWorker.FetchAudio; TTSWorker.ReadAheadPass;
         TTSWorker.ReadAheadCheck;
         TTSWorker.ReadAheadCheck;
         TTSWorker.ReadAheadCheck; TTSWorker.ReadAheadStore (Some "/tmp/6.wav");
         TTSWorker.ReadAheadCheck; TTSWorker.ReadAheadStore (Some "/tmp/7.wav");
         TTSWorker.ReadAheadCheck; TTSWorker.ReadAheadStore (Some "/tmp/8.wav")]);
     (long_host, TTSManager.NavigatePreviousSentence);
     (long_host, TTSManager.NavigatePreviousSentence)]
    buffered_manager.

(** A minimal WAV file: the RIFF header with a wrong size, a [fmt ]
    chunk of 2 bytes, and a data chunk with a wrong size and 3 bytes. *)
Definition small_wav : list Byte.byte :=
  KokoroTTS.RIFF ++ [Byte.xff; Byte.xff; Byte.xff; Byte.xff] ++ KokoroTTS.WAVE ++
  [Byte.x66; Byte.x6d; Byte.x74; Byte.x20] ++
  [Byte.x02; Byte.x00; Byte.x00; Byte.x00] ++ [Byte.x01; Byte.x00] ++
  KokoroTTS.data_id ++ [Byte.xff; Byte.xff; Byte.xff; Byte.xff] ++
  [Byte.x0a; Byte.x0b; Byte.x0c].

(** A WAV file of 33 bytes whose data chunk follows a [LIST] chunk of
    size 1 and its pad byte: the data chunk header lies at offset 22. *)
Definition odd_wav : list Byte.byte :=
  KokoroTTS.RIFF ++ [Byte.x19; Byte.x00; Byte.x00; Byte.x00] ++ KokoroTTS.WAVE ++
  [Byte.x4c; Byte.x49; Byte.x53; Byte.x54] ++
  [Byte.x01; Byte.x00; Byte.x00; Byte.x00] ++ [Byte.x07] ++ [Byte.x00] ++
  KokoroTTS.data_id ++ [Byte.x03; Byte.x00; Byte.x00; Byte.x00] ++
  [Byte.x0a; Byte.x0b; Byte.x0c].

(** The 20 bytes before the samples of a WAV file whose data chunk
    comes first. *)
Definition wav_prefix : list Byte.byte :=
  KokoroTTS.RIFF ++ [Byte.x00; Byte.x00; Byte.x00; Byte.x00] ++ KokoroTTS.WAVE ++
  KokoroTTS.data_id ++ [Byte.x00; Byte.x00; Byte.x00; Byte.x00].

(** * Properties *)

(** ** Document order *)

Lemma key_lt_trans k1 k2 k3 : key_lt k1 k2 → key_lt k2 k3 → key_lt k1 k3.
Proof. unfold key_lt. lia. Qed.

Lemma key_lt_irrefl k : ¬ key_lt k k.
Proof. unfold key_lt. lia. Qed.

Lemma key_le_lt_trans k1 k2 k3 : key_le k1 k2 → key_lt k2 k3 → key_lt k1 k3.
Proof. intros [->|H] ?; [done|by eapply key_lt_trans]. Qed.

Lemma block_len_ge data b : length data ≤ b → block_len data b = 0.
Proof. intros H. unfold block_len. by rewrite lookup_ge_None_2. Qed.

Lemma elem_of_block_keys data b s k :
  k ∈ block_keys data b s ↔ k.1 = b ∧ s ≤ k.2 < block_len data b.
Proof.
  unfold block_keys. rewrite list_elem_of_fmap. split.
  - intros (i & -> & Hi%elem_of_seq). simpl. lia.
  - intros [<- ?]. exists k.2. split; [by destruct k|]. apply elem_of_seq. lia.
Qed.

Lemma block_keys_sorted data b s : StronglySorted key_lt (block_keys data b s).
Proof.
  unfold block_keys. generalize (block_len data b - s). intros n.
  revert s. induction n as [|n IH]; intros s; simpl; constructor; [apply IH|].
  apply Forall_forall. intros k (i & -> & Hi%elem_of_seq)%list_elem_of_fmap.
  right. simpl. lia.
Qed.

Lemma elem_of_later_blocks data c n k :
  k ∈ (b' ← seq c n; block_keys data b' 0) ↔
  c ≤ k.1 < c + n ∧ k.2 < block_len data k.1.
Proof.
  rewrite list_elem_of_bind. split.
  - intros (b' & [-> ?]%elem_of_block_keys & ?%elem_of_seq). lia.
  - intros [? ?]. exists k.1. rewrite elem_of_block_keys, elem_of_seq. lia.
Qed.

Lemma later_blocks_sorted data c n :
  StronglySorted key_lt (b' ← seq c n; block_keys data b' 0).
Proof.
  revert c. induction n as [|n IH]; intros c; [constructor|].
  change (StronglySorted key_lt
            (block_keys data c 0 ++ (b' ← seq (S c) n; block_keys data b' 0))).
  apply StronglySorted_app; split_and!; [|apply block_keys_sorted|apply IH].
  intros k1 k2 [? ?]%elem_of_block_keys [? ?]%elem_of_later_blocks.
  left. lia.
Qed.

Lemma elem_of_keys_from data b s k :
  k ∈ keys_from data b s ↔ valid_key data k ∧ key_le (b, s) k.
Proof.
  unfold keys_from. rewrite elem_of_app, elem_of_block_keys, elem_of_later_blocks.
  unfold valid_key, key_le, key_lt. destruct k as [kb ks]. simpl. split.
  - intros [[Hb Hs]|[? ?]].
    + subst kb. split.
      * split; [|lia]. destruct (decide (b < length data)); [done|].
        rewrite block_len_ge in Hs by lia. lia.
      * destruct (decide (s = ks)) as [->|]; [by left|right; lia].
    + split; [lia|]. right. lia.
  - intros [[? ?] [Heq|[?|[Hb ?]]]]; [|right; lia|subst kb; left; lia].
    injection Heq as -> ->. left. lia.
Qed.

Lemma keys_from_sorted data b s : StronglySorted key_lt (keys_from data b s).
Proof.
  unfold keys_from.
  apply StronglySorted_app; split_and!;
    [|apply block_keys_sorted|apply later_blocks_sorted].
  intros k1 k2 [? ?]%elem_of_block_keys [? ?]%elem_of_later_blocks.
  left. lia.
Qed.

Lemma later_blocks_keys_from data b :
  b < length data →
  (b' ← seq (S b) (length data - S b); block_keys data b' 0) =
  keys_from data (S b) 0.
Proof.
  intros Hb. unfold keys_from.
  destruct (decide (S b < length data)) as [Hlt|Hge].
  - replace (length data - S b) with (S (length data - S (S b))) by lia. done.
  - replace (length data - S b) with 0 by lia.
    replace (length data - S (S b)) with 0 by lia. simpl.
    unfold block_keys. rewrite block_len_ge by lia. done.
Qed.

Lemma keys_from_out_of_range data b s :
  length data ≤ b → keys_from data b s = [].
Proof.
  intros H. unfold keys_from, block_keys. rewrite block_len_ge by done.
  replace (length data - S b) with 0 by lia. done.
Qed.

Lemma length_block_keys data b s :
  length (block_keys data b s) = block_len data b - s.
Proof. unfold block_keys. by rewrite length_fmap, length_seq. Qed.

Lemma take_block_keys data b s m :
  m ≤ block_len data b - s →
  take m (block_keys data b s) = (λ i, (b, i)) <$> seq s m.
Proof.
  intros H. unfold block_keys. rewrite <- fmap_take, take_seq. do 2 f_equal. lia.
Qed.

Lemma add_block_sentences_spec block_idx n count sent_idx l :
  TTSWorker.add_block_sentences block_idx n count sent_idx l =
    let m := (n - sent_idx) `min` (count - length l) in
    (sent_idx + m, l ++ ((λ s, (block_idx, s)) <$> seq sent_idx m)).
Proof.
  funelim (TTSWorker.add_block_sentences block_idx n count sent_idx l); simpl.
  - rewrite H. simpl. rewrite length_app. simpl.
    replace ((n - sent_idx) `min` (count - length sentences0))
      with (S ((n - S sent_idx) `min` (count - (length sentences0 + 1))))
      by lia.
    simpl. rewrite <- app_assoc. simpl. f_equal. lia.
  - replace ((n - sent_idx) `min` (count - length sentences0)) with 0 by lia.
    simpl. rewrite app_nil_r. f_equal. lia.
Qed.

(** The loop of [_get_next_sentences] appends to [l] the first
    [count - length l] existing sentences from [(block_idx, sent_idx)] on. *)
Lemma next_sentences_loop_spec data count block_idx sent_idx l :
  TTSWorker.next_sentences_loop data count block_idx sent_idx l =
  l ++ take (count - length l) (keys_from data block_idx sent_idx).
Proof.
  funelim (TTSWorker.next_sentences_loop data count block_idx sent_idx l);
    clear Heqcall;
    repeat match goal with H : decide _ = _ |- _ => clear H end;
    rename select (list (nat * nat)) into acc;
    rename select (list Block) into data;
    try (rename select (TTSWorker.next_sentences_loop _ _ _ _ _ = _) into IH;
         rewrite IH; clear IH).
  - destruct (decide (length acc < count)).
    + rewrite keys_from_out_of_range by lia. by rewrite take_nil, app_nil_r.
    + replace (count - length acc) with 0 by lia.
      by rewrite take_0, app_nil_r.
  - (* the block is exhausted: on to the next block *)
    rename select (block_len _ _ ≤ _) into Hle. revert Hle.
    rewrite add_block_sentences_spec. simpl. intros Hle.
    set (n := block_len data block_idx) in *.
    assert ((n - sent_idx) `min` (count - length acc) = n - sent_idx)
      as -> by lia.
    rewrite length_app, length_fmap, length_seq, <- app_assoc. f_equal.
    unfold keys_from at 2. rewrite later_blocks_keys_from by lia.
    rewrite take_app, length_block_keys. fold n.
    rewrite (take_ge (block_keys data block_idx sent_idx))
      by (rewrite length_block_keys; fold n; lia).
    unfold block_keys. fold n. f_equal. f_equal. lia.
  - (* the result is full *)
    rename select (¬ block_len _ _ ≤ _) into Hlt. revert Hlt.
    rewrite add_block_sentences_spec. simpl. intros Hlt.
    set (n := block_len data block_idx) in *.
    assert ((n - sent_idx) `min` (count - length acc) = count - length acc)
      as -> by lia.
    rewrite length_app, length_fmap, length_seq, <- app_assoc. f_equal.
    replace (count - (length acc + (count - length acc))) with 0 by lia.
    rewrite take_0, app_nil_r. unfold keys_from.
    rewrite take_app_le by (rewrite length_block_keys; fold n; lia).
    rewrite take_block_keys by (fold n; lia). done.
Qed.

Lemma get_next_sentences_take data current_block current_sent count :
  TTSWorker._get_next_sentences data current_block current_sent count =
  take count (keys_from data current_block (current_sent + 1)).
Proof.
  unfold TTSWorker._get_next_sentences. rewrite next_sentences_loop_spec.
  simpl. by rewrite Nat.sub_0_r.
Qed.

Lemma key_lt_succ b s k : key_lt (b, s) k ↔ key_le (b, s + 1) k.
Proof.
  destruct k as [kb ks]. unfold key_le, key_lt. simpl. split.
  - intros [?|[-> ?]]; [right; lia|].
    destruct (decide (ks = s + 1)) as [->|]; [by left|right; lia].
  - intros [Heq|?]; [|lia]. injection Heq as <- <-. lia.
Qed.

(** C9: [_get_next_sentences] returns at most [count] keys, strictly
    increasing in document order, each strictly after the given position
    and indexing an existing sentence (so its block is not empty), and it
    omits no existing sentence between the position and the last key it
    returns. *)
Theorem get_next_sentences_correct data current_block current_sent count :
  let result :=
    TTSWorker._get_next_sentences data current_block current_sent count in
  length result ≤ count ∧
  StronglySorted key_lt result ∧
  (∀ k, k ∈ result →
     key_lt (current_block, current_sent) k ∧ valid_key data k ∧
     block_len data k.1 ≠ 0) ∧
  (∀ k last_key,
     last result = Some last_key →
     valid_key data k →
     key_lt (current_block, current_sent) k →
     key_lt k last_key →
     k ∈ result).
Proof.
  intros result. unfold result. clear result.
  rewrite get_next_sentences_take.
  set (K := keys_from data current_block (current_sent + 1)).
  pose proof (keys_from_sorted data current_block (current_sent + 1)) as Hsorted.
  fold K in Hsorted. rewrite <- (take_drop count K) in Hsorted.
  split_and!.
  - rewrite length_take. lia.
  - by eapply StronglySorted_app_1_l.
  - intros k Hk%subseteq_take. apply elem_of_keys_from in Hk as [Hv Hle].
    split_and!; [by apply key_lt_succ|done|]. destruct Hv. lia.
  - intros k last_key Hlast Hv Hpos Hlt.
    assert (k ∈ K) as Hk by (apply elem_of_keys_from; by rewrite <- key_lt_succ).
    rewrite <- (take_drop count K) in Hk. apply elem_of_app in Hk as [?|Hk]; [done|].
    exfalso. apply (key_lt_irrefl k). eapply key_lt_trans; [done|].
    eapply StronglySorted_app_1_elem_of; [exact Hsorted| |done].
    apply last_Some_elem_of. done.
Qed.

Section worker.
Import TTSWorker.

(** ** The worker's run *)

Lemma extends_refl w : extends w w [].
Proof. unfold extends. by rewrite app_nil_r. Qed.

Lemma extends_trans w1 w2 w3 n1 n2 :
  extends w1 w2 n1 → extends w2 w3 n2 → extends w1 w3 (n1 ++ n2).
Proof.
  unfold extends. intros (-> & ? & -> & ->) (-> & ? & -> & ->).
  rewrite app_assoc. split_and!; [done|lia|done|done].
Qed.

Lemma extends_step w1 w2 w3 n1 n2 n :
  extends w1 w2 n1 → extends w2 w3 n2 → n = n1 ++ n2 → extends w1 w3 n.
Proof. intros ?? ->. by eapply extends_trans. Qed.

Lemma extends_tick w : extends w (tick w) [].
Proof. unfold extends. simpl. rewrite app_nil_r. split_and!; [done|lia|done|done]. Qed.

Lemma extends_record e w : extends w (record e w) [e].
Proof. unfold extends. simpl. done. Qed.

Lemma extends_tick_record e w : extends w (record e (tick w)) [e].
Proof. unfold extends. simpl. split_and!; [done|lia|done|done]. Qed.

Lemma extends_get_audio env b s sentence w :
  extends w (_get_audio_for_sentence env b s sentence w).2 [].
Proof.
  unfold _get_audio_for_sentence.
  destruct (readahead_effect env (clock w) (_audio_buffer w) !! (b, s)); simpl;
    (unfold extends; simpl; rewrite app_nil_r; split_and!; [done|lia|done|done]).
Qed.

Lemma extends_start_sentence k e w :
  extends w (record e (set_position k (tick w))) [e].
Proof. unfold extends. simpl. split_and!; [done|lia|done|done]. Qed.

Lemma extends_reset_start_sentence w :
  extends w (tick (set_start_sentence 0 w)) [].
Proof. unfold extends. simpl. rewrite app_nil_r. split_and!; [done|lia|done|done]. Qed.

Lemma extends_events w w' new : extends w w' new → events w' = events w ++ new.
Proof. by intros [? _]. Qed.

Lemma extends_clock w w' new : extends w w' new → clock w ≤ clock w'.
Proof. by intros (_ & ? & _). Qed.

Lemma extends_start_block w w' new :
  extends w w' new → start_block w' = start_block w.
Proof. by intros (_ & _ & ? & _). Qed.

#[local] Opaque extends.

(** Close a goal [extends w w' new] along a chain of known steps. *)
Ltac list_eq := simpl; rewrite ?app_nil_r, <- ?app_assoc; simpl; done.
Tactic Notation "extends_by" constr(H) "then" tactic3(tac) :=
  eapply extends_step; [exact H|tac|list_eq].

Lemma wait_for_playback_extends env polls w :
  ∃ n, n ≤ polls ∧
    extends w (wait_for_playback env polls w) (replicate n (Device Sleep10ms)).
Proof.
  revert w. induction polls as [|polls IH]; intros w; simpl.
  - exists 0. split; [lia|]. apply extends_refl.
  - destruct (stop_flag_at env (clock w) || stop_requested_at env (clock w)).
    + exists 0. split; [lia|]. apply extends_tick.
    + destruct (IH (record (Device Sleep10ms) (tick w))) as (n & Hn & Hext).
      exists (S n). split; [lia|].
      eapply extends_step; [apply extends_tick_record|exact Hext|done].
Qed.

(** The outcomes of [_play_audio_file]: nothing played, playback
    stopped on a stop request, playback completed. *)
Lemma play_audio_file_cases env audio_path w :
  let r := _play_audio_file env audio_path w in
  ∃ calls,
    extends w r.2 ((Device <$> calls) ++ [Device (OsRemove audio_path)]) ∧
    (calls = [] ∧ r.1 = false ∧
       (audio_readable env audio_path = false ∨
        device_available env audio_path = false ∨
        stop_flag_at env (clock w) || stop_requested_at env (clock w) = true)
     ∨ (∃ n t, n ≤ stream_active_polls env audio_path ∧
          calls = SdPlay audio_path :: replicate n Sleep10ms ++ [SdStop] ∧
          r.1 = false ∧
          clock w < t ∧
          stop_flag_at env t || stop_requested_at env t = true)
     ∨ (∃ n, n ≤ stream_active_polls env audio_path ∧
          calls = SdPlay audio_path :: replicate n Sleep10ms ∧
          r.1 = true ∧
          stop_flag_at env (clock w) || stop_requested_at env (clock w) = false)).
Proof.
  unfold _play_audio_file. simpl.
  destruct (audio_readable env audio_path) eqn:Hread; simpl;
    [|exists []; split; [apply extends_record|left; auto]].
  destruct (stop_flag_at env (clock w) || stop_requested_at env (clock w))
    eqn:Hstop; simpl;
    [exists []; split; [apply extends_tick_record|left; auto]|].
  destruct (device_available env audio_path) eqn:Hdev; simpl;
    [|exists []; split; [apply extends_tick_record|left; auto]].
  set (w2 := record (Device (SdPlay audio_path)) (tick w)).
  assert (extends w w2 [Device (SdPlay audio_path)]) as Hw2
    by apply extends_tick_record.
  destruct (wait_for_playback_extends env (stream_active_polls env audio_path) w2)
    as (n & Hn & Hext).
  set (w3 := wait_for_playback env (stream_active_polls env audio_path) w2) in *.
  pose proof (extends_trans _ _ _ _ _ Hw2 Hext) as Hw3.
  destruct (stop_flag_at env (clock w3) || stop_requested_at env (clock w3))
    eqn:Hstop'; simpl.
  - exists (SdPlay audio_path :: replicate n Sleep10ms ++ [SdStop]). split.
    + rewrite !fmap_cons, fmap_app, fmap_replicate.
      extends_by Hw3 then
        (eapply extends_step;
           [apply extends_tick_record|apply extends_record|done]).
    + right. left. exists n, (clock w3). split_and!; try done.
      apply extends_clock in Hext. unfold w2 in Hext. simpl in Hext. lia.
  - exists (SdPlay audio_path :: replicate n Sleep10ms). split.
    + rewrite !fmap_cons, fmap_replicate.
      extends_by Hw3 then (apply extends_tick_record).
    + right. right. eauto.
Qed.

(** ** The playback routine *)

(** The polls of the wait loop: it sleeps [n] times, each time after a
    poll that saw no stop request, and ends at the first poll that sees
    one or when the stream is no longer active. *)
Lemma wait_for_playback_polls env polls w :
  ∃ n, n ≤ polls ∧
    (∀ j, j < n → ¬ stop_at env (clock w + j)) ∧
    (n < polls → stop_at env (clock w + n)) ∧
    events (wait_for_playback env polls w) =
      events w ++ replicate n (Device Sleep10ms) ∧
    clock (wait_for_playback env polls w) =
      clock w + n + (if decide (n < polls) then 1 else 0).
Proof.
  unfold stop_at. revert w. induction polls as [|polls IH]; intros w; simpl.
  - exists 0. split_and!; [lia|intros; lia|lia|by rewrite app_nil_r|simpl; lia].
  - destruct (stop_flag_at env (clock w) || stop_requested_at env (clock w))
      eqn:Hstop.
    + exists 0. split_and!; [lia|intros; lia| |by rewrite app_nil_r|simpl; lia].
      intros _. by rewrite Nat.add_0_r.
    + destruct (IH (record (Device Sleep10ms) (tick w)))
        as (n & Hn & Hbefore & Hlast & Hev & Hclock).
      simpl in *. exists (S n). split_and!.
      * lia.
      * intros [|j] Hj; [rewrite Nat.add_0_r; congruence|].
        replace (clock w + S j) with (S (clock w + j)) by lia.
        apply Hbefore. lia.
      * intros Hlt. replace (clock w + S n) with (S (clock w + n)) by lia.
        apply Hlast. lia.
      * rewrite Hev, <- app_assoc. done.
      * rewrite Hclock. repeat case_decide; lia.
Qed.

(** C8, as the code has it. When the file cannot be read, the device
    cannot be opened or a stop request is seen before playback starts,
    the routine returns [False] without any device call but the removal
    of the file. Otherwise it starts playback and, while the stream is
    active, polls the stop flags before every 10 ms sleep: with the
    first poll at the instant after the start check, each of the [n]
    sleeps follows a poll that saw no stop request, and the loop ends
    before the stream does exactly at a poll that sees one. The check
    after the loop decides the outcome: the device stop is issued, and
    [False] returned, exactly when that check sees a stop request;
    otherwise the routine returns [True] and has issued no device
    stop. *)
Theorem play_audio_file_device_calls env audio_path w :
  let r := _play_audio_file env audio_path w in
  let polls := stream_active_polls env audio_path in
  ∃ calls,
    events r.2 = events w ++ (Device <$> calls) ++ [Device (OsRemove audio_path)] ∧
    (calls = [] ∧ r.1 = false ∧
       (audio_readable env audio_path = false ∨
        device_available env audio_path = false ∨
        stop_at env (clock w))
     ∨ ∃ n last_check,
         audio_readable env audio_path = true ∧
         device_available env audio_path = true ∧
         ¬ stop_at env (clock w) ∧
         n ≤ polls ∧
         (∀ j, j < n → ¬ stop_at env (clock w + 1 + j)) ∧
         (n < polls → stop_at env (clock w + 1 + n)) ∧
         last_check = clock w + 1 + n + (if decide (n < polls) then 1 else 0) ∧
         clock r.2 = S last_check ∧
         (stop_at env last_check →
          calls = SdPlay audio_path :: replicate n Sleep10ms ++ [SdStop] ∧
          r.1 = false) ∧
         (¬ stop_at env last_check →
          calls = SdPlay audio_path :: replicate n Sleep10ms ∧ r.1 = true)).
Proof.
  intros r polls. subst r polls. unfold _play_audio_file, stop_seen.
  destruct (audio_readable env audio_path) eqn:Hread; simpl;
    [|exists []; split; [done|left; auto]].
  destruct (stop_flag_at env (clock w) || stop_requested_at env (clock w))
    eqn:Hstop; simpl; [exists []; split; [done|left; auto]|].
  destruct (device_available env audio_path) eqn:Hdev; simpl;
    [|exists []; split; [done|left; auto]].
  set (w2 := record (Device (SdPlay audio_path)) (tick w)).
  destruct (wait_for_playback_polls env (stream_active_polls env audio_path) w2)
    as (n & Hn & Hbefore & Hlast & Hev & Hclock).
  set (w3 := wait_for_playback env (stream_active_polls env audio_path) w2) in *.
  change (clock w2) with (S (clock w)) in *.
  change (events w2) with (events w ++ [Device (SdPlay audio_path)]) in Hev.
  replace (S (clock w) + n) with (clock w + 1 + n) in * by lia.
  assert (∀ j, j < n → ¬ stop_at env (clock w + 1 + j)) as Hbefore'.
  { intros j Hj. replace (clock w + 1 + j) with (S (clock w) + j) by lia. auto. }
  unfold stop_at in *.
  destruct (stop_flag_at env (clock w3) || stop_requested_at env (clock w3))
    eqn:Hstop'; simpl.
  - exists (SdPlay audio_path :: replicate n Sleep10ms ++ [SdStop]). split.
    + rewrite Hev, !fmap_cons, fmap_app, fmap_replicate. simpl.
      by rewrite <- !app_assoc.
    + right. exists n, (clock w3). split_and!; try done; congruence.
  - exists (SdPlay audio_path :: replicate n Sleep10ms). split.
    + rewrite Hev, !fmap_cons, fmap_replicate. simpl. by rewrite <- !app_assoc.
    + right. exists n, (clock w3). split_and!; try done; congruence.
Qed.

(** C8 as stated fails: an invocation that completes normally returns
    without a device stop. *)
Lemma play_audio_file_completes_without_stop :
  let r := _play_audio_file quiet_env "/tmp/audio.wav" (init hello_document 0 0) in
  r.1 = true ∧
  device_calls r.2 =
    [SdPlay "/tmp/audio.wav"; Sleep10ms; Sleep10ms; OsRemove "/tmp/audio.wav"] ∧
  SdStop ∉ device_calls r.2.
Proof.
  split_and!; [reflexivity|reflexivity|].
  eapply bool_decide_eq_false_1. by vm_compute.
Qed.

(** ** The loops of [run] *)

Lemma Forall_quiet_device (calls : list DeviceCall) : Forall quiet (Device <$> calls).
Proof. apply Forall_fmap, Forall_true. done. Qed.

Lemma sentence_loop_spec env b sents idxs w :
  let r := sentence_loop env b sents idxs w in
  ∃ new,
    extends w r.2 new ∧ Forall quiet new ∧ r.1 ≠ Break ∧
    (r.1 = Normal →
     ∃ segs, Forall2 sentence_segment ((λ s, (b, s)) <$> idxs) segs ∧
             new = concat segs).
Proof.
  revert w. induction idxs as [|i idxs IH]; intros w; simpl.
  { exists []. split_and!; [apply extends_refl|constructor|done|].
    intros _. exists []. split; [constructor|done]. }
  destruct (stop_flag_at env (clock w) || stop_requested_at env (clock w)); simpl.
  { exists []. split_and!; [apply extends_tick|constructor|done|done]. }
  destruct (sents !! i) as [sentence|]; simpl;
    [|exists []; split_and!; [apply extends_tick|constructor|done|done]].
  set (w3 := record (Emit (SentenceStarted b i)) (set_position (b, i) (tick w))).
  assert (extends w w3 [Emit (SentenceStarted b i)]) as H3
    by apply extends_start_sentence.
  pose proof (extends_get_audio env b i sentence w3) as H4.
  destruct (_get_audio_for_sentence env b i sentence w3) as [audio w4].
  simpl in H4.
  assert (extends w w4 [Emit (SentenceStarted b i)]) as H4'
    by (eapply extends_step; [exact H3|exact H4|list_eq]).
  destruct audio as [audio_path|]; simpl;
    [|exists [Emit (SentenceStarted b i)];
      split_and!; try done; by repeat constructor].
  destruct (play_audio_file_cases env audio_path w4) as (calls & H5 & Hcases).
  destruct (_play_audio_file env audio_path w4) as [result w5]. simpl in *.
  assert (Forall quiet
            (Emit (SentenceStarted b i) ::
             (Device <$> calls) ++ [Device (OsRemove audio_path)])) as Hquiet.
  { constructor; [done|]. apply Forall_app. split; [apply Forall_quiet_device|].
    by repeat constructor. }
  assert (extends w w5
            (Emit (SentenceStarted b i) ::
             (Device <$> calls) ++ [Device (OsRemove audio_path)])) as H5'
    by (eapply extends_step; [exact H4'|exact H5|list_eq]).
  destruct result; simpl; [|eexists; split_and!; [exact H5'|exact Hquiet|done|done]].
  destruct Hcases as [(_ & ? & _)|[(? & ? & _ & _ & ? & _)|(n & _ & -> & _)]];
    [done|done|].
  destruct (stop_flag_at env (clock w5) || stop_requested_at env (clock w5)); simpl.
  { eexists. split_and!; [|exact Hquiet|done|done].
    eapply extends_step; [exact H5'|apply extends_tick|list_eq]. }
  destruct (IH (tick w5)) as (new & Hext & Hq & Hflow & Hnormal).
  eexists. split_and!.
  - eapply extends_step; [exact H5'| |done].
    eapply extends_step; [apply extends_tick|exact Hext|done].
  - apply Forall_app. split; [exact Hquiet|exact Hq].
  - done.
  - intros Hn. destruct (Hnormal Hn) as (segs & Hsegs & ->).
    eexists (_ :: segs). split; [|done]. constructor; [|done].
    exists audio_path, n. simpl. by rewrite fmap_replicate.
Qed.

Lemma block_len_lookup data b blk :
  data !! b = Some blk → block_len data b = length (sentences blk).
Proof. unfold block_len. by intros ->. Qed.

Lemma list_bind_ext_elem {A B} (f g : A → list B) (l : list A) :
  (∀ x, x ∈ l → f x = g x) → l ≫= f = l ≫= g.
Proof.
  induction l as [|x l IH]; intros H; [done|].
  rewrite !bind_cons, H, IH; [done| |left]. intros y ?. apply H. by right.
Qed.

Lemma block_loop_spec env data l w :
  (start_sentence w = 0 ∨ ∀ i b, l !! i = Some b → b = start_block w → i = 0) →
  let r := block_loop env data l w in
  ∃ new,
    extends w r.2 new ∧ Forall quiet new ∧
    (r.1 = Break → ∃ t, clock w ≤ t < clock r.2 ∧ stop_at env t) ∧
    (r.1 = Normal →
     ∃ segs,
       Forall2 sentence_segment (b ← l; block_keys data b (start_of w b)) segs ∧
       new = concat segs).
Proof.
  revert w. induction l as [|b l IH]; intros w Hstart; simpl.
  { exists []. split_and!; [apply extends_refl|constructor|done|].
    intros _. exists []. split; [constructor|done]. }
  assert (∀ b', b' ∈ l → start_of w b' = 0) as Hlater.
  { intros b' [i Hi]%list_elem_of_lookup. unfold start_of. case_bool_decide; [|done].
    destruct Hstart as [?|Hstart]; [done|].
    by specialize (Hstart (S i) b' Hi ltac:(done)). }
  destruct (stop_flag_at env (clock w) || stop_requested_at env (clock w))
    eqn:Hstop; simpl.
  { exists []. split_and!; [apply extends_tick|constructor| |done].
    intros _. exists (clock w). split; [lia|done]. }
  destruct (data !! b) as [blk|] eqn:Hblk; simpl;
    [|exists []; split_and!; [apply extends_tick|constructor|done|done]].
  case_bool_decide as Hempty.
  - (* an empty block is skipped *)
    destruct (IH (tick w)) as (new & Hext & Hq & Hbreak & Hnormal).
    { destruct Hstart as [?|Hstart]; [by left|right].
      intros i b' Hi ?. by specialize (Hstart (S i) b' Hi ltac:(done)). }
    exists new. split_and!; [|done| |].
    + eapply extends_step; [apply extends_tick|exact Hext|done].
    + intros Hb. destruct (Hbreak Hb) as (t & Ht & ?). exists t.
      simpl in Ht. split; [lia|done].
    + intros Hn. destruct (Hnormal Hn) as (segs & Hsegs & ->).
      exists segs. split; [|done].
      replace (block_keys data b (start_of w b)) with (@nil (nat * nat)).
      * exact Hsegs.
      * unfold block_keys. rewrite (block_len_lookup _ _ _ Hblk), Hempty. done.
  - (* the sentences of the block *)
    set (w1 := tick w).
    pose proof (sentence_loop_spec env b (sentences blk)
                  (range (start_of w b) (length (sentences blk))) w1)
      as (new1 & Hext1 & Hq1 & Hnb & Hnormal1).
    change (if bool_decide (b = start_block w) then start_sentence w else 0)
      with (start_of w b).
    destruct (sentence_loop env b (sentences blk)
                (range (start_of w b) (length (sentences blk))) w1)
      as [flow w2].
    simpl in *.
    assert (extends w w2 new1) as Hext2
      by (eapply extends_step; [apply extends_tick|exact Hext1|done]).
    destruct flow; try (exists new1; split_and!; done).
    destruct (Hnormal1 eq_refl) as (segs1 & Hsegs1 & ->).
    destruct (stop_flag_at env (clock w2) || stop_requested_at env (clock w2)); simpl.
    { eexists. split_and!; [|exact Hq1|done|done].
      eapply extends_step; [exact Hext2|apply extends_reset_start_sentence|list_eq]. }
    destruct (IH (tick (set_start_sentence 0 w2)))
      as (new & Hext & Hq & Hbreak & Hnormal); [by left|].
    eexists. split_and!.
    + eapply extends_step; [exact Hext2| |done].
      eapply extends_step; [apply extends_reset_start_sentence|exact Hext|done].
    + by apply Forall_app.
    + intros Hb. destruct (Hbreak Hb) as (t & Ht & ?). exists t.
      apply extends_clock in Hext2. simpl in Ht. split; [lia|done].
    + intros Hn. destruct (Hnormal Hn) as (segs & Hsegs & ->).
      exists (segs1 ++ segs). split; [|by rewrite concat_app].
      apply Forall2_app.
      * unfold block_keys. rewrite (block_len_lookup _ _ _ Hblk). exact Hsegs1.
      * erewrite list_bind_ext_elem; [exact Hsegs|].
        intros b' Hb'. simpl. rewrite (Hlater b' Hb'). f_equal.
        unfold start_of. simpl. by case_bool_decide.
Qed.

Lemma stop_at_later env t t' :
  flags_monotone env → t ≤ t' → stop_at env t → stop_at env t'.
Proof.
  unfold stop_at. intros Hmono Hle [H|H]%orb_true_iff;
    apply orb_true_iff; destruct (Hmono t t' Hle); auto.
Qed.

Lemma elem_of_signals s w : s ∈ signals w ↔ Emit s ∈ events w.
Proof.
  unfold signals. rewrite list_elem_of_omap. split.
  - intros ([s'|c] & ? & [= ->]). done.
  - intros ?. by exists (Emit s).
Qed.

Lemma signals_quiet w : Forall quiet (events w) → Finished ∉ signals w.
Proof.
  intros Hq Hin%elem_of_signals. rewrite Forall_forall in Hq.
  by specialize (Hq _ Hin).
Qed.

Lemma signals_cleanup w : signals (_cleanup_audio_buffer w) = signals w.
Proof.
  unfold _cleanup_audio_buffer, signals. simpl.
  induction (map_to_list (_audio_buffer w)) as [|kv l IH]; simpl; [done|].
  rewrite omap_app, IH. simpl. by rewrite app_nil_r.
Qed.

Lemma omap_sentence_segments keys segs :
  Forall2 sentence_segment keys segs →
  omap (λ e, match e with Emit s => Some s | Device _ => None end) (concat segs) =
  (λ k, SentenceStarted k.1 k.2) <$> keys.
Proof.
  induction 1 as [|k seg keys segs (p & n & ->) _ IH]; simpl; [done|].
  rewrite omap_app, IH. f_equal. rewrite omap_app. simpl.
  induction n as [|n IHn]; simpl; [done|]. exact IHn.
Qed.

Lemma range_start_first sb len i b : range sb len !! i = Some b → b = sb → i = 0.
Proof. unfold range. intros [? ?]%lookup_seq ?. lia. Qed.

(** The body of [run], on a worker that has made no signal yet: what it
    has emitted when it ends, and when it emits [finished]. *)
Lemma run_body_spec env data sb ss buffer :
  let w0 := set_buffer buffer (init data sb ss) in
  let r := run_body env w0 in
  let w1 := (block_loop env data (range sb (length data)) w0).2 in
  ∃ new,
    Forall quiet new ∧
    (events r.2 = new ∨
     events r.2 = new ++ [Emit Finished] ∧
     clock r.2 = S (clock w1) ∧
     ¬ stop_at env (clock w1) ∧
     ((∃ t, t < clock w1 ∧ stop_at env t) ∨
      ∃ segs, Forall2 sentence_segment (loop_keys data sb ss) segs ∧
              new = concat segs)).
Proof.
  intros w0 r w1. unfold r, w1, run_body. change (sentence_data w0) with data.
  change (start_block w0) with sb.
  destruct (block_loop_spec env data (range sb (length data)) w0)
    as (new & Hext & Hq & Hbreak & Hnormal).
  { right. intros i b. apply range_start_first. }
  apply extends_events in Hext. change (events w0) with (@nil Event) in Hext.
  simpl in Hext.
  destruct (block_loop env data (range sb (length data)) w0) as [flow w']
    eqn:Hloop.
  simpl in *. exists new. split; [done|].
  assert (stop_flag_at env (clock w') || stop_requested_at env (clock w') = true ∨
          ¬ stop_at env (clock w')) as Hcheck.
  { unfold stop_at.
    destruct (stop_flag_at env (clock w') || stop_requested_at env (clock w'));
      [by left|by right]. }
  destruct flow; simpl; try (by left).
  - destruct Hcheck as [->|Hno]; simpl; [by left|].
    unfold stop_at in Hno. apply not_true_is_false in Hno as Hno'.
    rewrite Hno'. simpl. right. rewrite Hext. split_and!; [done|done|done|].
    right. destruct (Hnormal eq_refl) as (segs & Hsegs & ->). by exists segs.
  - destruct Hcheck as [->|Hno]; simpl; [by left|].
    unfold stop_at in Hno. apply not_true_is_false in Hno as Hno'.
    rewrite Hno'. simpl. right. rewrite Hext. split_and!; [done|done|done|].
    left. destruct (Hbreak eq_refl) as (t & Ht & ?). exists t. split; [lia|done].
Qed.

Lemma signals_run env w :
  Finished ∈ signals (run env w) ↔ Emit Finished ∈ events (run_body env w).2.
Proof.
  unfold run. destruct (run_body env w) as [flow w1]. simpl.
  rewrite signals_cleanup, elem_of_signals.
  destruct flow; try done. simpl. rewrite elem_of_app, list_elem_of_singleton.
  split; [intros [?|?]; [done|discriminate]|by left].
Qed.

(** C1: a worker whose stop flags are only ever set does not emit
    [finished] when a stop was requested at any instant up to its final
    completion check; and when it emits [finished], no stop was
    requested up to that check and it has started and played to the end
    every sentence of every block from the start position, in order. *)
Theorem run_finished_only_without_stop env data sb ss buffer :
  flags_monotone env →
  let w0 := set_buffer buffer (init data sb ss) in
  let after_completion_check := clock (run_body env w0).2 in
  (∀ t, t < after_completion_check → stop_at env t →
        Finished ∉ signals (run env w0)) ∧
  (Finished ∈ signals (run env w0) →
     (∀ t, t < after_completion_check → ¬ stop_at env t) ∧
     ∃ segs,
       Forall2 sentence_segment (loop_keys data sb ss) segs ∧
       events (run_body env w0).2 = concat segs ++ [Emit Finished]).
Proof.
  intros Hmono w0 after_completion_check.
  assert (Finished ∈ signals (run env w0) →
     (∀ t, t < after_completion_check → ¬ stop_at env t) ∧
     ∃ segs,
       Forall2 sentence_segment (loop_keys data sb ss) segs ∧
       events (run_body env w0).2 = concat segs ++ [Emit Finished]) as Hfin.
  { rewrite signals_run. unfold after_completion_check.
    pose proof (run_body_spec env data sb ss buffer) as Hspec.
    cbv zeta in Hspec.
    change (set_buffer buffer (init data sb ss)) with w0 in Hspec.
    destruct Hspec as (new & Hq & [Hev|(Hev & Hclock & Hno & Hcases)]).
    - rewrite Hev. intros Hin. rewrite Forall_forall in Hq.
      by specialize (Hq _ Hin).
    - intros _. rewrite Hclock.
      assert (∀ t, t < S (clock (block_loop env data (range sb (length data)) w0).2)
                   → ¬ stop_at env t) as Hnone.
      { intros t Ht Hstop. apply Hno. eapply stop_at_later; [done| |done]. lia. }
      split; [done|].
      destruct Hcases as [(t & Ht & Hstop)|(segs & Hsegs & ->)].
      + exfalso. apply (Hnone t); [lia|done].
      + by exists segs. }
  split; [|done].
  intros t Ht Hstop Hin. destruct (Hfin Hin) as [Hnone _]. by apply (Hnone t).
Qed.

(** In [quiet_env] no stop is ever requested. *)
Lemma quiet_env_monotone : flags_monotone quiet_env.
Proof. intros t t' _. simpl. done. Qed.

(** The theorem at [hello_document] played from (0,0) in [quiet_env]:
    the run ends with [finished] after both sentences. *)
Lemma run_finished_only_without_stop_witness :
  flags_monotone quiet_env ∧
  ∃ segs,
    Forall2 sentence_segment (loop_keys hello_document 0 0) segs ∧
    events (run_body quiet_env (set_buffer ∅ (init hello_document 0 0))).2 =
      concat segs ++ [Emit Finished].
Proof.
  split; [exact quiet_env_monotone|].
  destruct (run_finished_only_without_stop quiet_env hello_document 0 0 ∅
              quiet_env_monotone) as [_ Hfin].
  apply Hfin. apply elem_of_signals. vm_compute.
  do 10 apply list_elem_of_further. apply list_elem_of_here.
Defined.

(** ** Synthesis failures and the [error] signal *)

Lemma sentence_loop_no_raise env b sents idxs w msg :
  (∀ i, i ∈ idxs → i < length sents) →
  (sentence_loop env b sents idxs w).1 ≠ Raise msg.
Proof.
  revert w. induction idxs as [|i idxs IH]; intros w Hrange; simpl; [done|].
  destruct (stop_flag_at env (clock w) || stop_requested_at env (clock w));
    simpl; [done|].
  destruct (sents !! i) as [sentence|] eqn:Hi.
  2:{ apply lookup_ge_None_1 in Hi. specialize (Hrange i ltac:(left)). lia. }
  destruct (_get_audio_for_sentence _ _ _ _ _) as [[audio_path|] w4]; [|done].
  destruct (_play_audio_file env audio_path w4) as [[] w5]; simpl; [|done].
  destruct (stop_flag_at env (clock w5) || stop_requested_at env (clock w5));
    simpl; [done|].
  apply IH. intros j Hj. apply Hrange. by right.
Qed.

Lemma block_loop_no_raise env data l w msg :
  (∀ b, b ∈ l → b < length data) →
  (block_loop env data l w).1 ≠ Raise msg.
Proof.
  revert w. induction l as [|b l IH]; intros w Hrange; simpl; [done|].
  assert (∀ b', b' ∈ l → b' < length data) as Hrange'
    by (intros b' ?; apply Hrange; by right).
  destruct (stop_flag_at env (clock w) || stop_requested_at env (clock w));
    simpl; [done|].
  destruct (data !! b) as [blk|] eqn:Hb.
  2:{ apply lookup_ge_None_1 in Hb. specialize (Hrange b ltac:(left)). lia. }
  case_bool_decide; [by apply IH|].
  match goal with
  | |- context [sentence_loop env b ?ss ?idxs ?w1] =>
      pose proof (sentence_loop_no_raise env b ss idxs w1 msg) as Hinner;
      destruct (sentence_loop env b ss idxs w1) as [flow w2]
  end.
  simpl in Hinner.
  assert (flow ≠ Raise msg) as Hflow.
  { apply Hinner. intros i Hi. unfold range in Hi. apply elem_of_seq in Hi. lia. }
  destruct flow; try done.
  destruct (stop_flag_at env (clock w2) || stop_requested_at env (clock w2));
    simpl; [done|].
  by apply IH.
Qed.

(** Whatever the environment does, in particular whichever synthesis
    call fails, [run] does not emit the [error] signal. *)
Lemma run_emits_no_error env data sb ss buffer msg :
  Error msg ∉ signals (run env (set_buffer buffer (init data sb ss))).
Proof.
  unfold run.
  pose proof (run_body_spec env data sb ss buffer) as Hspec. cbv zeta in Hspec.
  pose proof (block_loop_no_raise env data (range sb (length data))
                (set_buffer buffer (init data sb ss))) as Hloop.
  unfold run_body in *.
  change (sentence_data (set_buffer buffer (init data sb ss))) with data in *.
  change (start_block (set_buffer buffer (init data sb ss))) with sb in *.
  destruct (block_loop env data (range sb (length data))
              (set_buffer buffer (init data sb ss))) as [flow w1].
  assert (∀ msg', flow ≠ Raise msg') as Hflow.
  { intros msg'. apply Hloop. intros b Hb. unfold range in Hb.
    apply elem_of_seq in Hb. lia. }
  assert (∀ w, (∃ new, Forall quiet new ∧
                 (events w = new ∨ events w = new ++ [Emit Finished])) →
               Error msg ∉ signals w) as Hquiet.
  { intros w (new & Hq & Hev) Hin%elem_of_signals. rewrite Forall_forall in Hq.
    destruct Hev as [Hev|Hev]; rewrite Hev in Hin.
    - by specialize (Hq _ Hin).
    - apply elem_of_app in Hin as [Hin|Hin%list_elem_of_singleton]; [|done].
      by specialize (Hq _ Hin). }
  destruct Hspec as (new & Hq & Hev).
  destruct flow; simpl in *; try (by destruct (Hflow message)).
  - destruct (_ || _); simpl in *; rewrite signals_cleanup; apply Hquiet;
      exists new; split; [done| |done|]; destruct Hev as [?|[? _]]; auto.
  - destruct (_ || _); simpl in *; rewrite signals_cleanup; apply Hquiet;
      exists new; split; [done| |done|]; destruct Hev as [?|[? _]]; auto.
  - rewrite signals_cleanup. apply Hquiet.
    exists new; split; [done|]; destruct Hev as [?|[? _]]; auto.
Qed.

End worker.

Section manager.
Import TTSManager.

(** ** Failures the manager is not told about *)

(** C2 on the code: with the synthesis of the second sentence failing,
    the worker starts both sentences and returns without a signal; no
    error message is shown and the manager still believes it is
    speaking, although the worker thread has ended; only the position
    is as the claim says. *)
Theorem synthesis_failure_is_silent :
  let m0 := toggle_speech (ready_host hello_document) (init true) in
  let m := run_current_worker failing_second_env m0 in
  (TTSWorker.signals <$> (worker <$> current_thread m)) =
    Some [TTSWorker.SentenceStarted 0 0; TTSWorker.SentenceStarted 0 1] ∧
  (running <$> current_thread m) = Some false ∧
  error_messages m = [] ∧
  is_speaking m = true ∧
  get_sentence_index m = (0, 1) ∧
  toggle_speech (ready_host hello_document) m = m.
Proof. vm_compute. split_and!; reflexivity. Qed.

(** C5 on the code: navigating to (5,0) in a document of two blocks
    returns [False], but only after the running session has been torn
    down: no worker is left, [is_speaking] and [_is_navigating] stay
    set, the position is the out-of-range key, and [toggle_speech] no
    longer changes anything. Called without [set_sentence_index] before
    it, [_navigate_to_sentence(5, 0)] even returns [True]: it restarts
    the session at the current position. *)
Theorem navigate_out_of_range_tears_down :
  let m := toggle_speech (ready_host two_block_document) (init true) in
  let r := _navigate_to_sentence (ready_host two_block_document) 5 0
             (set_sentence_index 5 0 m) in
  (is_speaking m, tts_worker m, get_sentence_index m, running <$> threads m) =
    (true, Some 0, (0, 0), [true]) ∧
  r.1 = false ∧
  (is_speaking r.2, tts_worker r.2, get_sentence_index r.2, running <$> threads r.2) =
    (true, None, (5, 0), [false]) ∧
  _is_navigating r.2 = true ∧
  toggle_speech (ready_host two_block_document) r.2 = r.2 ∧
  (_navigate_to_sentence (ready_host two_block_document) 5 0 m).1 = true.
Proof. vm_compute. split_and!; reflexivity. Qed.

(** C7 on the code: from (0,0), with an empty block before the next
    sentence (2,0), [navigate_to_next_sentence] goes to (2,1), skipping
    (2,0), and [navigate_to_previous_sentence] then goes to (2,0), not
    back to (0,0); both calls return [True]. *)
Theorem next_then_previous_skips_over_gap :
  let h := ready_host gap_document in
  let m := toggle_speech h (init true) in
  let r1 := navigate_to_next_sentence h m in
  let r2 := navigate_to_previous_sentence h r1.2 in
  get_sentence_index m = (0, 0) ∧
  head (keys_from gap_document 0 1) = Some (2, 0) ∧
  r1.1 = true ∧ get_sentence_index r1.2 = (2, 1) ∧
  (fst <$> r2) = Some true ∧
  (get_sentence_index <$> (snd <$> r2)) = Some (2, 0).
Proof. vm_compute. split_and!; reflexivity. Qed.

(** ** Buffer inheritance *)

Lemma keep_entry_spec target_block target_sent k :
  keep_entry target_block target_sent k = true ↔
  in_relevance_window (target_block, target_sent) k.
Proof.
  unfold keep_entry, in_relevance_window. simpl.
  destruct (Z.leb_spec (Z.abs (Z.of_nat k.1 - Z.of_nat target_block)) 2);
    [|split; [done|lia]].
  destruct (Z.eqb_spec (Z.abs (Z.of_nat k.1 - Z.of_nat target_block)) 0).
  - rewrite Z.leb_le. split; [left; lia|intros [[? ?]|[? ?]]; lia].
  - split; [right; lia|done].
Qed.

Lemma elem_of_map_keys (m : gmap (nat * nat) string) k :
  k ∈ (map_to_list m).*1 ↔ is_Some (m !! k).
Proof.
  rewrite list_elem_of_fmap. split.
  - intros ([k' p] & -> & Hin). apply elem_of_map_to_list in Hin. by exists p.
  - intros [p Hp]. exists (k, p). split; [done|]. by apply elem_of_map_to_list.
Qed.

Lemma lookup_foldr_delete_keys (m m' : gmap (nat * nat) string) k :
  foldr delete m (map_to_list m').*1 !! k =
  if decide (is_Some (m' !! k)) then None else m !! k.
Proof.
  case_decide as Hs.
  - apply lookup_foldr_delete. by apply elem_of_map_keys.
  - apply lookup_foldr_delete_not_elem_of. by rewrite elem_of_map_keys.
Qed.

(** ** What the manager's operations do to the threads *)

Lemma stop_and_join_spec h i m t :
  threads m !! i = Some t →
  stop_and_join h i m =
  if exits_in_time h && running t then
    set_destroyed (destroyed m ++ map_to_list (thread_buffer t))
      (set_threads
         (<[i := mkThread (TTSWorker.set_buffer ∅ (worker t)) false true]>
            (threads m)) m)
  else set_threads (<[i := mkThread (worker t) false true]> (threads m)) m.
Proof.
  intros Ht. pose proof (lookup_lt_Some _ _ _ Ht) as Hlt.
  unfold stop_and_join. rewrite Ht.
  destruct (exits_in_time h); simpl; [|done].
  unfold thread_exit. simpl. rewrite list_lookup_insert_eq by done. simpl.
  destruct (running t) eqn:Hr; simpl.
  - by rewrite list_insert_insert_eq.
  - done.
Qed.

Lemma start_speaking_success h inherited m m' :
  _start_speaking_from_index h inherited m = (true, m') →
  tts_worker m = None →
  ∃ data,
    sentence_data m = Some data ∧
    m' = set_is_speaking true
           (set_tts_worker (Some (length (threads m)))
              (set_threads
                 (threads m ++
                  [mkThread
                     (TTSWorker.set_buffer (inherited ∪ ∅)
                        (TTSWorker.init data (tts_sentence_index m).1
                           (tts_sentence_index m).2))
                     true false]) m)).
Proof.
  unfold _start_speaking_from_index. intros H Hw.
  destruct (sentence_data m) as [[|blk data]|]; [done| |done].
  destruct (config_present h); simpl in H; [|done].
  destruct (tts_sentence_index m) as [b s]. simpl in *.
  destruct (bool_decide _ || bool_decide _); [done|].
  destruct (backend h); [|done|done].
  rewrite Hw in H. injection H as <-. by eexists.
Qed.

(** C3, as the code has it, for a hot navigation whose new session
    starts. When the target key is itself in the old worker's buffer,
    every entry of the old buffer within the relevance window of the
    target is removed from the old buffer before the old worker is
    joined, is not among the entries the old worker's cleanup destroys,
    and is in the buffer of the new worker. When the target key is not
    in the old buffer, nothing is extracted: the new worker starts with
    an empty buffer, and the old worker's cleanup destroys every entry
    of its buffer when the worker was running and leaves [run] before
    the wait times out; when it is terminated instead (or had already
    ended) its entries stay where they are and none is destroyed. *)
Theorem hot_navigation_inherits_window h block_idx sent_idx m i t :
  tts_worker m = Some i →
  threads m !! i = Some t →
  let r := _navigate_to_sentence h block_idx sent_idx m in
  r.1 = true →
  ∃ t_new t_old cleaned,
    current_thread r.2 = Some t_new ∧
    threads r.2 !! i = Some t_old ∧
    running t_old = false ∧
    destroyed r.2 = destroyed m ++ cleaned ∧
    (is_Some (thread_buffer t !! (block_idx, sent_idx)) →
     ∀ k audio_path,
       thread_buffer t !! k = Some audio_path →
       in_relevance_window (block_idx, sent_idx) k →
       thread_buffer t_new !! k = Some audio_path ∧
       thread_buffer t_old !! k = None ∧
       (k, audio_path) ∉ cleaned) ∧
    (thread_buffer t !! (block_idx, sent_idx) = None →
     thread_buffer t_new = ∅ ∧
     (exits_in_time h = true → running t = true →
      thread_buffer t_old = ∅ ∧ cleaned = map_to_list (thread_buffer t)) ∧
     (exits_in_time h = false ∨ running t = false →
      thread_buffer t_old = thread_buffer t ∧ cleaned = [])).
Proof.
  intros Hw Ht r. subst r.
  pose proof (lookup_lt_Some _ _ _ Ht) as Hlt.
  unfold _navigate_to_sentence. rewrite Hw.
  destruct (is_speaking m) eqn:Hspeaking; simpl; [|done].
  rewrite Ht.
  destruct (decide (is_Some (thread_buffer t !! (block_idx, sent_idx))))
    as [Htarget|Hmiss].
  - (* the target is buffered: the window is extracted *)
    rewrite bool_decide_eq_true_2 by done.
    unfold _extract_relevant_buffer_entries. rewrite Hw, Ht.
    set (extracted := filter (λ kv, keep_entry block_idx sent_idx kv.1)
                        (thread_buffer t)).
    set (rest := foldr delete (thread_buffer t) (map_to_list extracted).*1).
    match goal with |- context [stop_and_join h i ?x] => set (m2 := x) end.
    assert (threads m2 !! i = Some (set_thread_buffer rest t)) as Ht2
      by (simpl; by rewrite list_lookup_insert_eq).
    rewrite (stop_and_join_spec h i m2 _ Ht2).
    match goal with
    | |- context [set_tts_worker None ?x] => set (m3 := x)
    end.
    destruct (_start_speaking_from_index h extracted (set_tts_worker None m3))
      as [ok m'] eqn:Hstart.
    simpl. intros ->.
    apply start_speaking_success in Hstart as (data & _ & ->); [|done].
    assert (∀ k audio_path,
              thread_buffer t !! k = Some audio_path →
              in_relevance_window (block_idx, sent_idx) k →
              extracted !! k = Some audio_path ∧ rest !! k = None) as Hsplit.
    { intros k p Hk Hwin. assert (extracted !! k = Some p) as Hex.
      { apply map_lookup_filter_Some. split; [done|].
        simpl. apply Is_true_true. by apply keep_entry_spec. }
      split; [done|]. unfold rest. rewrite lookup_foldr_delete_keys.
      rewrite decide_True; [done|by eexists]. }
    assert (thread_buffer t !! (block_idx, sent_idx) = None → False) as Hnot
      by (intros Hnone; rewrite Hnone in Htarget; by destruct Htarget).
    unfold current_thread. simpl.
    assert (length (threads m3) = length (threads m)) as Hlen.
    { unfold m3. destruct (_ && _); simpl; by rewrite !length_insert. }
    destruct (exits_in_time h && running (set_thread_buffer rest t)) eqn:Hexit;
      simpl in m3; subst m3; simpl.
    + eexists _, _, (map_to_list rest). split_and!.
      * rewrite lookup_app_r by lia. by rewrite Nat.sub_diag.
      * rewrite lookup_app_l by (by rewrite !length_insert).
        rewrite list_insert_insert_eq. by apply list_lookup_insert_eq.
      * done.
      * done.
      * intros _ k p Hk Hwin. destruct (Hsplit k p Hk Hwin) as [Hex Hrest].
        split_and!.
        -- simpl. unfold thread_buffer. simpl. by apply lookup_union_Some_l.
        -- done.
        -- intros Hin%elem_of_map_to_list. congruence.
      * intros Hnone. by destruct (Hnot Hnone).
    + eexists _, _, []. split_and!.
      * rewrite lookup_app_r by lia. by rewrite Nat.sub_diag.
      * rewrite lookup_app_l by (by rewrite !length_insert).
        rewrite list_insert_insert_eq. by apply list_lookup_insert_eq.
      * done.
      * by rewrite app_nil_r.
      * intros _ k p Hk Hwin. destruct (Hsplit k p Hk Hwin) as [Hex Hrest].
        split_and!.
        -- simpl. unfold thread_buffer. simpl. by apply lookup_union_Some_l.
        -- done.
        -- apply not_elem_of_nil.
      * intros Hnone. by destruct (Hnot Hnone).
  - (* the target is not buffered: nothing is extracted *)
    rewrite bool_decide_eq_false_2 by done.
    match goal with |- context [stop_and_join h i ?x] => set (m2 := x) end.
    assert (threads m2 !! i = Some t) as Ht2 by done.
    rewrite (stop_and_join_spec h i m2 _ Ht2).
    match goal with
    | |- context [set_tts_worker None ?x] => set (m3 := x)
    end.
    destruct (_start_speaking_from_index h ∅ (set_tts_worker None m3))
      as [ok m'] eqn:Hstart.
    simpl. intros ->.
    apply start_speaking_success in Hstart as (data & _ & ->); [|done].
    unfold current_thread. simpl.
    assert (length (threads m3) = length (threads m)) as Hlen.
    { unfold m3. destruct (_ && _); simpl; by rewrite !length_insert. }
    destruct (exits_in_time h) eqn:Hexit, (running t) eqn:Hrun;
      simpl in m3; subst m3; simpl.
    1: eexists _, _, (map_to_list (thread_buffer t)).
    2-4: eexists _, _, [].
    all: split_and!;
      [rewrite lookup_app_r by lia; by rewrite Nat.sub_diag
      |rewrite lookup_app_l by (by rewrite !length_insert);
       by apply list_lookup_insert_eq
      |done
      |by rewrite ?app_nil_r
      |intros Htarget; by destruct Hmiss
      |intros _; split_and!].
    all: try (unfold thread_buffer; simpl; by rewrite (left_id_L ∅ (∪))).
    all: try done.
    all: try (intros [?|?]; done).
    all: try (intros _; done).
Qed.

(** The worker of [buffered_manager] holds the entries for (0,1) and
    (1,2). *)
Lemma buffered_manager_thread :
  ∃ t, threads (set_sentence_index 0 1 buffered_manager) !! 0 = Some t ∧
       thread_buffer t !! (0, 1) = Some "/tmp/1.wav" ∧
       thread_buffer t !! (1, 2) = Some "/tmp/5.wav".
Proof. eexists. split_and!; vm_compute; reflexivity. Qed.

(** The theorem at [buffered_manager] and the target (0,1), which is
    buffered: the entry for (1,2) reaches the new worker. *)
Lemma hot_navigation_inherits_window_witness :
  ∃ t t_new,
    threads (set_sentence_index 0 1 buffered_manager) !! 0 = Some t ∧
    thread_buffer t !! (1, 2) = Some "/tmp/5.wav" ∧
    current_thread
      (_navigate_to_sentence long_host 0 1
         (set_sentence_index 0 1 buffered_manager)).2 = Some t_new ∧
    thread_buffer t_new !! (1, 2) = Some "/tmp/5.wav".
Proof.
  destruct buffered_manager_thread as (t & Ht & H1 & H5).
  assert (tts_worker (set_sentence_index 0 1 buffered_manager) = Some 0) as Hw
    by (vm_compute; reflexivity).
  assert (is_Some (thread_buffer t !! (0, 1))) as Htarget
    by (rewrite H1; by eexists).
  assert ((_navigate_to_sentence long_host 0 1
             (set_sentence_index 0 1 buffered_manager)).1 = true) as Hok
    by (vm_compute; reflexivity).
  destruct (hot_navigation_inherits_window long_host 0 1
              (set_sentence_index 0 1 buffered_manager) 0 t Hw Ht Hok)
    as (t_new & t_old & cleaned & Hnew & _ & _ & _ & Hwin & _).
  exists t, t_new. split; [exact Ht|]. split; [exact H5|]. split; [exact Hnew|].
  apply (Hwin Htarget (1, 2) "/tmp/5.wav" H5). right. split; [simpl; lia|cbn; lia].
Defined.

(** C3 as stated fails, in two ways. When the target key is not itself
    in the old buffer, nothing is extracted: the entry for (0,1), which
    lies in the relevance window of the target (0,0), is destroyed by
    the old worker's cleanup and the new worker starts with an empty
    buffer. And when the target (0,1) is buffered but the synthesis
    backend cannot be built, the window is extracted and no session
    starts: the entry for (1,2) has left the old buffer and is in no
    worker's buffer. *)
Lemma hot_navigation_drops_window_entries :
  (let r := _navigate_to_sentence long_host 0 0
              (set_sentence_index 0 0 buffered_manager) in
   r.1 = true ∧
   in_relevance_window (0, 0) (0, 1) ∧
   (thread_buffer <$> current_thread buffered_manager) ≫= (.!! (0, 1)) =
     Some "/tmp/1.wav" ∧
   (map_to_list <$> (thread_buffer <$> current_thread r.2)) = Some [] ∧
   ((0, 1), "/tmp/1.wav") ∈ destroyed r.2) ∧
  (let r := _navigate_to_sentence unavailable_host 0 1
              (set_sentence_index 0 1 buffered_manager) in
   r.1 = false ∧
   in_relevance_window (0, 1) (1, 2) ∧
   (thread_buffer <$> current_thread buffered_manager) ≫= (.!! (0, 1)) =
     Some "/tmp/1.wav" ∧
   (thread_buffer <$> current_thread buffered_manager) ≫= (.!! (1, 2)) =
     Some "/tmp/5.wav" ∧
   tts_worker r.2 = None ∧
   (λ t, thread_buffer t !! (1, 2)) <$> threads r.2 = [None]).
Proof.
  split.
  - split_and!.
    + vm_compute. reflexivity.
    + left. split; [reflexivity|cbn; lia].
    + vm_compute. reflexivity.
    + vm_compute. reflexivity.
    + eapply bool_decide_eq_true_1. vm_compute. reflexivity.
  - split_and!.
    + vm_compute. reflexivity.
    + right. split; [simpl; lia|cbn; lia].
    + vm_compute. reflexivity.
    + vm_compute. reflexivity.
    + vm_compute. reflexivity.
    + vm_compute. reflexivity.
Qed.

(** ** At most one running worker *)

Lemma one_running_same m m' :
  threads m' = threads m → tts_worker m' = tts_worker m →
  one_running m → one_running m'.
Proof. unfold one_running. intros -> ->. done. Qed.

Lemma none_running_same m m' :
  threads m' = threads m → none_running m → none_running m'.
Proof. unfold none_running. intros ->. done. Qed.

Lemma none_running_one_running m : none_running m → one_running m.
Proof. intros Hn i t Ht Hr. rewrite (Hn i t Ht) in Hr. done. Qed.

Lemma one_running_no_worker m :
  one_running m → tts_worker m = None → none_running m.
Proof.
  intros Hone Hw i t Ht. destruct (running t) eqn:Hr; [|done].
  specialize (Hone i t Ht Hr). congruence.
Qed.

Lemma one_running_other m i j t :
  one_running m → tts_worker m = Some i → threads m !! j = Some t → j ≠ i →
  running t = false.
Proof.
  intros Hone Hw Ht Hne. destruct (running t) eqn:Hr; [|done].
  specialize (Hone j t Ht Hr). congruence.
Qed.

Lemma stop_and_join_projections h i m :
  tts_worker (stop_and_join h i m) = tts_worker m ∧
  is_speaking (stop_and_join h i m) = is_speaking m ∧
  length (threads (stop_and_join h i m)) = length (threads m).
Proof.
  destruct (threads m !! i) as [t|] eqn:Ht.
  - rewrite (stop_and_join_spec _ _ _ _ Ht).
    destruct (_ && _); simpl; by rewrite length_insert.
  - unfold stop_and_join. by rewrite Ht.
Qed.

Lemma stop_and_join_none_running h i m :
  one_running m → tts_worker m = Some i → none_running (stop_and_join h i m).
Proof.
  intros Hone Hw. destruct (threads m !! i) as [t|] eqn:Ht.
  - rewrite (stop_and_join_spec _ _ _ _ Ht).
    pose proof (lookup_lt_Some _ _ _ Ht) as Hlt.
    intros j tj Hj. destruct (decide (j = i)) as [->|Hne].
    + destruct (_ && _); simpl in Hj;
        rewrite list_lookup_insert_eq in Hj by done; by injection Hj as <-.
    + apply (one_running_other m i j tj Hone Hw); [|done].
      destruct (_ && _); simpl in Hj;
        by rewrite list_lookup_insert_ne in Hj by done.
  - unfold stop_and_join. rewrite Ht. intros j tj Hj.
    apply (one_running_other m i j tj Hone Hw Hj). congruence.
Qed.

Lemma thread_exit_one_running i m : one_running m → one_running (thread_exit i m).
Proof.
  intros Hone. unfold thread_exit.
  destruct (threads m !! i) as [t|] eqn:Ht; [|done].
  destruct (running t) eqn:Hr; [|done].
  pose proof (lookup_lt_Some _ _ _ Ht) as Hlt.
  intros j tj Hj Hrj. simpl in *. destruct (decide (j = i)) as [->|Hne].
  - rewrite list_lookup_insert_eq in Hj by done. by injection Hj as <-.
  - rewrite list_lookup_insert_ne in Hj by done. by apply (Hone j tj).
Qed.

Lemma start_speaking_one_running h inherited m :
  one_running m → one_running (_start_speaking_from_index h inherited m).2.
Proof.
  intros Hone. unfold _start_speaking_from_index.
  destruct (sentence_data m) as [[|blk data]|]; [done| |done].
  destruct (config_present h); simpl; [|done].
  destruct (tts_sentence_index m) as [b s].
  destruct (bool_decide _ || bool_decide _); [done|].
  destruct (backend h); simpl; [|done|done].
  match goal with
  | |- context [set_threads (threads ?x ++ _) ?x] => set (m1 := x)
  end.
  assert (none_running m1) as Hnone.
  { unfold m1. destruct (tts_worker m) as [i|] eqn:Hw;
      [|by apply one_running_no_worker].
    eapply none_running_same; [done|].
    destruct (threads m !! i) as [t|] eqn:Ht.
    - destruct (running t) eqn:Hr; [by apply stop_and_join_none_running|].
      intros j tj Hj. simpl in Hj.
      destruct (decide (j = i)) as [->|Hne]; [congruence|].
      by apply (one_running_other m i j tj).
    - intros j tj Hj. simpl in Hj.
      apply (one_running_other m i j tj Hone Hw Hj). congruence. }
  intros j tj Hj Hrj. simpl in *.
  destruct (decide (j < length (threads m1))) as [Hlt|Hge].
  - rewrite lookup_app_l in Hj by done. rewrite (Hnone j tj Hj) in Hrj. done.
  - apply lookup_lt_Some in Hj as Hlt. rewrite length_app in Hlt. simpl in Hlt.
    f_equal. lia.
Qed.

Lemma extract_one_running b s m :
  one_running m → one_running (_extract_relevant_buffer_entries b s m).2.
Proof.
  intros Hone. unfold _extract_relevant_buffer_entries.
  destruct (tts_worker m) as [i|] eqn:Hw; [|done].
  destruct (threads m !! i) as [t|] eqn:Ht; [|done].
  pose proof (lookup_lt_Some _ _ _ Ht) as Hlt.
  intros j tj Hj Hrj. simpl in *. rewrite Hw.
  destruct (decide (j = i)) as [->|Hne]; [done|].
  rewrite list_lookup_insert_ne in Hj by done.
  rewrite <- Hw. by apply (Hone j tj).
Qed.

Lemma extract_tts_worker b s m :
  tts_worker (_extract_relevant_buffer_entries b s m).2 = tts_worker m.
Proof.
  unfold _extract_relevant_buffer_entries.
  destruct (tts_worker m) as [i|] eqn:Hw; [|done].
  by destruct (threads m !! i).
Qed.

Lemma navigate_one_running h b s m :
  one_running m → one_running (_navigate_to_sentence h b s m).2.
Proof.
  intros Hone. unfold _navigate_to_sentence.
  destruct (tts_worker m) as [i|] eqn:Hw; [|done].
  destruct (is_speaking m); simpl; [|done].
  match goal with
  | |- context [let '(_, _) := ?x in _] => set (e := x)
  end.
  assert (one_running e.2 ∧ tts_worker e.2 = Some i) as [He Hwe].
  { unfold e. destruct (threads m !! i) as [t|]; [|done].
    case_bool_decide; [|done].
    split; [by apply extract_one_running|by rewrite extract_tts_worker]. }
  destruct e as [preserved m1]. simpl in *.
  apply start_speaking_one_running. apply none_running_one_running.
  eapply none_running_same; [done|].
  apply stop_and_join_none_running; [|done].
  by eapply one_running_same; [..|exact He].
Qed.

Lemma stop_speech_one_running h m : one_running m → one_running (stop_speech h m).
Proof.
  intros Hone. unfold stop_speech.
  destruct (tts_worker m) as [i|] eqn:Hw; [|done].
  destruct (threads m !! i) as [t|] eqn:Ht; [|done].
  destruct (is_speaking m && running t); [|done].
  apply none_running_one_running. eapply none_running_same; [done|].
  by apply stop_and_join_none_running.
Qed.

Lemma toggle_speech_one_running h m :
  one_running m → one_running (toggle_speech h m).
Proof.
  intros Hone. unfold toggle_speech.
  destruct (is_speaking m); [by apply stop_speech_one_running|].
  destruct (document_empty h); [done|].
  destruct (config_present h); [|done].
  destruct (tts_configured h); [|done]. simpl.
  case_bool_decide; [done|].
  by apply start_speaking_one_running.
Qed.

Lemma deliver_projections s m :
  threads (deliver s m) = threads m ∧ tts_worker (deliver s m) = tts_worker m.
Proof.
  destruct s; simpl; unfold highlight_current_sentence, on_speech_finished;
    repeat case_match; done.
Qed.

Lemma foldl_deliver_projections l m :
  threads (foldl (λ m' s, deliver s m') m l) = threads m ∧
  tts_worker (foldl (λ m' s, deliver s m') m l) = tts_worker m.
Proof.
  revert m. induction l as [|s l IH]; intros m; [done|]. simpl.
  destruct (IH (deliver s m)) as [-> ->]. apply deliver_projections.
Qed.

Lemma run_current_worker_one_running env m :
  one_running m → one_running (run_current_worker env m).
Proof.
  intros Hone. unfold run_current_worker.
  destruct (tts_worker m) as [i|] eqn:Hw; [|done].
  destruct (threads m !! i) as [t|] eqn:Ht; [|done].
  destruct (running t); [|done].
  pose proof (lookup_lt_Some _ _ _ Ht) as Hlt.
  match goal with |- one_running (foldl _ ?x ?l) =>
    destruct (foldl_deliver_projections l x) as [Hth Htw]
  end.
  eapply one_running_same; [exact Hth|exact Htw|].
  intros j tj Hj Hrj. simpl in *. rewrite Hw.
  destruct (decide (j = i)) as [->|Hne]; [done|].
  rewrite list_lookup_insert_ne in Hj by done.
  rewrite <- Hw. by apply (Hone j tj).
Qed.

Lemma interleave_current_worker_one_running sts m :
  one_running m → one_running (interleave_current_worker sts m).
Proof.
  intros Hone. unfold interleave_current_worker.
  destruct (tts_worker m) as [i|] eqn:Hw; [|done].
  destruct (threads m !! i) as [t|] eqn:Ht; [|done].
  destruct (running t); [|done].
  intros j tj Hj Hrj. simpl in *. rewrite Hw.
  destruct (decide (j = i)) as [->|Hne]; [done|].
  rewrite list_lookup_insert_ne in Hj by done.
  rewrite <- Hw. by apply (Hone j tj).
Qed.

Lemma step_one_running h op m : one_running m → one_running (step h op m).
Proof.
  intros Hone. destruct op; simpl.
  - by apply toggle_speech_one_running.
  - by apply stop_speech_one_running.
  - unfold navigate_to_next_sentence.
    destruct (sentence_data m) as [[|blk data]|]; [done| |done].
    destruct (is_speaking m); simpl; [|done].
    destruct (find_next_sentence _ _ _) as [b s].
    destruct (bool_decide _ || bool_decide _); [done|].
    by apply navigate_one_running.
  - unfold navigate_to_previous_sentence.
    destruct (sentence_data m) as [[|blk data]|]; [done| |done].
    destruct (is_speaking m); simpl; [|done].
    destruct (find_previous_sentence _ _ _) as [[[b|] s]|]; [|done|done].
    destruct (_ !! b); [|done]. case_bool_decide; [done|].
    by apply navigate_one_running.
  - by apply navigate_one_running.
  - done.
  - by apply run_current_worker_one_running.
  - by apply interleave_current_worker_one_running.
  - by apply thread_exit_one_running.
  - unfold on_speech_finished. by destruct (_is_navigating m).
  - done.
  - done.
Qed.

Lemma steps_one_running ops m : one_running m → one_running (steps ops m).
Proof.
  unfold steps. revert m. induction ops as [|[h op] ops IH]; intros m Hone;
    [done|].
  simpl. apply IH. by apply step_one_running.
Qed.

(** C4, as the code has it: in every state the control surface can
    reach, at most one worker thread is running, and it is the one
    [tts_worker] refers to; a call of [toggle_speech] while speaking
    creates no second session: it creates no worker at all and leaves
    no worker running (it stops the running one). *)
Theorem at_most_one_running_session ops text_edit :
  let m := steps ops (init text_edit) in
  one_running m ∧
  (∀ i j ti tj,
     threads m !! i = Some ti → threads m !! j = Some tj →
     running ti = true → running tj = true → i = j) ∧
  (∀ h, is_speaking m = true →
     length (threads (toggle_speech h m)) = length (threads m) ∧
     none_running (toggle_speech h m)).
Proof.
  intros m.
  assert (one_running m) as Hone by (by apply steps_one_running).
  split_and!; [done| |].
  - intros i j ti tj Hi Hj Hri Hrj.
    pose proof (Hone i ti Hi Hri). pose proof (Hone j tj Hj Hrj). congruence.
  - intros h Hspeaking. unfold toggle_speech, stop_speech. rewrite Hspeaking.
    destruct (tts_worker m) as [i|] eqn:Hw;
      [|split; [done|by apply one_running_no_worker]].
    destruct (threads m !! i) as [t|] eqn:Ht.
    + simpl. destruct (running t) eqn:Hr.
      * split; [apply stop_and_join_projections|].
        eapply none_running_same; [done|]. by apply stop_and_join_none_running.
      * split; [done|]. intros j tj Hj.
        destruct (decide (j = i)) as [->|Hne]; [congruence|].
        by apply (one_running_other m i j tj).
    + split; [done|]. intros j tj Hj.
      apply (one_running_other m i j tj Hone Hw Hj). congruence.
Qed.

(** C4 as stated fails: the second call is not a no-op, it stops the
    session the first call started. *)
Lemma second_toggle_stops_session :
  let h := ready_host hello_document in
  let m1 := toggle_speech h (init true) in
  let m2 := toggle_speech h m1 in
  (is_speaking m1, tts_worker m1, running <$> threads m1) =
    (true, Some 0, [true]) ∧
  (is_speaking m2, tts_worker m2, running <$> threads m2) =
    (false, None, [false]) ∧
  m2 ≠ m1.
Proof.
  split_and!; [vm_compute; reflexivity..|].
  intros Heq. apply (f_equal is_speaking) in Heq. vm_compute in Heq. done.
Qed.

End manager.

Section session.
Import TTSWorker.

(** ** The read-ahead buffer of one session *)

Lemma keys_from_unfold data b s :
  keys_from data b s =
  if decide (s < block_len data b) then (b, s) :: keys_from data b (S s)
  else keys_from data b (S s).
Proof.
  unfold keys_from, block_keys. case_decide as Hs.
  - replace (block_len data b - s) with (S (block_len data b - S s)) by lia.
    done.
  - replace (block_len data b - s) with 0 by lia.
    replace (block_len data b - S s) with 0 by lia. done.
Qed.

Lemma keys_from_exhausted data b s :
  block_len data b ≤ s → b < length data →
  keys_from data b s = keys_from data (S b) 0.
Proof.
  intros Hs Hb. unfold keys_from at 1. rewrite later_blocks_keys_from by done.
  unfold block_keys. by replace (block_len data b - s) with 0 by lia.
Qed.

(** The keys after the first key of an enumeration are the enumeration
    from the next sentence of that key's block on. *)
Lemma keys_from_tail data b s k rest :
  keys_from data b s = k :: rest → keys_from data k.1 (S k.2) = rest.
Proof.
  remember (length data - b) as n eqn:Hn. revert b s Hn.
  induction n as [|n IH]; intros b s Hn.
  - rewrite keys_from_out_of_range by lia. done.
  - destruct (decide (s < block_len data b)) as [Hs|Hs].
    + rewrite keys_from_unfold, decide_True by done. by intros [= <- <-].
    + rewrite keys_from_exhausted by lia. apply IH. lia.
Qed.

Lemma loop_keys_keys_from data sb ss : loop_keys data sb ss = keys_from data sb ss.
Proof.
  unfold loop_keys, range.
  destruct (decide (sb < length data)) as [Hlt|Hge].
  - replace (length data - sb) with (S (length data - S sb)) by lia.
    simpl. rewrite bool_decide_eq_true_2 by done. unfold keys_from. f_equal.
    apply list_bind_ext_elem. intros b' Hb'%elem_of_seq.
    rewrite bool_decide_eq_false_2 by lia. done.
  - rewrite keys_from_out_of_range by lia.
    replace (length data - sb) with 0 by lia. done.
Qed.

Lemma session_invariant_init data sb ss : session_invariant (init data sb ss).
Proof.
  split.
  - unfold keys_after. simpl. rewrite loop_keys_keys_from.
    rewrite (keys_from_unfold data sb ss). case_decide; auto.
  - unfold produced. simpl. intros k [[? Hk]|[Hk|Hk]]; [|by apply elem_of_nil in Hk|done].
    by rewrite lookup_empty in Hk.
Qed.

(** A step that leaves the worker's loops alone and produces no key
    outside the next 5 after the position preserves the invariant. *)
Lemma session_invariant_update w w' :
  session_invariant w →
  sentence_data w' = sentence_data w →
  _current_playback_position w' = _current_playback_position w →
  unvisited w' = unvisited w →
  (∀ k, produced w' k → produced w k ∨ k ∈ take 5 (keys_after w)) →
  session_invariant w'.
Proof.
  intros [Hloops Hkeys] Hd Hp Hu Hsub. unfold session_invariant, keys_after in *.
  rewrite Hd, Hp, Hu. split; [done|].
  intros k Hk. destruct (Hsub k Hk) as [Hold|Hnew]; [by apply Hkeys|by right].
Qed.

Lemma session_invariant_step st w :
  session_invariant w → session_invariant (interleave_step st w).
Proof.
  intros Hinv. destruct st as [| |audio_path| |]; simpl.
  - (* the read-ahead thread computes its next keys *)
    unfold readahead_pass.
    destruct (sentences_to_buffer w) eqn:Hpending; [|done].
    destruct (synthesizing w) eqn:Hsynth; [done|].
    destruct (_current_playback_position w) as [cb cs] eqn:Hpos.
    apply (session_invariant_update w); [done..|]. unfold produced. simpl.
    rewrite Hsynth. intros k [Hk|[Hk|Hk]]; [by left; left|right|done].
    unfold keys_after. rewrite Hpos. simpl.
    by rewrite get_next_sentences_take, Nat.add_1_r in Hk.
  - (* the read-ahead thread looks at its next key *)
    unfold readahead_check.
    destruct (sentences_to_buffer w) as [|[b s] rest] eqn:Hpending; [done|].
    destruct (synthesizing w) eqn:Hsynth; [done|].
    repeat case_bool_decide;
      apply (session_invariant_update w); try done;
      unfold produced; simpl; rewrite Hpending, ?Hsynth;
      intros k [Hk|[Hk|Hk]]; left; auto using list_elem_of_further.
    injection Hk as Hk. subst k. right. left. left.
  - (* the read-ahead thread stores the audio it has generated *)
    unfold readahead_store. destruct (synthesizing w) as [k0|] eqn:Hsynth; [|done].
    destruct audio_path as [audio_path|];
      apply (session_invariant_update w); try done;
      unfold produced; simpl; rewrite Hsynth;
      intros k [Hk|[Hk|Hk]]; left; try (by auto).
    destruct (decide (k = k0)) as [->|Hne]; [by right; right|left].
    by rewrite lookup_insert_ne in Hk.
  - (* the worker starts its next sentence *)
    unfold start_sentence_step.
    destruct (unvisited w) as [|k rest] eqn:Hunvisited; [done|].
    destruct Hinv as [Hloops Hkeys]. rewrite Hunvisited in Hloops.
    unfold session_invariant, keys_after, produced in *. simpl.
    set (pos := _current_playback_position w) in *.
    set (after := keys_from (sentence_data w) pos.1 (S pos.2)) in *.
    destruct Hloops as [Hafter|Hfirst].
    + (* on to the next sentence *)
      assert (keys_from (sentence_data w) k.1 (S k.2) = rest) as ->
        by (by eapply keys_from_tail).
      assert (key_lt pos k) as Hlt.
      { assert (k ∈ after) as Hin by (rewrite <- Hafter; left).
        apply elem_of_keys_from in Hin as [_ Hle].
        apply key_lt_succ. destruct pos. by rewrite Nat.add_1_r. }
      split; [by left|]. intros x Hx.
      destruct (Hkeys x Hx) as [Hle|Hin].
      * left. right. by eapply key_le_lt_trans.
      * rewrite <- Hafter in Hin. simpl in Hin.
        apply elem_of_cons in Hin as [->|Hin]; [by left; left|right].
        apply elem_of_take in Hin as (i & Hi & ?).
        apply elem_of_take. exists i. split; [done|lia].
    + (* the first sentence of the session *)
      injection Hfirst as -> ->. fold pos. fold after.
      split; [by left|]. done.
  - (* the worker takes the audio of its sentence out of the buffer *)
    unfold fetch_audio_step.
    apply (session_invariant_update w); [done..|]. unfold produced. simpl.
    intros k [[p Hp]|Hk]; left; [left|by right].
    apply lookup_delete_Some in Hp as [_ Hp]. eauto.
Qed.

Lemma session_invariant_interleave sts w :
  session_invariant w → session_invariant (interleave sts w).
Proof.
  unfold interleave. revert w. induction sts as [|st sts IH]; intros w Hw; [done|].
  simpl. apply IH. by apply session_invariant_step.
Qed.

Lemma map_size_keys_le (m : gmap (nat * nat) string) (l : list (nat * nat)) :
  (∀ k, is_Some (m !! k) → k ∈ l) → size m ≤ length l.
Proof.
  intros Hsub. rewrite <- (size_dom (D:=gset (nat * nat))).
  change (length (elements (dom m)) ≤ length l).
  apply submseteq_length, NoDup_submseteq; [apply NoDup_elements|].
  intros k Hk%elem_of_elements%elem_of_dom. by apply Hsub.
Qed.

(** C6, as the code has it: in a session that started with an empty
    buffer, however the worker and its read-ahead thread interleave, the
    buffer holds at most 5 entries ahead of the current playback
    position. *)
Theorem session_buffer_bounded data start_block start_sentence sts :
  size (pending_ahead (interleave sts (init data start_block start_sentence))) ≤ 5.
Proof.
  pose proof (session_invariant_interleave sts _
                (session_invariant_init data start_block start_sentence))
    as [_ Hkeys].
  set (w := interleave sts _) in *.
  trans (length (take 5 (keys_after w))); [|rewrite length_take; lia].
  apply map_size_keys_le. intros k [p Hp].
  unfold pending_ahead in Hp. apply map_lookup_filter_Some in Hp as [Hp Hlt].
  simpl in Hlt. apply bool_decide_unpack in Hlt.
  destruct (Hkeys k) as [Hle|Hin]; [left; by eexists| |done].
  exfalso. destruct Hle as [->|Hlt']; [by apply key_lt_irrefl in Hlt|].
  apply (key_lt_irrefl k). by eapply key_lt_trans.
Qed.

(** C6 as stated fails: immediately after the buffer inheritance of a
    navigation, the new worker's buffer holds 6 entries ahead of its
    playback position (0,1). *)
Lemma inherited_buffer_exceeds_bound :
  (_current_playback_position <$>
     (TTSManager.worker <$> TTSManager.current_thread overfull_manager)) =
    Some (0, 1) ∧
  (size <$> (pending_ahead <$>
     (TTSManager.worker <$> TTSManager.current_thread overfull_manager))) =
    Some 6 ∧
  (dom <$> (pending_ahead <$>
     (TTSManager.worker <$> TTSManager.current_thread overfull_manager))) =
    Some ({[ (0, 2); (1, 1); (1, 2); (1, 3); (1, 4); (1, 5) ]} : gset (nat * nat)).
Proof. split_and!; vm_compute; reflexivity. Qed.

End session.

Section wav.
Import KokoroTTS.

(** ** The WAV header patch *)

Lemma byte_of_Z_value n :
  Z.of_N (Byte.to_N (byte_of_Z n)) = (n `mod` 256)%Z.
Proof.
  unfold byte_of_Z.
  assert (0 ≤ n `mod` 256 < 256)%Z as Hrange by (apply Z.mod_pos_bound; lia).
  destruct (Byte.of_N (Z.to_N (n `mod` 256))) as [b|] eqn:Hb; simpl.
  - apply Byte.to_of_N in Hb. rewrite Hb. lia.
  - apply Byte.of_N_None_iff in Hb. lia.
Qed.

Lemma pack_u32_spec n bs :
  pack_u32 n = Some bs → length bs = 4 ∧ le_value bs = n.
Proof.
  unfold pack_u32. case_bool_decide as Hn; [|done]. intros [= <-].
  split; [done|]. simpl. rewrite !byte_of_Z_value.
  replace (n / 65536)%Z with (n / 256 / 256)%Z
    by (rewrite Z.div_div by lia; done).
  replace (n / 16777216)%Z with (n / 256 / 256 / 256)%Z
    by (rewrite !Z.div_div by lia; done).
  pose proof (Z.div_mod n 256). pose proof (Z.div_mod (n / 256) 256).
  pose proof (Z.div_mod (n / 256 / 256) 256).
  assert (0 ≤ n / 256 / 256 / 256 < 256)%Z.
  { split; [repeat apply Z.div_pos; lia|].
    repeat (apply Z.div_lt_upper_bound; [lia|]). lia. }
  rewrite (Z.mod_small (n / 256 / 256 / 256)) by done. lia.
Qed.

Lemma pack_u32_is_Some n : (0 ≤ n < 2 ^ 32)%Z → is_Some (pack_u32 n).
Proof. intros Hn. unfold pack_u32. rewrite bool_decide_eq_true_2 by done. eauto. Qed.

Lemma pack_u32_None n : (2 ^ 32 ≤ n)%Z → pack_u32 n = None.
Proof. intros Hn. unfold pack_u32. rewrite bool_decide_eq_false_2; [done|lia]. Qed.

Lemma length_write_at pos bs file :
  pos + length bs ≤ length file → length (write_at pos bs file) = length file.
Proof.
  intros H. unfold write_at.
  rewrite !length_app, length_take, length_drop. lia.
Qed.

Lemma lookup_write_at_outside pos bs file i :
  pos ≤ length file → ¬ (pos ≤ i < pos + length bs) →
  write_at pos bs file !! i = file !! i.
Proof.
  intros Hpos Hi. unfold write_at.
  destruct (decide (i < pos)) as [Hlt|Hge].
  - rewrite lookup_app_l by (rewrite length_take; lia).
    by rewrite lookup_take_lt.
  - rewrite lookup_app_r by (rewrite length_take; lia).
    rewrite length_take, Nat.min_l by lia.
    rewrite lookup_app_r by lia. rewrite lookup_drop. f_equal. lia.
Qed.

Lemma read_at_write_at pos n bs file :
  length bs = n → pos ≤ length file →
  read_at pos n (write_at pos bs file) = bs.
Proof.
  intros <- Hpos. unfold read_at, write_at.
  rewrite drop_app_length' by (rewrite length_take; lia).
  by rewrite take_app_length.
Qed.

Lemma read_at_write_at_other pos bs file pos' n :
  pos ≤ length file →
  (pos' + n ≤ pos ∨ pos + length bs ≤ pos') →
  read_at pos' n (write_at pos bs file) = read_at pos' n file.
Proof.
  intros Hpos Hdisj. unfold read_at. apply list_eq. intros i.
  destruct (decide (i < n)) as [Hi|Hi].
  - rewrite !lookup_take_lt, !lookup_drop by done.
    apply lookup_write_at_outside; [done|lia].
  - by rewrite !lookup_take_ge by lia.
Qed.

Lemma scan_unfold file pos :
  scan_for_data_chunk file pos =
  if decide (pos + 8 ≤ length file) then
    if decide (read_at pos 4 file = data_id) then Some pos
    else scan_for_data_chunk file
           (pos + 8 + Z.to_nat (le_value (read_at (pos + 4) 4 file)))
  else None.
Proof.
  rewrite scan_for_data_chunk_equation_1.
  destruct (decide (pos + 8 ≤ length file)); simpl; [|done].
  by destruct (decide (read_at pos 4 file = data_id)).
Qed.

(** The scan started at a chunk header ends like the scan started at
    offset 12. *)
Lemma scan_from_chunk file pos :
  chunk_at file pos →
  scan_for_data_chunk file pos = scan_for_data_chunk file 12.
Proof.
  induction 1 as [|pos Hchunk IH Hlen Hid]; [done|].
  rewrite <- IH, (scan_unfold file pos).
  by rewrite decide_True, decide_False by done.
Qed.

Lemma scan_finds_chunk file pos p :
  chunk_at file pos → scan_for_data_chunk file pos = Some p →
  data_chunk_at file p.
Proof.
  remember (length file - pos) as n eqn:Hn. revert pos Hn.
  induction n as [n IH] using lt_wf_ind. intros pos -> Hchunk.
  rewrite scan_unfold.
  destruct (decide (pos + 8 ≤ length file)) as [Hlen|]; [|done].
  destruct (decide (read_at pos 4 file = data_id)) as [Hid|Hid].
  - by intros [= <-].
  - eapply IH; [|done|by apply chunk_next]. lia.
Qed.

(** The scan finds a data chunk exactly when the file has one, and
    then the one it finds is the only one the chunk structure shows. *)
Lemma scan_spec file p :
  scan_for_data_chunk file 12 = Some p ↔ data_chunk_at file p.
Proof.
  split.
  - apply scan_finds_chunk. constructor.
  - intros (Hchunk & Hlen & Hid). rewrite <- (scan_from_chunk file p Hchunk).
    rewrite scan_unfold. by rewrite !decide_True by done.
Qed.

Lemma header_check file :
  take 4 (read_at 0 12 file) ≠ RIFF ∨ take 4 (drop 8 (read_at 0 12 file)) ≠ WAVE ↔
  ¬ has_riff_wave_header file.
Proof.
  unfold has_riff_wave_header, read_at. rewrite !drop_0.
  rewrite take_take. change (4 `min` 12) with 4.
  change 12 with (8 + 4).
  rewrite <- (take_drop_commute file 4 8), take_take. change (4 `min` 4) with 4.
  split; [intros [?|?] [? ?]; done|].
  intros Hn. destruct (decide (take 4 file = RIFF)); [|by left].
  right. intros ?. by apply Hn.
Qed.

Lemma chunk_at_ge file pos : chunk_at file pos → 12 ≤ pos.
Proof. induction 1; lia. Qed.

(** C10, as the code has it. [ValueError], the file left as it is, when
    the file does not start with a RIFF/WAVE header or when the scan
    finds no data chunk, where the scan is the one of the code: from the
    header at offset 12 it goes from a header at [pos] to
    [pos + 8 + size], without the pad byte of an odd-sized chunk. When
    the scan finds the data chunk and the file size minus 8 fits the
    32-bit field, no exception, and exactly two 4-byte little-endian
    fields are rewritten: the one at offset 4 becomes the file size
    minus 8, the size field of the data chunk becomes the number of
    bytes after the data chunk header; every other byte and the length
    of the file are unchanged. When the file size minus 8 does not fit,
    [struct.error], and nothing is rewritten. *)
Theorem fix_wav_header_spec file :
  (¬ has_riff_wave_header file →
   _fix_wav_header file = (Some (ValueError "Not a valid WAV file"), file)) ∧
  (has_riff_wave_header file → (∀ p, ¬ data_chunk_at file p) →
   _fix_wav_header file = (Some (ValueError "No data chunk found"), file)) ∧
  (∀ p, has_riff_wave_header file → data_chunk_at file p →
     (Z.of_nat (length file) - 8 < 2 ^ 32)%Z →
     ∃ file',
       _fix_wav_header file = (None, file') ∧
       length file' = length file ∧
       le_value (read_at 4 4 file') = (Z.of_nat (length file) - 8)%Z ∧
       le_value (read_at (p + 4) 4 file') =
         (Z.of_nat (length file) - (Z.of_nat p + 8))%Z ∧
       ∀ i, ¬ (4 ≤ i < 8) → ¬ (p + 4 ≤ i < p + 8) → file' !! i = file !! i) ∧
  (∀ p, has_riff_wave_header file → data_chunk_at file p →
     (2 ^ 32 ≤ Z.of_nat (length file) - 8)%Z →
     _fix_wav_header file = (Some StructError, file)).
Proof.
  unfold _fix_wav_header. split_and!.
  - intros Hh. by rewrite bool_decide_eq_true_2 by (by apply header_check).
  - intros Hh Hnone.
    rewrite bool_decide_eq_false_2 by (rewrite header_check; by intros []).
    destruct (scan_for_data_chunk file 12) as [p|] eqn:Hscan; [|done].
    apply scan_spec in Hscan. by destruct (Hnone p).
  - intros p Hh Hdata Hsize.
    rewrite bool_decide_eq_false_2 by (rewrite header_check; by intros []).
    apply scan_spec in Hdata as Hscan. rewrite Hscan.
    destruct Hdata as (Hchunk%chunk_at_ge & Hlen & _).
    destruct (pack_u32_is_Some (Z.of_nat (length file) - 8)) as [b1 Hb1]; [lia|].
    destruct (pack_u32_is_Some (Z.of_nat (length file) - (Z.of_nat p + 8)))
      as [b2 Hb2]; [lia|].
    rewrite Hb1, Hb2.
    apply pack_u32_spec in Hb1 as [Hl1 Hv1]. apply pack_u32_spec in Hb2 as [Hl2 Hv2].
    assert (length (write_at 4 b1 file) = length file) as Hlen1
      by (apply length_write_at; lia).
    eexists. split_and!; [done| | | |].
    + rewrite length_write_at; [done|lia].
    + rewrite read_at_write_at_other by lia.
      rewrite read_at_write_at by lia. done.
    + rewrite read_at_write_at by lia. done.
    + intros i H1 H2. rewrite !lookup_write_at_outside by lia. done.
  - intros p Hh Hdata Hsize.
    rewrite bool_decide_eq_false_2 by (rewrite header_check; by intros []).
    apply scan_spec in Hdata as Hscan. rewrite Hscan.
    by rewrite pack_u32_None by lia.
Qed.

(** [small_wav] has its data chunk at offset 22, after the [fmt ]
    chunk. *)
Lemma small_wav_data_chunk : has_riff_wave_header small_wav ∧ data_chunk_at small_wav 22.
Proof.
  split; [done|]. split_and!; [|simpl; lia|done].
  apply (chunk_next small_wav 12); [constructor|simpl; lia|done].
Qed.

(** The theorem at [small_wav], a file of 33 bytes: the two fields
    become 25 and 3. *)
Lemma fix_wav_header_spec_witness :
  ∃ file',
    _fix_wav_header small_wav = (None, file') ∧
    length file' = length small_wav ∧
    le_value (read_at 4 4 file') = 25%Z ∧
    le_value (read_at 26 4 file') = 3%Z.
Proof.
  destruct (fix_wav_header_spec small_wav) as (_ & _ & Hok & _).
  destruct small_wav_data_chunk as [Hh Hd].
  destruct (Hok 22 Hh Hd) as (file' & Hrun & Hlen & Hriff & Hdata & _);
    [simpl; lia|].
  exists file'. split_and!; [exact Hrun|exact Hlen|exact Hriff|exact Hdata].
Defined.

(** With 2^32 - 12 bytes of samples or more the file size minus 8 no
    longer fits the field. *)
Lemma fix_wav_header_too_long samples :
  (2 ^ 32 ≤ Z.of_nat (length samples) + 12)%Z →
  _fix_wav_header (wav_prefix ++ samples) =
    (Some StructError, wav_prefix ++ samples).
Proof.
  intros Hlong. unfold _fix_wav_header.
  rewrite bool_decide_eq_false_2.
  2:{ unfold read_at. rewrite drop_0. intros [H|H]; by apply H. }
  rewrite scan_unfold.
  rewrite decide_True by (rewrite length_app; simpl; lia).
  rewrite decide_True by done.
  rewrite pack_u32_None; [done|].
  rewrite length_app, Nat2Z.inj_add. simpl length. lia.
Qed.

(** With its data chunk first, a file has the header and a data chunk
    whatever its samples are. *)
Lemma wav_prefix_data_chunk samples :
  has_riff_wave_header (wav_prefix ++ samples) ∧
  data_chunk_at (wav_prefix ++ samples) 12.
Proof.
  split; [done|].
  split_and!; [constructor|rewrite length_app; simpl; lia|done].
Qed.

(** [odd_wav] has its data chunk at offset 22, after the [LIST] chunk of
    size 1 and its pad byte; the chunk holds the last 3 bytes of the
    file. *)
Lemma odd_wav_data_chunk :
  has_riff_wave_header odd_wav ∧ padded_chunk_at odd_wav 22 ∧
  read_at 22 4 odd_wav = data_id ∧
  le_value (read_at 26 4 odd_wav) = 3%Z ∧ length odd_wav = 22 + 8 + 3.
Proof.
  split_and!; [done| |done|done|done].
  apply (padded_chunk_next odd_wav 12); [constructor|simpl; lia|done].
Qed.

(** C10 as stated fails, in two ways. For a file of 4 GiB and more with
    a valid header and a data chunk, [struct.pack] raises
    [struct.error] and nothing is rewritten. And [odd_wav], whose data
    chunk follows an odd-sized chunk and its pad byte, is rejected with
    "No data chunk found": the scan does not skip the pad byte. *)
Lemma fix_wav_header_rejects_wav_files :
  (has_riff_wave_header
     (wav_prefix ++ replicate (Z.to_nat (2 ^ 32)) Byte.x00) ∧
   data_chunk_at (wav_prefix ++ replicate (Z.to_nat (2 ^ 32)) Byte.x00) 12 ∧
   _fix_wav_header (wav_prefix ++ replicate (Z.to_nat (2 ^ 32)) Byte.x00) =
     (Some StructError, wav_prefix ++ replicate (Z.to_nat (2 ^ 32)) Byte.x00)) ∧
  (has_riff_wave_header odd_wav ∧ padded_chunk_at odd_wav 22 ∧
   read_at 22 4 odd_wav = data_id ∧
   _fix_wav_header odd_wav = (Some (ValueError "No data chunk found"), odd_wav)).
Proof.
  split.
  - split; [exact (proj1 (wav_prefix_data_chunk _))|].
    split; [exact (proj2 (wav_prefix_data_chunk _))|].
    apply fix_wav_header_too_long. rewrite length_replicate, Z2Nat.id; lia.
  - destruct odd_wav_data_chunk as (Hh & Hc & Hid & _).
    split; [exact Hh|]. split; [exact Hc|]. split; [exact Hid|].
    vm_compute. reflexivity.
Qed.

End wav.

Section worker_trace.
Import TTSWorker.

(** ** The trace of a run, whatever the environment does *)

Lemma play_calls_cases env audio_path w :
  ∃ calls,
    play_calls audio_path calls ∧
    extends w (_play_audio_file env audio_path w).2
      ((Device <$> calls) ++ [Device (OsRemove audio_path)]) ∧
    ((_play_audio_file env audio_path w).1 = true →
     ∃ n, calls = SdPlay audio_path :: replicate n Sleep10ms).
Proof.
  destruct (play_audio_file_cases env audio_path w) as (calls & Hext & Hcases).
  exists calls. split_and!; [|done|].
  - destruct Hcases as [(-> & _)|[(n & t & _ & -> & _)|(n & _ & -> & _)]];
      [by left|right; exists n; by right|right; exists n; by left].
  - intros Hr.
    destruct Hcases as [(_ & ? & _)|[(n & t & _ & _ & ? & _)|(n & _ & -> & _)]];
      [congruence|congruence|by exists n].
Qed.

Lemma sentence_loop_trace env b sents idxs w :
  let r := sentence_loop env b sents idxs w in
  ∃ n segs,
    n ≤ length idxs ∧
    Forall2 sentence_attempt ((λ s, (b, s)) <$> take n idxs) segs ∧
    extends w r.2 (concat segs) ∧
    (r.1 = Normal → n = length idxs).
Proof.
  revert w. induction idxs as [|i idxs IH]; intros w; simpl.
  { exists 0, []. split_and!; [done|constructor|apply extends_refl|done]. }
  destruct (stop_flag_at env (clock w) || stop_requested_at env (clock w)); simpl.
  { exists 0, []. split_and!; [lia|constructor|apply extends_tick|done]. }
  destruct (sents !! i) as [sentence|]; simpl;
    [|exists 0, []; split_and!; [lia|constructor|apply extends_tick|done]].
  set (w3 := record (Emit (SentenceStarted b i)) (set_position (b, i) (tick w))).
  assert (extends w w3 [Emit (SentenceStarted b i)]) as H3
    by apply extends_start_sentence.
  pose proof (extends_get_audio env b i sentence w3) as H4.
  destruct (_get_audio_for_sentence env b i sentence w3) as [audio w4].
  simpl in H4.
  assert (extends w w4 [Emit (SentenceStarted b i)]) as H4'
    by (eapply extends_step; [exact H3|exact H4|by rewrite app_nil_r]).
  destruct audio as [audio_path|]; simpl.
  2:{ exists 1, [[Emit (SentenceStarted b i)]]. simpl. rewrite ?take_0.
      split_and!; [lia| |done|done]. constructor; [by left|constructor]. }
  destruct (play_calls_cases env audio_path w4) as (calls & Hcalls & H5 & _).
  destruct (_play_audio_file env audio_path w4) as [result w5]. simpl in *.
  set (seg := Emit (SentenceStarted b i) ::
              (Device <$> calls) ++ [Device (OsRemove audio_path)]).
  assert (sentence_attempt (b, i) seg) as Hseg
    by (right; by exists audio_path, calls).
  assert (extends w w5 seg) as H5'
    by (eapply extends_step; [exact H4'|exact H5|done]).
  assert (Forall2 sentence_attempt ((λ s, (b, s)) <$> take 1 (i :: idxs)) [seg] ∧
          concat [seg] = seg) as [Hone Hconcat].
  { simpl. rewrite ?take_0, app_nil_r. split; [|done].
    constructor; [done|constructor]. }
  destruct result; simpl;
    [|exists 1, [seg]; rewrite Hconcat; split_and!; [lia|done|done|done]].
  destruct (stop_flag_at env (clock w5) || stop_requested_at env (clock w5)); simpl.
  { exists 1, [seg]. rewrite Hconcat. split_and!; [lia|done| |done].
    eapply extends_step; [exact H5'|apply extends_tick|by rewrite app_nil_r]. }
  destruct (IH (tick w5)) as (n & segs & Hn & Hsegs & Hext & Hnormal).
  exists (S n), (seg :: segs). split_and!.
  - lia.
  - simpl. by constructor.
  - eapply extends_step; [exact H5'| |done].
    eapply extends_step; [apply extends_tick|exact Hext|done].
  - intros Hflow. by rewrite (Hnormal Hflow).
Qed.

Lemma block_keys_range data b blk s :
  data !! b = Some blk →
  block_keys data b s = (λ i, (b, i)) <$> range s (length (sentences blk)).
Proof. intros Hblk. unfold block_keys, range. by rewrite (block_len_lookup _ _ _ Hblk). Qed.

Lemma block_loop_trace env data l w :
  (start_sentence w = 0 ∨ ∀ i b, l !! i = Some b → b = start_block w → i = 0) →
  let r := block_loop env data l w in
  ∃ n segs,
    Forall2 sentence_attempt
      (take n (b ← l; block_keys data b (start_of w b))) segs ∧
    extends w r.2 (concat segs).
Proof.
  revert w. induction l as [|b l IH]; intros w Hstart; simpl.
  { exists 0, []. split; [constructor|apply extends_refl]. }
  assert (∀ b', b' ∈ l → start_of w b' = 0) as Hlater.
  { intros b' [i Hi]%list_elem_of_lookup. unfold start_of. case_bool_decide; [|done].
    destruct Hstart as [?|Hstart]; [done|].
    by specialize (Hstart (S i) b' Hi ltac:(done)). }
  destruct (stop_flag_at env (clock w) || stop_requested_at env (clock w)); simpl.
  { exists 0, []. rewrite ?take_0. split; [constructor|apply extends_tick]. }
  destruct (data !! b) as [blk|] eqn:Hblk; simpl;
    [|exists 0, []; rewrite ?take_0; split; [constructor|apply extends_tick]].
  rewrite ?bind_cons.
  case_bool_decide as Hempty.
  - (* an empty block is skipped *)
    destruct (IH (tick w)) as (n & segs & Hsegs & Hext).
    { destruct Hstart as [?|Hstart]; [by left|right].
      intros i b' Hi ?. by specialize (Hstart (S i) b' Hi ltac:(done)). }
    exists n, segs. split.
    + replace (block_keys data b (start_of w b)) with (@nil (nat * nat)); [done|].
      unfold block_keys. rewrite (block_len_lookup _ _ _ Hblk), Hempty. done.
    + eapply extends_step; [apply extends_tick|exact Hext|done].
  - (* the sentences of the block *)
    set (w1 := tick w).
    pose proof (sentence_loop_trace env b (sentences blk)
                  (range (start_of w b) (length (sentences blk))) w1)
      as (n1 & segs1 & Hn1 & Hsegs1 & Hext1 & Hnormal1).
    change (if bool_decide (b = start_block w) then start_sentence w else 0)
      with (start_of w b).
    destruct (sentence_loop env b (sentences blk)
                (range (start_of w b) (length (sentences blk))) w1)
      as [flow w2].
    simpl in *.
    rewrite (block_keys_range _ _ _ _ Hblk).
    set (K := range (start_of w b) (length (sentences blk))) in *.
    set (rest := l ≫= λ b', block_keys data b' (start_of w b')).
    assert (extends w w2 (concat segs1)) as Hext2
      by (eapply extends_step; [apply extends_tick|exact Hext1|done]).
    assert (Forall2 sentence_attempt
              (take n1 (((λ i, (b, i)) <$> K) ++ rest)) segs1) as Hpart.
    { rewrite take_app_le by (rewrite length_fmap; lia). by rewrite <- fmap_take. }
    destruct flow; try (exists n1, segs1; split; done).
    specialize (Hnormal1 eq_refl). subst n1. rewrite firstn_all in Hsegs1.
    destruct (stop_flag_at env (clock w2) || stop_requested_at env (clock w2)); simpl.
    { exists (length K), segs1. split; [done|].
      eapply extends_step;
        [exact Hext2|apply extends_reset_start_sentence|by rewrite app_nil_r]. }
    destruct (IH (tick (set_start_sentence 0 w2)))
      as (n & segs & Hsegs & Hext); [by left|].
    exists (length K + n), (segs1 ++ segs). split.
    + rewrite take_app, length_fmap.
      rewrite take_ge by (rewrite length_fmap; lia).
      replace (length K + n - length K) with n by lia.
      apply Forall2_app; [done|].
      erewrite list_bind_ext_elem in Hsegs; [exact Hsegs|].
      intros b' Hb'. simpl. rewrite (Hlater b' Hb'). f_equal.
      unfold start_of. simpl. by case_bool_decide.
    + rewrite concat_app. eapply extends_step; [exact Hext2| |done].
      eapply extends_step; [apply extends_reset_start_sentence|exact Hext|done].
Qed.

(** What the body of [run] has done when it ends: it has started a
    prefix of the sentences from the start position on, in document
    order, and may then have emitted [finished]; it never raises. *)
Lemma run_body_trace env data sb ss buffer :
  let r := run_body env (set_buffer buffer (init data sb ss)) in
  (∀ message, r.1 ≠ Raise message) ∧
  ∃ n segs,
    Forall2 sentence_attempt (take n (keys_from data sb ss)) segs ∧
    (events r.2 = concat segs ∨ events r.2 = concat segs ++ [Emit Finished]).
Proof.
  intros r. subst r. set (w0 := set_buffer buffer (init data sb ss)).
  unfold run_body. change (sentence_data w0) with data.
  change (start_block w0) with sb.
  pose proof (block_loop_no_raise env data (range sb (length data)) w0) as Hraise.
  destruct (block_loop_trace env data (range sb (length data)) w0)
    as (n & segs & Hsegs & Hext).
  { right. intros i b. apply range_start_first. }
  apply extends_events in Hext. change (events w0) with (@nil Event) in Hext.
  simpl in Hext. rewrite <- loop_keys_keys_from.
  destruct (block_loop env data (range sb (length data)) w0) as [flow w1].
  simpl in *.
  assert (∀ message, flow ≠ Raise message) as Hflow.
  { intros message. apply Hraise. intros b Hb. unfold range in Hb.
    apply elem_of_seq in Hb. lia. }
  destruct flow; simpl.
  - destruct (stop_flag_at env (clock w1) || stop_requested_at env (clock w1));
      simpl; (split; [done|]); exists n, segs; (split; [exact Hsegs|]);
      rewrite Hext; auto.
  - destruct (stop_flag_at env (clock w1) || stop_requested_at env (clock w1));
      simpl; (split; [done|]); exists n, segs; (split; [exact Hsegs|]);
      rewrite Hext; auto.
  - split; [done|]. exists n, segs. split; [exact Hsegs|]. by left.
  - by destruct (Hflow message).
Qed.

Lemma omap_signals_devices (calls : list DeviceCall) :
  omap (λ e, match e with Emit s => Some s | Device _ => None end)
    (Device <$> calls) = [].
Proof. induction calls as [|c calls IH]; simpl; [done|exact IH]. Qed.

Lemma omap_devices (calls : list DeviceCall) :
  omap (λ e, match e with Device c => Some c | Emit _ => None end)
    (Device <$> calls) = calls.
Proof. induction calls as [|c calls IH]; simpl; [done|by f_equal]. Qed.

Lemma signals_sentence_attempts keys segs :
  Forall2 sentence_attempt keys segs →
  omap (λ e, match e with Emit s => Some s | Device _ => None end) (concat segs) =
  (λ k, SentenceStarted k.1 k.2) <$> keys.
Proof.
  induction 1 as [|k seg keys segs Hseg _ IH]; simpl; [done|].
  rewrite omap_app, IH.
  destruct Hseg as [->|(p & calls & _ & ->)]; simpl; [done|].
  f_equal. rewrite omap_app, omap_signals_devices. done.
Qed.

Lemma run_flow_events env w :
  (∀ message, (run_body env w).1 ≠ Raise message) →
  run env w = _cleanup_audio_buffer (run_body env w).2.
Proof.
  unfold run. destruct (run_body env w) as [flow w1]. simpl. intros Hflow.
  destruct flow; try done. by destruct (Hflow message).
Qed.

(** ** Every played file is removed *)

Lemma played_files_removed_app l1 l2 :
  played_files_removed l1 → played_files_removed l2 →
  played_files_removed (l1 ++ l2).
Proof.
  intros H1 H2 i p Hi. apply lookup_app_Some in Hi as [Hi|[Hge Hi]].
  - destruct (H1 i p Hi) as (j & ? & Hj). exists j. split; [done|].
    by apply lookup_app_l_Some.
  - destruct (H2 _ p Hi) as (j & ? & Hj). exists (length l1 + j). split; [lia|].
    rewrite lookup_app_r by lia. rewrite <- Hj. f_equal. lia.
Qed.

Lemma played_files_removed_no_play l :
  (∀ p, SdPlay p ∉ l) → played_files_removed l.
Proof. intros Hno i p Hi. destruct (Hno p). by eapply list_elem_of_lookup_2. Qed.

Lemma played_files_removed_play p mid :
  (∀ q, SdPlay q ∉ mid) →
  played_files_removed (SdPlay p :: mid ++ [OsRemove p]).
Proof.
  intros Hno i q Hi. destruct i as [|i].
  - injection Hi as <-. exists (S (length mid)). split; [lia|]. simpl.
    rewrite lookup_app_r by lia. by rewrite Nat.sub_diag.
  - simpl in Hi. apply lookup_app_Some in Hi as [Hi|[_ Hi]].
    + destruct (Hno q). by eapply list_elem_of_lookup_2.
    + apply list_elem_of_lookup_2 in Hi. apply list_elem_of_singleton in Hi. done.
Qed.

Lemma played_files_removed_attempt k seg :
  sentence_attempt k seg →
  played_files_removed
    (omap (λ e, match e with Device c => Some c | Emit _ => None end) seg).
Proof.
  intros [->|(p & calls & Hcalls & ->)]; simpl.
  { by apply played_files_removed_no_play; intros q Hq%elem_of_nil. }
  rewrite omap_app, omap_devices. simpl.
  destruct Hcalls as [->|(n & [->| ->])]; simpl.
  - apply played_files_removed_no_play. intros q Hq%list_elem_of_singleton. done.
  - apply played_files_removed_play. intros q [Hq _]%elem_of_replicate. done.
  - rewrite <- app_assoc. simpl.
    change (replicate n Sleep10ms ++ [SdStop; OsRemove p])
      with (replicate n Sleep10ms ++ [SdStop] ++ [OsRemove p]).
    rewrite app_assoc. apply played_files_removed_play.
    intros q [[Hq _]%elem_of_replicate|Hq%list_elem_of_singleton]%elem_of_app; done.
Qed.

Lemma played_files_removed_attempts keys segs :
  Forall2 sentence_attempt keys segs →
  played_files_removed
    (omap (λ e, match e with Device c => Some c | Emit _ => None end)
       (concat segs)).
Proof.
  induction 1 as [|k seg keys segs Hseg _ IH]; simpl.
  { by apply played_files_removed_no_play; intros q Hq%elem_of_nil. }
  rewrite omap_app. apply played_files_removed_app; [|done].
  by eapply played_files_removed_attempt.
Qed.

Lemma device_calls_cleanup w :
  device_calls (_cleanup_audio_buffer w) =
  device_calls w ++ (OsRemove <$> reverse (map_to_list (_audio_buffer w)).*2).
Proof.
  unfold _cleanup_audio_buffer, device_calls. simpl.
  induction (map_to_list (_audio_buffer w)) as [|kv l IH]; simpl.
  { by rewrite app_nil_r. }
  rewrite omap_app, IH. simpl. rewrite reverse_cons, fmap_app, app_assoc. done.
Qed.


(** X1: whatever the environment does, the signals of a run are
    [sentence_started] for the first [n] sentences from the start
    position on, in document order, none skipped and none repeated,
    followed by at most one [finished]; no other signal is emitted. *)
Theorem run_starts_sentences_in_order env data sb ss buffer :
  let w := run env (set_buffer buffer (init data sb ss)) in
  ∃ n,
    let started :=
      (λ k, SentenceStarted k.1 k.2) <$> take n (keys_from data sb ss) in
    signals w = started ∨ signals w = started ++ [Finished].
Proof.
  intros w. subst w.
  destruct (run_body_trace env data sb ss buffer) as (Hflow & n & segs & Hsegs & Hev).
  exists n. simpl. rewrite (run_flow_events _ _ Hflow), signals_cleanup.
  unfold signals.
  destruct Hev as [->| ->]; [left|right]; rewrite ?omap_app;
    by rewrite (signals_sentence_attempts _ _ Hsegs).
Qed.

(** X2: among the device calls of a run, every [sd.play] of a file is
    followed by the clean-up of that file, [OsRemove]: the [os.remove]
    of the [finally] clause, made when the file still exists. *)
Theorem run_removes_played_files env data sb ss buffer :
  played_files_removed
    (device_calls (run env (set_buffer buffer (init data sb ss)))).
Proof.
  destruct (run_body_trace env data sb ss buffer) as (Hflow & n & segs & Hsegs & Hev).
  rewrite (run_flow_events _ _ Hflow), device_calls_cleanup.
  apply played_files_removed_app.
  - unfold device_calls.
    destruct Hev as [->| ->]; rewrite ?omap_app; simpl; rewrite ?app_nil_r;
      by apply (played_files_removed_attempts (take n (keys_from data sb ss))).
  - apply played_files_removed_no_play.
    intros p (q & ? & _)%list_elem_of_fmap. done.
Qed.

(** The theorem at the run of [hello_document] in [quiet_env]: the first
    device call plays /tmp/audio.wav, and a later call removes it. *)
Lemma run_removes_played_files_witness :
  TTSWorker.device_calls
    (TTSWorker.run quiet_env
       (TTSWorker.set_buffer ∅ (TTSWorker.init hello_document 0 0))) !! 0 =
    Some (TTSWorker.SdPlay "/tmp/audio.wav") ∧
  ∃ j, 0 < j ∧
    TTSWorker.device_calls
      (TTSWorker.run quiet_env
         (TTSWorker.set_buffer ∅ (TTSWorker.init hello_document 0 0))) !! j =
      Some (TTSWorker.OsRemove "/tmp/audio.wav").
Proof.
  assert (TTSWorker.device_calls
            (TTSWorker.run quiet_env
               (TTSWorker.set_buffer ∅ (TTSWorker.init hello_document 0 0))) !! 0 =
          Some (TTSWorker.SdPlay "/tmp/audio.wav")) as Hplay
    by (vm_compute; reflexivity).
  split; [exact Hplay|].
  exact (run_removes_played_files quiet_env hello_document 0 0 ∅ 0
           "/tmp/audio.wav" Hplay).
Defined.

(** ** An undisturbed run *)

Lemma undisturbed_no_stop env t :
  undisturbed env → stop_flag_at env t || stop_requested_at env t = false.
Proof. intros (Hstop & _). by destruct (Hstop t) as [-> ->]. Qed.

Lemma get_audio_undisturbed env b s sentence w :
  undisturbed env → is_Some (_get_audio_for_sentence env b s sentence w).1.
Proof.
  intros (_ & Hgen & _). unfold _get_audio_for_sentence.
  destruct (readahead_effect env (clock w) (_audio_buffer w) !! (b, s)); simpl;
    [by eexists|apply Hgen].
Qed.

Lemma play_audio_file_undisturbed env audio_path w :
  undisturbed env → (_play_audio_file env audio_path w).1 = true.
Proof.
  intros Henv. pose proof Henv as (_ & _ & Hfile).
  destruct (Hfile audio_path) as [Hread Hdev].
  unfold _play_audio_file, stop_seen. rewrite Hread, Hdev. simpl.
  rewrite (undisturbed_no_stop _ _ Henv). simpl.
  by rewrite (undisturbed_no_stop _ _ Henv).
Qed.

Lemma sentence_loop_undisturbed env b sents idxs w :
  undisturbed env → (∀ i, i ∈ idxs → i < length sents) →
  (sentence_loop env b sents idxs w).1 = Normal.
Proof.
  intros Henv. revert w. induction idxs as [|i idxs IH]; intros w Hrange; simpl;
    [done|].
  rewrite (undisturbed_no_stop _ _ Henv). simpl.
  destruct (sents !! i) as [sentence|] eqn:Hi.
  2:{ apply lookup_ge_None_1 in Hi. specialize (Hrange i ltac:(left)). lia. }
  match goal with
  | |- context [_get_audio_for_sentence env b i sentence ?w3] =>
      pose proof (get_audio_undisturbed env b i sentence w3 Henv) as [p Hp];
      destruct (_get_audio_for_sentence env b i sentence w3) as [audio w4]
  end.
  simpl in Hp. subst audio.
  pose proof (play_audio_file_undisturbed env p w4 Henv) as Hplay.
  destruct (_play_audio_file env p w4) as [result w5]. simpl in Hplay. subst result.
  simpl. rewrite (undisturbed_no_stop _ _ Henv). simpl.
  apply IH. intros j Hj. apply Hrange. by right.
Qed.

Lemma block_loop_undisturbed env data l w :
  undisturbed env → (∀ b, b ∈ l → b < length data) →
  (block_loop env data l w).1 = Normal.
Proof.
  intros Henv. revert w. induction l as [|b l IH]; intros w Hrange; simpl; [done|].
  assert (∀ b', b' ∈ l → b' < length data) as Hrange'
    by (intros b' ?; apply Hrange; by right).
  rewrite (undisturbed_no_stop _ _ Henv). simpl.
  destruct (data !! b) as [blk|] eqn:Hb.
  2:{ apply lookup_ge_None_1 in Hb. specialize (Hrange b ltac:(left)). lia. }
  case_bool_decide; [by apply IH|].
  match goal with
  | |- context [sentence_loop env b ?ss ?idxs ?w1] =>
      pose proof (sentence_loop_undisturbed env b ss idxs w1 Henv) as Hinner;
      destruct (sentence_loop env b ss idxs w1) as [flow w2]
  end.
  simpl in Hinner. rewrite Hinner.
  2:{ intros i Hi. unfold range in Hi. apply elem_of_seq in Hi. lia. }
  simpl. rewrite (undisturbed_no_stop _ _ Henv). simpl. by apply IH.
Qed.

Lemma undisturbed_run_body env data sb ss buffer :
  undisturbed env →
  let w0 := set_buffer buffer (init data sb ss) in
  ∃ segs,
    Forall2 sentence_segment (keys_from data sb ss) segs ∧
    (run_body env w0).1 = Normal ∧
    events (run_body env w0).2 = concat segs ++ [Emit Finished].
Proof.
  intros Henv w0. unfold run_body. change (sentence_data w0) with data.
  change (start_block w0) with sb.
  pose proof (block_loop_undisturbed env data (range sb (length data)) w0 Henv)
    as Hnormal.
  destruct (block_loop_spec env data (range sb (length data)) w0)
    as (new & Hext & _ & _ & Hsegs).
  { right. intros i b. apply range_start_first. }
  apply extends_events in Hext. change (events w0) with (@nil Event) in Hext.
  simpl in Hext.
  destruct (block_loop env data (range sb (length data)) w0) as [flow w1].
  simpl in *.
  assert (flow = Normal) as ->.
  { apply Hnormal. intros b Hb. unfold range in Hb. apply elem_of_seq in Hb. lia. }
  destruct (Hsegs eq_refl) as (segs & Hsegs' & ->).
  rewrite (undisturbed_no_stop _ _ Henv). simpl.
  exists segs. rewrite <- loop_keys_keys_from. split_and!; [done|done|].
  by rewrite Hext.
Qed.

Lemma undisturbed_signals env data sb ss buffer :
  undisturbed env →
  signals (run env (set_buffer buffer (init data sb ss))) =
    ((λ k, SentenceStarted k.1 k.2) <$> keys_from data sb ss) ++ [Finished].
Proof.
  intros Henv.
  destruct (undisturbed_run_body env data sb ss buffer Henv)
    as (segs & Hsegs & Hflow & Hev).
  rewrite run_flow_events by (rewrite Hflow; done).
  rewrite signals_cleanup. unfold signals. rewrite Hev, omap_app.
  by rewrite (omap_sentence_segments _ _ Hsegs).
Qed.

Lemma wait_for_playback_undisturbed env polls w :
  undisturbed env →
  extends w (wait_for_playback env polls w) (replicate polls (Device Sleep10ms)).
Proof.
  intros Henv. revert w. induction polls as [|polls IH]; intros w; simpl.
  - apply extends_refl.
  - rewrite (undisturbed_no_stop _ _ Henv).
    eapply extends_step; [apply extends_tick_record|apply IH|done].
Qed.

Lemma play_audio_file_undisturbed_trace env audio_path w :
  undisturbed env →
  extends w (_play_audio_file env audio_path w).2
    (Device (SdPlay audio_path) ::
     replicate (stream_active_polls env audio_path) (Device Sleep10ms) ++
     [Device (OsRemove audio_path)]).
Proof.
  intros Henv. pose proof Henv as (_ & _ & Hfile).
  destruct (Hfile audio_path) as [Hread Hdev].
  unfold _play_audio_file, stop_seen. rewrite Hread, Hdev. simpl.
  rewrite (undisturbed_no_stop _ _ Henv). simpl.
  rewrite (undisturbed_no_stop _ _ Henv). simpl.
  eapply extends_step; [apply extends_tick_record| |done].
  eapply extends_step;
    [by apply wait_for_playback_undisturbed|apply extends_tick_record|done].
Qed.

Lemma sentence_loop_played env b sents idxs w :
  undisturbed env → (∀ i, i ∈ idxs → i < length sents) →
  ∃ segs,
    Forall2 (played_to_the_end env) ((λ s, (b, s)) <$> idxs) segs ∧
    extends w (sentence_loop env b sents idxs w).2 (concat segs).
Proof.
  intros Henv. revert w. induction idxs as [|i idxs IH]; intros w Hrange; simpl.
  { exists []. split; [constructor|apply extends_refl]. }
  rewrite (undisturbed_no_stop _ _ Henv). simpl.
  destruct (sents !! i) as [sentence|] eqn:Hi.
  2:{ apply lookup_ge_None_1 in Hi. specialize (Hrange i ltac:(left)). lia. }
  set (w3 := record (Emit (SentenceStarted b i)) (set_position (b, i) (tick w))).
  assert (extends w w3 [Emit (SentenceStarted b i)]) as H3
    by apply extends_start_sentence.
  pose proof (extends_get_audio env b i sentence w3) as H4.
  pose proof (get_audio_undisturbed env b i sentence w3 Henv) as [p Hp].
  destruct (_get_audio_for_sentence env b i sentence w3) as [audio w4].
  simpl in Hp, H4. subst audio.
  pose proof (play_audio_file_undisturbed env p w4 Henv) as Hplay.
  pose proof (play_audio_file_undisturbed_trace env p w4 Henv) as H5.
  destruct (_play_audio_file env p w4) as [result w5]. simpl in Hplay, H5.
  subst result. simpl. rewrite (undisturbed_no_stop _ _ Henv). simpl.
  destruct (IH (tick w5)) as (segs & Hsegs & Hext).
  { intros j Hj. apply Hrange. by right. }
  eexists (_ :: segs). split.
  - constructor; [by exists p|exact Hsegs].
  - simpl.
    eapply extends_step; [exact H3| |done].
    eapply extends_step; [exact H4| |done].
    eapply extends_step; [exact H5| |].
    + eapply extends_step; [apply extends_tick|exact Hext|done].
    + simpl. by rewrite <- !app_assoc.
Qed.

Lemma block_loop_played env data l w :
  undisturbed env → (∀ b, b ∈ l → b < length data) →
  (start_sentence w = 0 ∨ ∀ i b, l !! i = Some b → b = start_block w → i = 0) →
  ∃ segs,
    Forall2 (played_to_the_end env) (b ← l; block_keys data b (start_of w b)) segs ∧
    extends w (block_loop env data l w).2 (concat segs).
Proof.
  intros Henv. revert w. induction l as [|b l IH]; intros w Hrange Hstart; simpl.
  { exists []. split; [constructor|apply extends_refl]. }
  assert (∀ b', b' ∈ l → b' < length data) as Hrange'
    by (intros b' ?; apply Hrange; by right).
  assert (∀ b', b' ∈ l → start_of w b' = 0) as Hlater.
  { intros b' [i Hi]%list_elem_of_lookup. unfold start_of. case_bool_decide; [|done].
    destruct Hstart as [?|Hstart]; [done|].
    by specialize (Hstart (S i) b' Hi ltac:(done)). }
  rewrite (undisturbed_no_stop _ _ Henv). simpl.
  destruct (data !! b) as [blk|] eqn:Hblk.
  2:{ apply lookup_ge_None_1 in Hblk. specialize (Hrange b ltac:(left)). lia. }
  case_bool_decide as Hempty.
  - destruct (IH (tick w) Hrange') as (segs & Hsegs & Hext).
    { destruct Hstart as [?|Hstart]; [by left|right].
      intros i b' Hi ?. by specialize (Hstart (S i) b' Hi ltac:(done)). }
    exists segs. split.
    + replace (block_keys data b (start_of w b)) with (@nil (nat * nat)).
      * exact Hsegs.
      * unfold block_keys. rewrite (block_len_lookup _ _ _ Hblk), Hempty. done.
    + eapply extends_step; [apply extends_tick|exact Hext|done].
  - set (w1 := tick w).
    change (if bool_decide (b = start_block w) then start_sentence w else 0)
      with (start_of w b).
    destruct (sentence_loop_played env b (sentences blk)
                (range (start_of w b) (length (sentences blk))) w1 Henv)
      as (segs1 & Hsegs1 & Hext1).
    { intros i Hi. unfold range in Hi. apply elem_of_seq in Hi. lia. }
    pose proof (sentence_loop_undisturbed env b (sentences blk)
                  (range (start_of w b) (length (sentences blk))) w1 Henv)
      as Hnormal.
    destruct (sentence_loop env b (sentences blk)
                (range (start_of w b) (length (sentences blk))) w1)
      as [flow w2].
    simpl in Hnormal, Hext1.
    assert (flow = Normal) as ->.
    { apply Hnormal. intros i Hi. unfold range in Hi. apply elem_of_seq in Hi. lia. }
    simpl. rewrite (undisturbed_no_stop _ _ Henv). simpl.
    destruct (IH (tick (set_start_sentence 0 w2)) Hrange')
      as (segs & Hsegs & Hext); [by left|].
    exists (segs1 ++ segs). split.
    + apply Forall2_app.
      * unfold block_keys. rewrite (block_len_lookup _ _ _ Hblk). exact Hsegs1.
      * erewrite list_bind_ext_elem; [exact Hsegs|].
        intros b' Hb'. simpl. rewrite (Hlater b' Hb'). f_equal.
        unfold start_of. simpl. by case_bool_decide.
    + rewrite concat_app.
      eapply extends_step; [apply extends_tick| |done].
      eapply extends_step; [exact Hext1| |done].
      eapply extends_step; [apply extends_reset_start_sentence|exact Hext|done].
Qed.

Lemma undisturbed_run_body_played env data sb ss buffer :
  undisturbed env →
  let w0 := set_buffer buffer (init data sb ss) in
  ∃ segs,
    Forall2 (played_to_the_end env) (keys_from data sb ss) segs ∧
    events (run_body env w0).2 = concat segs ++ [Emit Finished].
Proof.
  intros Henv w0. unfold run_body. change (sentence_data w0) with data.
  change (start_block w0) with sb.
  pose proof (block_loop_undisturbed env data (range sb (length data)) w0 Henv)
    as Hnormal.
  destruct (block_loop_played env data (range sb (length data)) w0 Henv)
    as (segs & Hsegs & Hext).
  { intros b Hb. unfold range in Hb. apply elem_of_seq in Hb. lia. }
  { right. intros i b. apply range_start_first. }
  apply extends_events in Hext. change (events w0) with (@nil Event) in Hext.
  simpl in Hext.
  destruct (block_loop env data (range sb (length data)) w0) as [flow w1].
  simpl in *.
  assert (flow = Normal) as ->.
  { apply Hnormal. intros b Hb. unfold range in Hb. apply elem_of_seq in Hb. lia. }
  rewrite (undisturbed_no_stop _ _ Henv). simpl.
  exists segs. rewrite <- loop_keys_keys_from. split; [done|]. by rewrite Hext.
Qed.

(** X3: in an environment where no stop is requested, every synthesis
    call yields a file and every file can be read and played, a run
    starts every sentence from the start position to the end of the
    document, in order, plays each one to the end (it sleeps for every
    poll for which the stream of the file is active, and issues no
    device stop), removes the file, and then emits [finished]. *)
Theorem undisturbed_run_speaks_everything env data sb ss buffer :
  undisturbed env →
  let w0 := set_buffer buffer (init data sb ss) in
  signals (run env w0) =
    ((λ k, SentenceStarted k.1 k.2) <$> keys_from data sb ss) ++ [Finished] ∧
  ∃ segs,
    Forall2 (played_to_the_end env) (keys_from data sb ss) segs ∧
    events (run_body env w0).2 = concat segs ++ [Emit Finished].
Proof.
  intros Henv w0. split; [by apply undisturbed_signals|].
  by apply undisturbed_run_body_played.
Qed.

Lemma quiet_env_undisturbed : undisturbed quiet_env.
Proof. split_and!; intros; simpl; eauto. Qed.

(** The theorem at the run of [hello_document] in [quiet_env], where
    every file plays for two polls. *)
Lemma undisturbed_run_speaks_everything_witness :
  undisturbed quiet_env ∧
  signals (run quiet_env (set_buffer ∅ (init hello_document 0 0))) =
    [SentenceStarted 0 0; SentenceStarted 0 1; Finished] ∧
  ∃ segs,
    Forall2 (played_to_the_end quiet_env) [(0, 0); (0, 1)] segs ∧
    device_calls (run_body quiet_env (set_buffer ∅ (init hello_document 0 0))).2 =
      [SdPlay "/tmp/audio.wav"; Sleep10ms; Sleep10ms; OsRemove "/tmp/audio.wav";
       SdPlay "/tmp/audio.wav"; Sleep10ms; Sleep10ms; OsRemove "/tmp/audio.wav"].
Proof.
  split; [exact quiet_env_undisturbed|].
  destruct (undisturbed_run_speaks_everything quiet_env hello_document 0 0 ∅
              quiet_env_undisturbed) as (Hsig & segs & Hsegs & Hev).
  split; [exact Hsig|]. exists segs. split; [exact Hsegs|].
  vm_compute. reflexivity.
Defined.

(** ** The keys the read-ahead thread buffers *)

Lemma interleave_step_sentence_data st w :
  sentence_data (interleave_step st w) = sentence_data w.
Proof.
  destruct st as [| |audio_path| |]; simpl.
  - unfold readahead_pass. destruct (sentences_to_buffer w); [|done].
    destruct (synthesizing w); [done|].
    by destruct (_current_playback_position w).
  - unfold readahead_check.
    destruct (sentences_to_buffer w) as [|[b s] rest]; [done|].
    destruct (synthesizing w); [done|]. by repeat case_bool_decide.
  - unfold readahead_store. destruct (synthesizing w); [|done].
    by destruct audio_path.
  - unfold start_sentence_step. by destruct (unvisited w).
  - done.
Qed.

Lemma produced_valid_update w w' :
  produced_valid w →
  sentence_data w' = sentence_data w →
  (∀ k, produced w' k → produced w k ∨ valid_key (sentence_data w) k) →
  produced_valid w'.
Proof.
  intros Hw Hd Hsub k Hk. rewrite Hd.
  destruct (Hsub k Hk) as [?|?]; [by apply Hw|done].
Qed.

Lemma produced_valid_step st w :
  produced_valid w → produced_valid (interleave_step st w).
Proof.
  intros Hinv. destruct st as [| |audio_path| |]; simpl.
  - unfold readahead_pass.
    destruct (sentences_to_buffer w) eqn:Hpending; [|done].
    destruct (synthesizing w) eqn:Hsynth; [done|].
    destruct (_current_playback_position w) as [cb cs] eqn:Hpos.
    apply (produced_valid_update w); [done..|]. unfold produced. simpl.
    rewrite Hsynth. intros k [Hk|[Hk|Hk]]; [by left; left|right|done].
    rewrite get_next_sentences_take in Hk. apply subseteq_take in Hk.
    by apply elem_of_keys_from in Hk as [? _].
  - unfold readahead_check.
    destruct (sentences_to_buffer w) as [|[b s] rest] eqn:Hpending; [done|].
    destruct (synthesizing w) eqn:Hsynth; [done|].
    repeat case_bool_decide;
      apply (produced_valid_update w); try done;
      unfold produced; simpl; rewrite Hpending, ?Hsynth;
      intros k [Hk|[Hk|Hk]]; left; auto using list_elem_of_further.
    injection Hk as Hk. subst k. right. left. left.
  - unfold readahead_store. destruct (synthesizing w) as [k0|] eqn:Hsynth; [|done].
    destruct audio_path as [audio_path|];
      apply (produced_valid_update w); try done;
      unfold produced; simpl; rewrite Hsynth;
      intros k [Hk|[Hk|Hk]]; left; try (by auto).
    destruct (decide (k = k0)) as [->|Hne]; [by right; right|left].
    by rewrite lookup_insert_ne in Hk.
  - unfold start_sentence_step.
    destruct (unvisited w) as [|k rest] eqn:Hunvisited; [done|].
    apply (produced_valid_update w); [done..|]. auto.
  - unfold fetch_audio_step.
    apply (produced_valid_update w); [done..|]. unfold produced. simpl.
    intros k [[p Hp]|Hk]; left; [left|by right].
    apply lookup_delete_Some in Hp as [_ Hp]. eauto.
Qed.

(** X4: in a session that started with an empty buffer, however the
    worker and its read-ahead thread interleave, every key in the buffer
    indexes an existing sentence. *)
Theorem readahead_buffers_existing_sentences data sb ss sts k :
  is_Some (_audio_buffer (interleave sts (init data sb ss)) !! k) →
  valid_key data k.
Proof.
  assert (∀ w, produced_valid w →
            produced_valid (interleave sts w) ∧
            sentence_data (interleave sts w) = sentence_data w) as Hall.
  { unfold interleave. induction sts as [|st sts IH]; intros w Hw; [done|].
    simpl. destruct (IH (interleave_step st w)) as [? ->];
      [by apply produced_valid_step|].
    split; [done|apply interleave_step_sentence_data]. }
  destruct (Hall (init data sb ss)) as [Hinv Hd].
  { intros k' [[? Hk]|[Hk|Hk]]; simpl in Hk;
      [by rewrite lookup_empty in Hk|by apply elem_of_nil in Hk|done]. }
  intros Hk. specialize (Hinv k (or_introl Hk)). by rewrite Hd in Hinv.
Qed.

(** The theorem at [long_document]: after one read-ahead store the
    buffer holds the key (0,1), an existing sentence. *)
Lemma readahead_buffers_existing_sentences_witness :
  TTSWorker._audio_buffer
    (TTSWorker.interleave
       [TTSWorker.StartSentence; TTSWorker.FetchAudio; TTSWorker.ReadAheadPass;
        TTSWorker.ReadAheadCheck; TTSWorker.ReadAheadStore (Some "/tmp/1.wav")]
       (TTSWorker.init long_document 0 0)) !! (0, 1) = Some "/tmp/1.wav" ∧
  valid_key long_document (0, 1).
Proof.
  assert (TTSWorker._audio_buffer
    (TTSWorker.interleave
       [TTSWorker.StartSentence; TTSWorker.FetchAudio; TTSWorker.ReadAheadPass;
        TTSWorker.ReadAheadCheck; TTSWorker.ReadAheadStore (Some "/tmp/1.wav")]
       (TTSWorker.init long_document 0 0)) !! (0, 1) = Some "/tmp/1.wav") as Hk
    by (vm_compute; reflexivity).
  split; [exact Hk|].
  apply (readahead_buffers_existing_sentences long_document 0 0
           [TTSWorker.StartSentence; TTSWorker.FetchAudio; TTSWorker.ReadAheadPass;
            TTSWorker.ReadAheadCheck; TTSWorker.ReadAheadStore (Some "/tmp/1.wav")]).
  rewrite Hk. by eexists.
Defined.

End worker_trace.

Section navigation.
Import TTSManager.

Lemma valid_key_check data b s :
  bool_decide (length data ≤ b) || bool_decide (block_len data b ≤ s) = false ↔
  valid_key data (b, s).
Proof.
  unfold valid_key. simpl. rewrite orb_false_iff, !bool_decide_eq_false. lia.
Qed.

Lemma start_speaking_invalid h inherited m data :
  sentence_data m = Some data →
  ¬ valid_key data (tts_sentence_index m) →
  _start_speaking_from_index h inherited m = (false, m).
Proof.
  intros Hd Hv. unfold _start_speaking_from_index. rewrite Hd.
  destruct data as [|blk data]; [done|].
  destruct (config_present h); simpl; [|done].
  destruct (tts_sentence_index m) as [b s].
  destruct (bool_decide _ || bool_decide _) eqn:Hc; [done|].
  apply (valid_key_check (blk :: data)) in Hc. done.
Qed.

Lemma stop_and_join_fields h i m :
  sentence_data (stop_and_join h i m) = sentence_data m ∧
  tts_sentence_index (stop_and_join h i m) = tts_sentence_index m ∧
  _is_navigating (stop_and_join h i m) = _is_navigating m ∧
  text_edit (stop_and_join h i m) = text_edit m.
Proof.
  destruct (threads m !! i) as [t|] eqn:Ht.
  - rewrite (stop_and_join_spec _ _ _ _ Ht). by destruct (_ && _).
  - unfold stop_and_join. by rewrite Ht.
Qed.

Lemma extract_fields b s m :
  let r := _extract_relevant_buffer_entries b s m in
  is_speaking r.2 = is_speaking m ∧
  sentence_data r.2 = sentence_data m ∧
  tts_sentence_index r.2 = tts_sentence_index m ∧
  text_edit r.2 = text_edit m ∧
  length (threads r.2) = length (threads m) ∧
  ∀ k p, r.1 !! k = Some p →
         ∃ t, current_thread m = Some t ∧ thread_buffer t !! k = Some p.
Proof.
  unfold _extract_relevant_buffer_entries, current_thread.
  destruct (tts_worker m) as [i|]; simpl; [|by split_and!].
  destruct (threads m !! i) as [t|] eqn:Ht; simpl; [|by split_and!].
  split_and!; try done; [by rewrite length_insert|].
  intros k p [Hk _]%map_lookup_filter_Some. eauto.
Qed.

(** A navigation of a manager in a session: the old worker is stopped
    and joined, and then [_start_speaking_from_index] runs on a manager
    without worker. *)
Lemma navigate_unfold h b s m :
  in_session m →
  ∃ preserved m4,
    _navigate_to_sentence h b s m = _start_speaking_from_index h preserved m4 ∧
    tts_worker m4 = None ∧ is_speaking m4 = true ∧ _is_navigating m4 = true ∧
    sentence_data m4 = sentence_data m ∧
    tts_sentence_index m4 = tts_sentence_index m ∧
    text_edit m4 = text_edit m ∧
    length (threads m4) = length (threads m) ∧
    (one_running m → none_running m4) ∧
    (∀ k p, preserved !! k = Some p →
            ∃ t, current_thread m = Some t ∧ thread_buffer t !! k = Some p).
Proof.
  intros [Hs [i Hw]]. unfold _navigate_to_sentence. rewrite Hw, Hs. simpl.
  match goal with
  | |- context [let '(_, _) := ?x in _] => set (e := x)
  end.
  assert (is_speaking e.2 = true ∧
          sentence_data e.2 = sentence_data m ∧
          tts_sentence_index e.2 = tts_sentence_index m ∧
          text_edit e.2 = text_edit m ∧
          length (threads e.2) = length (threads m) ∧
          tts_worker e.2 = Some i ∧
          (one_running m → one_running e.2) ∧
          ∀ k p, e.1 !! k = Some p →
                 ∃ t, current_thread m = Some t ∧ thread_buffer t !! k = Some p)
    as (He1 & He2 & He3 & He4 & He5 & He6 & He7 & He8).
  { unfold e. destruct (threads m !! i) as [t|]; [|by split_and!].
    case_bool_decide; [|by split_and!].
    destruct (extract_fields b s m) as (? & ? & ? & ? & ? & ?).
    split_and!; try done.
    - congruence.
    - by rewrite extract_tts_worker.
    - apply extract_one_running. }
  destruct e as [preserved m1]. simpl in *.
  eexists preserved, _. split; [reflexivity|].
  destruct (stop_and_join_projections h i (set_is_navigating true m1))
    as (Hp1 & Hp2 & Hp3).
  destruct (stop_and_join_fields h i (set_is_navigating true m1))
    as (Hf1 & Hf2 & Hf3 & Hf4).
  simpl in *. split_and!; try congruence; [|done].
  intros Hone. eapply none_running_same; [done|].
  apply stop_and_join_none_running; [|done].
  eapply one_running_same; [..|exact (He7 Hone)]; done.
Qed.

Lemma session_at_start data k inherited m :
  sentence_data m = Some data →
  tts_sentence_index m = k →
  session_at data k inherited
    (set_is_speaking true
       (set_tts_worker (Some (length (threads m)))
          (set_threads
             (threads m ++
              [mkThread
                 (TTSWorker.set_buffer inherited (TTSWorker.init data k.1 k.2))
                 true false]) m))).
Proof.
  intros Hd Hk. unfold session_at, current_thread. simpl.
  split_and!; try done. eexists. split.
  - rewrite lookup_app_r by lia. by rewrite Nat.sub_diag.
  - done.
Qed.


Lemma start_speaking_valid h inherited m data :
  sentence_data m = Some data →
  valid_key data (tts_sentence_index m) →
  host_ready h →
  let r := _start_speaking_from_index h inherited m in
  r.1 = true ∧
  session_at data (tts_sentence_index m) inherited r.2 ∧
  _is_navigating r.2 = _is_navigating m.
Proof.
  intros Hd Hv [Hc Hb]. unfold _start_speaking_from_index. rewrite Hd, Hc, Hb.
  destruct data as [|blk data]; [destruct Hv; simpl in *; lia|].
  simpl. destruct (tts_sentence_index m) as [b s] eqn:Hidx.
  apply valid_key_check in Hv. simpl in Hv. rewrite Hv. simpl.
  rewrite (right_id_L ∅ (∪)).
  match goal with
  | |- context [set_threads (threads ?x ++ _) ?x] => set (m1 := x)
  end.
  assert (sentence_data m1 = Some (blk :: data) ∧
          tts_sentence_index m1 = (b, s) ∧
          _is_navigating m1 = _is_navigating m) as (Hd1 & Hi1 & Hn1).
  { unfold m1. destruct (tts_worker m) as [i|]; simpl; [|done].
    destruct (threads m !! i) as [t|]; [|done].
    destruct (running t); [|done].
    destruct (stop_and_join_fields h i m) as (-> & -> & -> & _). done. }
  split_and!; [done| |done].
  by apply (session_at_start (blk :: data) (b, s)).
Qed.

Lemma start_speaking_true_iff h inherited m :
  (_start_speaking_from_index h inherited m).1 = true ↔
  host_ready h ∧
  ∃ data, sentence_data m = Some data ∧ valid_key data (tts_sentence_index m).
Proof.
  split.
  - unfold _start_speaking_from_index, host_ready.
    destruct (sentence_data m) as [[|blk data]|]; [done| |done].
    destruct (config_present h); simpl; [|done].
    destruct (tts_sentence_index m) as [b s].
    destruct (bool_decide _ || bool_decide _) eqn:Hc; [done|].
    apply (valid_key_check (blk :: data)) in Hc.
    destruct (backend h); [|done|done]. intros _. split; [done|]. by eexists.
  - intros (Hready & data & Hd & Hv).
    by destruct (start_speaking_valid h inherited m data Hd Hv Hready).
Qed.

(** When no worker is created, the threads are as before. *)
Lemma start_speaking_refused h inherited m :
  let r := _start_speaking_from_index h inherited m in
  r.1 = false →
  threads r.2 = threads m ∧ tts_worker r.2 = tts_worker m ∧
  (is_speaking m = false → is_speaking r.2 = false).
Proof.
  unfold _start_speaking_from_index.
  destruct (sentence_data m) as [[|blk data]|]; [done| |done].
  destruct (config_present h); simpl; [|done].
  destruct (tts_sentence_index m) as [b s].
  destruct (bool_decide _ || bool_decide _); [done|].
  by destruct (backend h).
Qed.

Lemma navigate_valid h b s m data :
  in_session m → host_ready h →
  sentence_data m = Some data → valid_key data (b, s) →
  let r := _navigate_to_sentence h b s (set_sentence_index b s m) in
  r.1 = true ∧ _is_navigating r.2 = true ∧
  ∃ buffer,
    session_at data (b, s) buffer r.2 ∧
    ∀ k p, buffer !! k = Some p →
           ∃ t, current_thread m = Some t ∧ thread_buffer t !! k = Some p.
Proof.
  intros Hin Hready Hd Hv r. subst r.
  destruct (navigate_unfold h b s (set_sentence_index b s m) Hin)
    as (preserved & m4 & -> & Hw & Hs & Hn & Hd4 & Hi4 & _ & _ & _ & Hsub).
  simpl in *. rewrite Hd in Hd4.
  destruct (start_speaking_valid h preserved m4 data) as (Hok & Hat & Hnav);
    [done|by rewrite Hi4|done|].
  rewrite Hi4 in Hat. split_and!; [done|congruence|]. by exists preserved.
Qed.

Lemma navigate_invalid h b s m data :
  in_session m →
  sentence_data m = Some data → ¬ valid_key data (b, s) →
  let r := _navigate_to_sentence h b s (set_sentence_index b s m) in
  r.1 = false ∧ tts_worker r.2 = None ∧ is_speaking r.2 = true ∧
  _is_navigating r.2 = true ∧ tts_sentence_index r.2 = (b, s) ∧
  (one_running m → none_running r.2).
Proof.
  intros Hin Hd Hv r. subst r.
  destruct (navigate_unfold h b s (set_sentence_index b s m) Hin)
    as (preserved & m4 & -> & Hw & Hs & Hn & Hd4 & Hi4 & _ & _ & Hnone & _).
  simpl in *. rewrite Hd in Hd4.
  rewrite (start_speaking_invalid h preserved m4 data); [|done|by rewrite Hi4].
  simpl. by split_and!.
Qed.


Lemma find_next_sentence_unfold data b s :
  find_next_sentence data b s =
  if decide (b < length data) then
    if decide (block_len data b = 0) then find_next_sentence data (S b) 0
    else if decide (s + 1 < block_len data b) then (b, S s)
    else if decide (S b < length data ∧ block_len data (S b) ≠ 0) then (S b, 0)
    else find_next_sentence data (S b) 0
  else (b, s).
Proof.
  rewrite find_next_sentence_equation_1.
  destruct (decide (b < length data)); simpl; [|done].
  destruct (decide (block_len data b = 0)); simpl; [done|].
  destruct (decide (s + 1 < block_len data b)); simpl; [done|].
  by destruct (decide (S b < length data ∧ block_len data (S b) ≠ 0)).
Qed.

Lemma find_previous_sentence_unfold_S data b s :
  find_previous_sentence data b (S s) =
  match data !! b with
  | None => None
  | Some block_data =>
      if decide (sentences block_data = []) then find_previous_sentence data b s
      else Some (Some b, s)
  end.
Proof.
  rewrite find_previous_sentence_equation_3.
  destruct (data !! b) as [blk|]; simpl; [|done].
  by destruct (decide (sentences blk = [])).
Qed.

Lemma find_previous_sentence_unfold_0 data b :
  find_previous_sentence data (S b) 0 =
  match data !! b with
  | None => None
  | Some prev_block =>
      if decide (sentences prev_block = []) then find_previous_sentence data b 0
      else Some (Some b, length (sentences prev_block) - 1)
  end.
Proof.
  rewrite find_previous_sentence_equation_2.
  destruct (data !! b) as [blk|]; simpl; [|done].
  by destruct (decide (sentences blk = [])).
Qed.

Lemma find_next_paragraph_unfold data b :
  find_next_paragraph data b =
  if decide (b < length data) then
    if decide (block_len data b = 0) then find_next_paragraph data (S b)
    else Some b
  else None.
Proof.
  rewrite find_next_paragraph_equation_1.
  destruct (decide (b < length data)); simpl; [|done].
  by destruct (decide (block_len data b = 0)).
Qed.

(** Past the last block with sentences, the loop of
    [navigate_to_next_sentence] runs to the end of the document. *)
Lemma find_next_sentence_no_more data b s :
  (∀ b', b ≤ b' → block_len data b' = 0) →
  length data ≤ (find_next_sentence data b s).1.
Proof.
  remember (length data - b) as n eqn:Hn. revert b s Hn.
  induction n as [|n IH]; intros b s Hn Hempty; rewrite find_next_sentence_unfold.
  - rewrite decide_False by lia. simpl. lia.
  - rewrite decide_True by lia. rewrite decide_True by (apply Hempty; lia).
    apply IH; [lia|]. intros b' ?. apply Hempty. lia.
Qed.

Lemma valid_key_pair data b s :
  valid_key data (b, s) ↔ b < length data ∧ s < block_len data b.
Proof. done. Qed.

Lemma key_lt_pair b s b' s' : key_lt (b, s) (b', s') ↔ b < b' ∨ b = b' ∧ s < s'.
Proof. done. Qed.

Lemma valid_key_first data b :
  b < length data → block_len data b ≠ 0 → valid_key data (b, 0).
Proof. rewrite valid_key_pair. lia. Qed.

Lemma find_next_sentence_at_end data b s :
  (∀ k, valid_key data k → ¬ key_lt (b, s) k) →
  length data ≤ (find_next_sentence data b s).1.
Proof.
  intros Hlast.
  assert (∀ b', S b ≤ b' → block_len data b' = 0) as Hempty.
  { intros b' Hb'. destruct (decide (block_len data b' = 0)) as [|Hne]; [done|].
    destruct (decide (b' < length data)) as [Hlt|Hge];
      [|apply block_len_ge; lia].
    destruct (Hlast (b', 0)); [by apply valid_key_first|].
    apply key_lt_pair. lia. }
  rewrite find_next_sentence_unfold.
  destruct (decide (b < length data)) as [Hb|Hb]; [|simpl; lia].
  destruct (decide (block_len data b = 0)); [by apply find_next_sentence_no_more|].
  destruct (decide (s + 1 < block_len data b)) as [Hs|Hs].
  { destruct (Hlast (b, s + 1)); [apply valid_key_pair; lia|].
    apply key_lt_pair. lia. }
  destruct (decide (S b < length data ∧ block_len data (S b) ≠ 0)) as [[? Hne]|_].
  { destruct Hne. apply Hempty. lia. }
  by apply find_next_sentence_no_more.
Qed.

Lemma find_next_sentence_successor data b s q :
  valid_key data (b, s) → successor data (b, s) q → q.1 ≤ S b →
  find_next_sentence data b s = q.
Proof.
  destruct q as [qb qs]. intros [Hb Hs] ([Hqb Hqs] & Hlt & Hmin) Hnear.
  unfold key_lt in Hlt. cbn [fst snd] in *. rewrite find_next_sentence_unfold.
  rewrite decide_True by done. rewrite decide_False by lia.
  destruct (decide (s + 1 < block_len data b)) as [Hnext|Hnext].
  - destruct (Hmin (b, S s)) as [Heq|Hlt'];
      [apply valid_key_pair; lia|apply key_lt_pair; lia|..].
    + by injection Heq as -> ->.
    + unfold key_lt in Hlt'. cbn [fst snd] in Hlt'. f_equal; lia.
  - destruct (decide (qb = b)) as [->|Hqb']; [lia|].
    assert (qb = S b) as -> by lia.
    rewrite decide_True by (split; [done|lia]).
    destruct (Hmin (S b, 0)) as [Heq|Hlt'];
      [apply valid_key_pair; lia|apply key_lt_pair; lia|..].
    + by injection Heq as ->.
    + unfold key_lt in Hlt'. cbn [fst snd] in Hlt'. lia.
Qed.

Lemma predecessor_unique data k p p' :
  predecessor data k p → predecessor data k p' → p = p'.
Proof.
  intros (Hv & Hlt & Hmax) (Hv' & Hlt' & Hmax').
  destruct (Hmax p' Hv' Hlt') as [?|H1]; [done|].
  destruct (Hmax' p Hv Hlt) as [?|H2]; [done|].
  destruct (key_lt_irrefl p). by eapply key_lt_trans.
Qed.

Lemma block_len_empty data b blk :
  data !! b = Some blk → sentences blk = [] ↔ block_len data b = 0.
Proof.
  intros Hblk. rewrite (block_len_lookup _ _ _ Hblk).
  by destruct (sentences blk).
Qed.

(** The loop of [navigate_to_previous_sentence] entered at the first
    sentence of block [b]: it ends at the last sentence of the nearest
    block before [b] that has sentences. *)
Lemma find_previous_sentence_block data b :
  b ≤ length data →
  match find_previous_sentence data b 0 with
  | Some (Some c, s) =>
      c < b ∧ block_len data c ≠ 0 ∧ s = block_len data c - 1 ∧
      ∀ j, c < j < b → block_len data j = 0
  | Some (None, _) => ∀ j, j < b → block_len data j = 0
  | None => False
  end.
Proof.
  induction b as [|b IH]; intros Hb.
  - rewrite find_previous_sentence_equation_1. intros j ?. lia.
  - rewrite find_previous_sentence_unfold_0.
    destruct (data !! b) as [blk|] eqn:Hblk.
    2:{ apply lookup_ge_None_1 in Hblk. lia. }
    pose proof (block_len_empty _ _ _ Hblk) as Hlen.
    destruct (decide (sentences blk = [])) as [Hempty|Hne].
    + specialize (IH ltac:(lia)). apply Hlen in Hempty.
      destruct (find_previous_sentence data b 0) as [[[c|] s]|]; [| |done].
      * destruct IH as (? & ? & ? & Hbetween). split_and!; [lia|done|done|].
        intros j Hj. destruct (decide (j = b)) as [->|]; [done|].
        apply Hbetween. lia.
      * intros j Hj. destruct (decide (j = b)) as [->|]; [done|]. apply IH. lia.
    + split_and!; [lia|by rewrite <- Hlen| |intros j ?; lia].
      by rewrite (block_len_lookup _ _ _ Hblk).
Qed.

Lemma find_previous_sentence_spec data b s :
  valid_key data (b, s) →
  match find_previous_sentence data b s with
  | Some (Some c, s') => predecessor data (b, s) (c, s')
  | Some (None, _) => ∀ k, valid_key data k → ¬ key_lt k (b, s)
  | None => False
  end.
Proof.
  intros [Hb Hs]. cbn [fst snd] in *. destruct s as [|s].
  - pose proof (find_previous_sentence_block data b ltac:(lia)) as H.
    destruct (find_previous_sentence data b 0) as [[[c|] s']|]; [| |done].
    + destruct H as (Hc & Hne & -> & Hbetween). split_and!.
      * apply valid_key_pair. lia.
      * apply key_lt_pair. lia.
      * intros [kb ks] [Hkb Hks] Hlt. unfold key_lt in Hlt. cbn [fst snd] in *.
        destruct (decide (kb = c)) as [->|Hne'].
        -- destruct (decide (ks = block_len data c - 1)) as [->|];
             [by left|right; apply key_lt_pair; lia].
        -- destruct (decide (kb < c)); [right; apply key_lt_pair; lia|].
           rewrite (Hbetween kb) in Hks by lia. lia.
    + intros [kb ks] [Hkb Hks] Hlt. unfold key_lt in Hlt. cbn [fst snd] in *.
      rewrite (H kb) in Hks by lia. lia.
  - rewrite find_previous_sentence_unfold_S.
    destruct (data !! b) as [blk|] eqn:Hblk.
    2:{ apply lookup_ge_None_1 in Hblk. lia. }
    pose proof (block_len_empty _ _ _ Hblk) as Hlen.
    rewrite decide_False by (rewrite Hlen; lia).
    split_and!.
    + apply valid_key_pair. lia.
    + apply key_lt_pair. lia.
    + intros [kb ks] _ Hlt. unfold key_lt in Hlt. cbn [fst snd] in Hlt.
      destruct (decide (kb = b ∧ ks = s)) as [[-> ->]|];
        [by left|right; apply key_lt_pair; lia].
Qed.

(** The loop of [navigate_to_next_paragraph] from block [b] on. *)
Lemma find_next_paragraph_spec data b :
  match find_next_paragraph data b with
  | Some c =>
      b ≤ c < length data ∧ block_len data c ≠ 0 ∧
      ∀ j, b ≤ j < c → block_len data j = 0
  | None => ∀ j, b ≤ j → block_len data j = 0
  end.
Proof.
  remember (length data - b) as n eqn:Hn. revert b Hn.
  induction n as [|n IH]; intros b Hn; rewrite find_next_paragraph_unfold.
  - rewrite decide_False by lia. intros j ?. apply block_len_ge. lia.
  - rewrite decide_True by lia.
    destruct (decide (block_len data b = 0)) as [Hb0|Hne].
    + specialize (IH (S b) ltac:(lia)).
      destruct (find_next_paragraph data (S b)) as [c|].
      * destruct IH as (? & ? & Hbetween). split_and!; [lia|lia|done|].
        intros j ?. destruct (decide (j = b)) as [->|]; [done|].
        apply Hbetween. lia.
      * intros j ?. destruct (decide (j = b)) as [->|]; [done|]. apply IH. lia.
    + split_and!; [lia|lia|done|]. intros j ?. lia.
Qed.

Lemma find_next_paragraph_first data b c :
  b ≤ c < length data → block_len data c ≠ 0 →
  (∀ j, b ≤ j < c → block_len data j = 0) →
  find_next_paragraph data b = Some c.
Proof.
  intros Hc Hne Hbetween. pose proof (find_next_paragraph_spec data b) as H.
  destruct (find_next_paragraph data b) as [c'|].
  - destruct H as (Hc' & Hne' & Hbetween'). f_equal.
    destruct (decide (c' < c)); [destruct Hne'; apply Hbetween; lia|].
    destruct (decide (c < c')); [destruct Hne; apply Hbetween'; lia|]. lia.
  - destruct Hne. apply H. lia.
Qed.

(** The loop of [navigate_to_previous_paragraph] from block [b - 1]
    down. *)
Lemma find_previous_paragraph_spec data b :
  b ≤ length data →
  match find_previous_paragraph data b with
  | Some (Some c) =>
      c < b ∧ block_len data c ≠ 0 ∧ ∀ j, c < j < b → block_len data j = 0
  | Some None => ∀ j, j < b → block_len data j = 0
  | None => False
  end.
Proof.
  induction b as [|b IH]; intros Hb; simpl.
  - intros j ?. lia.
  - destruct (data !! b) as [blk|] eqn:Hblk.
    2:{ apply lookup_ge_None_1 in Hblk. lia. }
    pose proof (block_len_empty _ _ _ Hblk) as Hlen.
    case_bool_decide as Hempty.
    + specialize (IH ltac:(lia)). apply Hlen in Hempty.
      destruct (find_previous_paragraph data b) as [[c|]|]; [| |done].
      * destruct IH as (? & ? & Hbetween). split_and!; [lia|done|].
        intros j ?. destruct (decide (j = b)) as [->|]; [done|].
        apply Hbetween. lia.
      * intros j ?. destruct (decide (j = b)) as [->|]; [done|]. apply IH. lia.
    + split_and!; [lia|by rewrite <- Hlen|intros j ?; lia].
Qed.

Lemma find_previous_paragraph_last data b c :
  b ≤ length data → c < b → block_len data c ≠ 0 →
  (∀ j, c < j < b → block_len data j = 0) →
  find_previous_paragraph data b = Some (Some c).
Proof.
  intros Hb Hc Hne Hbetween.
  pose proof (find_previous_paragraph_spec data b Hb) as H.
  destruct (find_previous_paragraph data b) as [[c'|]|]; [| |done].
  - destruct H as (Hc' & Hne' & Hbetween'). do 2 f_equal.
    destruct (decide (c' < c)); [destruct Hne; apply Hbetween'; lia|].
    destruct (decide (c < c')); [destruct Hne'; apply Hbetween; lia|]. lia.
  - destruct Hne. apply H. lia.
Qed.


(** ** Starting and stopping a session *)

Lemma block_len_le_total data b :
  block_len data b ≤ sum_list ((λ block, length (sentences block)) <$> data).
Proof.
  revert b. induction data as [|blk data IH]; intros b; [done|].
  destruct b as [|b]; rewrite fmap_cons; cbn [sum_list sum_list_with];
    [unfold block_len, id; simpl; lia|].
  specialize (IH b). unfold block_len in *. rewrite lookup_cons. lia.
Qed.

Lemma toggle_speech_spec h m :
  is_speaking m = false →
  let m' := toggle_speech h m in
  (is_speaking m' = true ↔
     document_empty h = false ∧ tts_configured h = true ∧ host_ready h ∧
     valid_key (document_sentences h) (tts_sentence_index m)) ∧
  (is_speaking m' = true →
     session_at (document_sentences h) (tts_sentence_index m) ∅ m' ∧
     _is_navigating m' = false) ∧
  (is_speaking m' = false →
     threads m' = threads m ∧ tts_worker m' = tts_worker m).
Proof.
  intros Hidle m'. subst m'. unfold toggle_speech, host_ready. rewrite Hidle.
  destruct (document_empty h);
    [split_and!; [split; [congruence|by intros [? _]]|congruence|done]|].
  destruct (config_present h) eqn:Hc; simpl;
    [|split_and!; [split; [congruence|by intros (_ & _ & [? _] & _)]
                  |congruence|done]].
  destruct (tts_configured h); simpl;
    [|split_and!; [split; [congruence|by intros (_ & ? & _)]|congruence|done]].
  case_bool_decide as Htotal.
  { simpl. split_and!; [split; [congruence|]|congruence|done].
    intros (_ & _ & _ & [_ Hv]).
    pose proof (block_len_le_total (document_sentences h) (tts_sentence_index m).1).
    lia. }
  set (m2 := set_is_navigating false
               (set_sentence_data (Some (document_sentences h)) m)).
  pose proof (start_speaking_true_iff h ∅ m2) as Hiff.
  pose proof (start_speaking_refused h ∅ m2) as Hrefused.
  pose proof (start_speaking_valid h ∅ m2 (document_sentences h) eq_refl)
    as Hvalid.
  destruct (_start_speaking_from_index h ∅ m2) as [ok m3].
  cbn [fst snd] in *. change (tts_sentence_index m2) with (tts_sentence_index m) in *.
  change (is_speaking m2) with (is_speaking m) in *.
  change (threads m2) with (threads m) in *.
  change (tts_worker m2) with (tts_worker m) in *.
  change (_is_navigating m2) with false in *.
  change (sentence_data m2) with (Some (document_sentences h)) in *.
  destruct ok.
  - destruct Hiff as [(Hready & data & Heq & Hv) _]; [done|].
    injection Heq as <-.
    destruct (Hvalid Hv Hready) as (_ & Hat & Hnav).
    pose proof Hat as (Hs & _).
    split; [|split; [done|congruence]].
    split; [|done]. intros _. destruct Hready. by split_and!.
  - destruct (Hrefused eq_refl) as (Hth & Hw & Hs). specialize (Hs Hidle).
    split; [|split; [congruence|by intros _]].
    split; [congruence|]. intros (_ & _ & Hready & Hv).
    destruct Hiff as [_ Hiff]. discriminate Hiff.
    split; [split; [exact Hc|apply Hready]|]. by eexists.
Qed.

(** *** The session [speaking document] *)

Lemma init_one_running text_edit : one_running (init text_edit).
Proof. intros i t Ht. simpl in Ht. by rewrite lookup_nil in Ht. Qed.

Lemma speaking_one_running document : one_running (speaking document).
Proof. apply toggle_speech_one_running, init_one_running. Qed.

Lemma ready_host_ready document : host_ready (ready_host document).
Proof. by split. Qed.

Lemma speaking_in_session document :
  valid_key document (0, 0) → in_session (speaking document).
Proof.
  intros Hv. unfold speaking.
  destruct (toggle_speech_spec (ready_host document) (init true) eq_refl)
    as (Hiff & Hs & _).
  assert (is_speaking (toggle_speech (ready_host document) (init true)) = true)
    as Hsp.
  { apply Hiff. split_and!; [done|done|apply ready_host_ready|exact Hv]. }
  destruct (Hs Hsp) as [(_ & _ & _ & t & Hcur & _) _].
  split; [exact Hsp|]. unfold current_thread in Hcur.
  destruct (tts_worker _); [by eexists|done].
Qed.

Lemma hello_first_valid : valid_key hello_document (0, 0).
Proof. unfold valid_key, block_len. simpl. lia. Qed.

Lemma gap_first_valid : valid_key gap_document (0, 0).
Proof. unfold valid_key, block_len. simpl. lia. Qed.

Lemma two_block_first_valid : valid_key two_block_document (0, 0).
Proof. unfold valid_key, block_len. simpl. lia. Qed.

Lemma offset_first_valid : valid_key offset_document (0, 0).
Proof. unfold valid_key, block_len. simpl. lia. Qed.

Lemma in_session_set_sentence_index b s m :
  in_session m → in_session (set_sentence_index b s m).
Proof. by intros [? ?]. Qed.

Lemma speaking_thread document :
  valid_key document (0, 0) →
  ∃ t, current_thread (speaking document) = Some t ∧ running t = true.
Proof.
  intros Hv.
  destruct (toggle_speech_spec (ready_host document) (init true) eq_refl)
    as (_ & Hs & _).
  destruct (Hs (proj1 (speaking_in_session _ Hv)))
    as [(_ & _ & _ & t & Hcur & Hr & _) _].
  by exists t.
Qed.

Lemma speaking_sentence_data document :
  valid_key document (0, 0) → sentence_data (speaking document) = Some document.
Proof.
  intros Hv.
  destruct (toggle_speech_spec (ready_host document) (init true) eq_refl)
    as (_ & Hs & _).
  by destruct (Hs (proj1 (speaking_in_session _ Hv))) as [(_ & _ & Hd & _) _].
Qed.

Lemma speaking_sentence_index document :
  valid_key document (0, 0) → tts_sentence_index (speaking document) = (0, 0).
Proof.
  intros Hv.
  destruct (toggle_speech_spec (ready_host document) (init true) eq_refl)
    as (_ & Hs & _).
  by destruct (Hs (proj1 (speaking_in_session _ Hv))) as [(_ & Hk & _) _].
Qed.

(** X5: [toggle_speech] on a manager that is not speaking starts a
    session exactly when the document is not empty, the TTS settings are
    there, the backend can be built and the current sentence index is an
    existing sentence; the new worker then starts at the current index
    with an empty buffer, and otherwise no worker is created. *)
Theorem toggle_speech_starts_session h m :
  is_speaking m = false →
  let m' := toggle_speech h m in
  (is_speaking m' = true ↔
     document_empty h = false ∧ tts_configured h = true ∧ host_ready h ∧
     valid_key (document_sentences h) (tts_sentence_index m)) ∧
  (is_speaking m' = true →
     session_at (document_sentences h) (tts_sentence_index m) ∅ m' ∧
     _is_navigating m' = false) ∧
  (is_speaking m' = false →
     threads m' = threads m ∧ tts_worker m' = tts_worker m).
Proof. apply toggle_speech_spec. Qed.

Lemma start_speaking_text_edit h inherited m :
  text_edit (_start_speaking_from_index h inherited m).2 = text_edit m.
Proof.
  unfold _start_speaking_from_index.
  destruct (sentence_data m) as [[|blk data]|]; [done| |done].
  destruct (config_present h); simpl; [|done].
  destruct (tts_sentence_index m) as [b s].
  destruct (bool_decide _ || bool_decide _); [done|].
  destruct (backend h); [|done|done]. simpl.
  destruct (tts_worker m) as [i|]; simpl; [|done].
  destruct (threads m !! i) as [t|]; [|done].
  destruct (running t); [|done].
  by destruct (stop_and_join_fields h i m) as (_ & _ & _ & ->).
Qed.

(** The theorem at a fresh manager and [hello_document]: a session
    starts at (0,0) with an empty buffer. *)
Lemma toggle_speech_starts_session_witness :
  is_speaking (init true) = false ∧
  is_speaking (toggle_speech (ready_host hello_document) (init true)) = true ∧
  session_at hello_document (0, 0) ∅
    (toggle_speech (ready_host hello_document) (init true)).
Proof.
  destruct (toggle_speech_starts_session (ready_host hello_document) (init true)
              eq_refl) as (Hiff & Hs & _).
  assert (is_speaking (toggle_speech (ready_host hello_document) (init true)) =
          true) as Hsp.
  { apply Hiff.
    split_and!; [done|done|apply ready_host_ready|exact hello_first_valid]. }
  split; [done|]. split; [exact Hsp|]. exact (proj1 (Hs Hsp)).
Defined.

Lemma toggle_speech_text_edit h m :
  is_speaking m = false → text_edit (toggle_speech h m) = text_edit m.
Proof.
  intros Hidle. unfold toggle_speech. rewrite Hidle.
  destruct (document_empty h); [done|].
  destruct (config_present h); [|done].
  destruct (tts_configured h); [|done]. simpl.
  case_bool_decide; [done|]. by rewrite start_speaking_text_edit.
Qed.

(** ** A session that nothing interrupts *)

Lemma foldl_deliver_started keys m :
  text_edit m = true →
  let m' := foldl (λ m' s, deliver s m') m
              ((λ k, TTSWorker.SentenceStarted k.1 k.2) <$> keys) in
  tts_sentence_index m' = default (tts_sentence_index m) (last keys) ∧
  is_speaking m' = is_speaking m ∧
  _is_navigating m' = _is_navigating m ∧
  threads m' = threads m ∧
  tts_worker m' = tts_worker m.
Proof.
  revert m. induction keys as [|k keys IH]; intros m Hedit m'; [done|].
  subst m'. rewrite fmap_cons. cbn [foldl deliver].
  unfold highlight_current_sentence. rewrite Hedit.
  destruct (IH (set_sentence_index k.1 k.2 m) Hedit) as (-> & -> & -> & -> & ->).
  split_and!; try done. simpl. destruct keys as [|k' keys]; [by destruct k|].
  change (last (k :: k' :: keys)) with (last (k' :: keys)).
  destruct (last (k' :: keys)) eqn:Hlast; [done|]. by apply last_None in Hlast.
Qed.

(** X6: when the worker of a session started by [toggle_speech] runs
    undisturbed, the manager ends up not speaking, its sentence index is
    the last sentence of the document, and the worker thread has ended
    with an empty buffer. *)
Theorem undisturbed_session_reads_to_the_end h m env :
  is_speaking m = false → text_edit m = true →
  is_speaking (toggle_speech h m) = true →
  TTSWorker.undisturbed env →
  let m' := run_current_worker env (toggle_speech h m) in
  is_speaking m' = false ∧
  last (keys_from (document_sentences h)
          (tts_sentence_index m).1 (tts_sentence_index m).2) =
    Some (tts_sentence_index m') ∧
  ∃ t, current_thread m' = Some t ∧ running t = false ∧ thread_buffer t = ∅.
Proof.
  intros Hidle Hedit Hstarted Henv m'. subst m'.
  destruct (toggle_speech_spec h m Hidle) as (Hiff & Hat & _).
  apply Hiff in Hstarted as Hv. destruct Hv as (_ & _ & _ & Hv).
  destruct (Hat Hstarted) as ((Hs & Hidx & Hd & t & Hcur & Hr & _ & Hworker) & Hnav).
  pose proof (toggle_speech_text_edit h m Hidle) as Hedit'.
  set (m1 := toggle_speech h m) in *. clearbody m1.
  unfold run_current_worker. unfold current_thread in Hcur.
  destruct (tts_worker m1) as [i|] eqn:Hw; [|done]. simpl in Hcur.
  rewrite Hcur, Hr, Hworker.
  destruct (tts_sentence_index m) as [b s]. cbn [fst snd] in *.
  rewrite (undisturbed_signals env _ b s ∅ Henv), foldl_app. simpl.
  match goal with
  | |- context [foldl _ ?x (_ <$> _)] => set (m2 := x)
  end.
  destruct (foldl_deliver_started (keys_from (document_sentences h) b s) m2)
    as (Hi' & Hs' & Hn' & Ht' & Hw'); [unfold m2; simpl; congruence|].
  unfold on_speech_finished. rewrite Hn'. simpl. rewrite Hnav. simpl.
  rewrite Hi'. split_and!; [done| |].
  - destruct (last (keys_from (document_sentences h) b s)) as [k|] eqn:Hlast;
      [done|].
    apply last_None in Hlast.
    assert ((b, s) ∈ keys_from (document_sentences h) b s) as Hin
      by (apply elem_of_keys_from; split; [done|by left]).
    rewrite Hlast in Hin. by apply elem_of_nil in Hin.
  - unfold current_thread. simpl. rewrite Hw', Ht'. simpl. rewrite Hw. simpl.
    apply lookup_lt_Some in Hcur as Hlt.
    rewrite list_lookup_insert_eq by done. eexists. split; [done|].
    split; [done|]. unfold thread_buffer, TTSWorker.run. simpl.
    by destruct (TTSWorker.run_body _ _) as [[] ?].
Qed.

(** The theorem at [hello_document] in [quiet_env]: the session ends
    with the sentence index at (0,1). *)
Lemma undisturbed_session_reads_to_the_end_witness :
  TTSWorker.undisturbed quiet_env ∧
  is_speaking (run_current_worker quiet_env (speaking hello_document)) = false ∧
  tts_sentence_index (run_current_worker quiet_env (speaking hello_document)) =
    (0, 1).
Proof.
  assert (is_speaking (toggle_speech (ready_host hello_document) (init true)) =
          true) as Hsp by apply (speaking_in_session _ hello_first_valid).
  destruct (undisturbed_session_reads_to_the_end (ready_host hello_document)
              (init true) quiet_env eq_refl eq_refl Hsp quiet_env_undisturbed)
    as (Hidle & Hlast & _).
  split; [exact quiet_env_undisturbed|]. split; [exact Hidle|].
  assert (last (keys_from (document_sentences (ready_host hello_document))
                  (tts_sentence_index (init true)).1
                  (tts_sentence_index (init true)).2) = Some (0, 1)) as Hkeys
    by (vm_compute; reflexivity).
  rewrite Hkeys in Hlast. unfold speaking. congruence.
Defined.

(** X7: a second [stop_speech] changes nothing. *)
Theorem stop_speech_idempotent h h' m :
  stop_speech h' (stop_speech h m) = stop_speech h m.
Proof.
  unfold stop_speech.
  destruct (tts_worker m) as [i|] eqn:Hw; [|by rewrite Hw].
  destruct (threads m !! i) as [t|] eqn:Ht; [|by rewrite Hw, Ht].
  destruct (is_speaking m && running t) eqn:Hc; [done|by rewrite Hw, Ht, Hc].
Qed.

(** X8: [stop_speech] on a speaking manager whose worker thread is
    running leaves the manager not speaking and not navigating, without
    worker and with no thread running; the sentence index and the
    sentence data stay as they are. *)
Theorem stop_speech_ends_session h m t :
  is_speaking m = true → current_thread m = Some t → running t = true →
  one_running m →
  let m' := stop_speech h m in
  is_speaking m' = false ∧ tts_worker m' = None ∧ _is_navigating m' = false ∧
  none_running m' ∧
  tts_sentence_index m' = tts_sentence_index m ∧
  sentence_data m' = sentence_data m.
Proof.
  intros Hs Hcur Hr Hone. simpl. unfold current_thread in Hcur.
  unfold stop_speech.
  destruct (tts_worker m) as [i|] eqn:Hw; [|done]. simpl in Hcur.
  rewrite Hcur, Hs, Hr. simpl.
  destruct (stop_and_join_fields h i m) as (Hd & Hi & _).
  split_and!; try done.
  eapply none_running_same; [done|]. by apply stop_and_join_none_running.
Qed.

(** The theorem at a session on [hello_document]. *)
Lemma stop_speech_ends_session_witness :
  is_speaking (speaking hello_document) = true ∧
  is_speaking (stop_speech (ready_host hello_document) (speaking hello_document)) =
    false ∧
  tts_worker (stop_speech (ready_host hello_document) (speaking hello_document)) =
    None ∧
  none_running (stop_speech (ready_host hello_document) (speaking hello_document)).
Proof.
  destruct (speaking_thread _ hello_first_valid) as (t & Hcur & Hr).
  pose proof (proj1 (speaking_in_session _ hello_first_valid)) as Hsp.
  destruct (stop_speech_ends_session (ready_host hello_document)
              (speaking hello_document) t Hsp Hcur Hr
              (speaking_one_running hello_document))
    as (Hidle & Hw & _ & Hnone & _).
  split; [exact Hsp|]. split; [exact Hidle|]. split; [exact Hw|exact Hnone].
Defined.

(** X9: after [cleanup_resources] no worker thread is running. *)
Theorem cleanup_resources_stops_every_thread h m :
  one_running m → none_running (cleanup_resources h m).
Proof.
  intros Hone. unfold cleanup_resources.
  set (m1 := if is_speaking m then stop_speech h m else m).
  assert (one_running m1) as Hone1
    by (unfold m1; destruct (is_speaking m); [by apply stop_speech_one_running|done]).
  clearbody m1.
  destruct (tts_worker m1) as [i|] eqn:Hw; [|by apply one_running_no_worker].
  destruct (threads m1 !! i) as [t|] eqn:Ht.
  - destruct (running t) eqn:Hr.
    + eapply none_running_same; [done|]. by apply stop_and_join_none_running.
    + intros j tj Hj. destruct (decide (j = i)) as [->|Hne]; [congruence|].
      by apply (one_running_other m1 i j tj).
  - intros j tj Hj. apply (one_running_other m1 i j tj Hone1 Hw Hj). congruence.
Qed.

(** The theorem at a session on [hello_document]. *)
Lemma cleanup_resources_stops_every_thread_witness :
  one_running (speaking hello_document) ∧
  none_running
    (cleanup_resources (ready_host hello_document) (speaking hello_document)).
Proof.
  split; [apply speaking_one_running|].
  apply cleanup_resources_stops_every_thread, speaking_one_running.
Defined.

(** ** The buffer entries a navigation hands over *)

(** X10: [_extract_relevant_buffer_entries] splits the worker's buffer
    in two: the entries in the relevance window of the target are
    returned and removed from the worker's buffer, all others stay in
    the worker's buffer and are not returned; the thread keeps running
    as before. *)
Theorem extract_partitions_buffer target_block target_sent m i t :
  tts_worker m = Some i → threads m !! i = Some t →
  let r := _extract_relevant_buffer_entries target_block target_sent m in
  ∃ t',
    threads r.2 !! i = Some t' ∧ running t' = running t ∧
    ∀ k,
      (in_relevance_window (target_block, target_sent) k →
       r.1 !! k = thread_buffer t !! k ∧ thread_buffer t' !! k = None) ∧
      (¬ in_relevance_window (target_block, target_sent) k →
       r.1 !! k = None ∧ thread_buffer t' !! k = thread_buffer t !! k).
Proof.
  intros Hw Ht r. subst r. unfold _extract_relevant_buffer_entries.
  rewrite Hw, Ht. simpl. pose proof (lookup_lt_Some _ _ _ Ht) as Hlt.
  eexists. split; [by apply list_lookup_insert_eq|]. split; [done|].
  intros k.
  set (extracted := filter (λ kv, keep_entry target_block target_sent kv.1)
                      (thread_buffer t)).
  change (thread_buffer (set_thread_buffer ?b t)) with b.
  rewrite !lookup_foldr_delete_keys.
  assert (∀ p, extracted !! k = Some p ↔
               thread_buffer t !! k = Some p ∧
               in_relevance_window (target_block, target_sent) k) as Hex.
  { intros p. unfold extracted. rewrite map_lookup_filter_Some. simpl.
    by rewrite Is_true_true, keep_entry_spec. }
  split; intros Hwin.
  - assert (extracted !! k = thread_buffer t !! k) as Heq.
    { apply option_eq. intros p. rewrite Hex. split; [by intros [? _]|done]. }
    split; [done|]. case_decide as Hsome; [done|].
    apply eq_None_not_Some. intros [p Hp]. apply Hsome. exists p. by apply Hex.
  - assert (extracted !! k = None) as Hnone.
    { apply eq_None_not_Some. intros [p Hp]. apply Hex in Hp as [_ ?]. done. }
    split; [done|]. rewrite decide_False; [done|]. rewrite Hnone. by intros [? ?].
Qed.

(** The theorem at [buffered_manager] and the target (0,1): the entry
    for (0,1) moves from the worker's buffer to the returned map. *)
Lemma extract_partitions_buffer_witness :
  ∃ t t',
    threads (set_sentence_index 0 1 buffered_manager) !! 0 = Some t ∧
    thread_buffer t !! (0, 1) = Some "/tmp/1.wav" ∧
    threads (_extract_relevant_buffer_entries 0 1
               (set_sentence_index 0 1 buffered_manager)).2 !! 0 = Some t' ∧
    (_extract_relevant_buffer_entries 0 1
       (set_sentence_index 0 1 buffered_manager)).1 !! (0, 1) =
      Some "/tmp/1.wav" ∧
    thread_buffer t' !! (0, 1) = None.
Proof.
  destruct buffered_manager_thread as (t & Ht & H1 & _).
  assert (tts_worker (set_sentence_index 0 1 buffered_manager) = Some 0) as Hw
    by (vm_compute; reflexivity).
  destruct (extract_partitions_buffer 0 1
              (set_sentence_index 0 1 buffered_manager) 0 t Hw Ht)
    as (t' & Ht' & _ & Hsplit).
  destruct (Hsplit (0, 1)) as [Hin _].
  destruct Hin as [Hr Hgone]; [left; split; [reflexivity|simpl; lia]|].
  exists t, t'. split; [exact Ht|]. split; [exact H1|]. split; [exact Ht'|].
  split; [by rewrite Hr|exact Hgone].
Defined.

(** ** Navigation targets *)

(** X11: in a session, [set_sentence_index] followed by
    [_navigate_to_sentence] for an existing sentence returns [True] and
    leaves one running worker, which starts at that sentence; the
    sentence index is the target, [_is_navigating] is set, and the new
    worker's buffer holds only entries of the old worker's buffer. *)
Theorem navigation_restarts_at_target h block_idx sent_idx m data :
  in_session m → host_ready h →
  sentence_data m = Some data → valid_key data (block_idx, sent_idx) →
  let r := _navigate_to_sentence h block_idx sent_idx
             (set_sentence_index block_idx sent_idx m) in
  r.1 = true ∧ _is_navigating r.2 = true ∧
  (one_running m → one_running r.2) ∧
  ∃ buffer,
    session_at data (block_idx, sent_idx) buffer r.2 ∧
    ∀ k p, buffer !! k = Some p →
           ∃ t, current_thread m = Some t ∧ thread_buffer t !! k = Some p.
Proof.
  intros Hin Hready Hd Hv r. subst r.
  destruct (navigate_valid h block_idx sent_idx m data Hin Hready Hd Hv)
    as (Hok & Hnav & Hat).
  split_and!; [done|done| |done].
  intros Hone. apply navigate_one_running.
  eapply one_running_same; [..|exact Hone]; done.
Qed.

(** The theorem at a session on [hello_document] and the target (0,1). *)
Lemma navigation_restarts_at_target_witness :
  in_session (speaking hello_document) ∧
  valid_key hello_document (0, 1) ∧
  (_navigate_to_sentence (ready_host hello_document) 0 1
     (set_sentence_index 0 1 (speaking hello_document))).1 = true ∧
  ∃ buffer,
    session_at hello_document (0, 1) buffer
      (_navigate_to_sentence (ready_host hello_document) 0 1
         (set_sentence_index 0 1 (speaking hello_document))).2.
Proof.
  pose proof (speaking_in_session _ hello_first_valid) as Hs.
  assert (valid_key hello_document (0, 1)) as Hv
    by (unfold valid_key, block_len; simpl; lia).
  destruct (navigation_restarts_at_target (ready_host hello_document) 0 1
              (speaking hello_document) hello_document Hs
              (ready_host_ready hello_document)
              (speaking_sentence_data _ hello_first_valid) Hv)
    as (Hok & _ & _ & buffer & Hat & _).
  split; [exact Hs|]. split; [exact Hv|]. split; [exact Hok|].
  exists buffer. exact Hat.
Defined.

(** X12: the same two calls for a key that is no sentence of the
    document return [False] after the session has been torn down: no
    worker is left and no thread runs, while [is_speaking] and
    [_is_navigating] stay set; afterwards [toggle_speech] and
    [stop_speech] change nothing. *)
Theorem navigation_to_missing_sentence_ends_session h block_idx sent_idx m data :
  in_session m →
  sentence_data m = Some data → ¬ valid_key data (block_idx, sent_idx) →
  let r := _navigate_to_sentence h block_idx sent_idx
             (set_sentence_index block_idx sent_idx m) in
  r.1 = false ∧ tts_worker r.2 = None ∧ is_speaking r.2 = true ∧
  _is_navigating r.2 = true ∧ tts_sentence_index r.2 = (block_idx, sent_idx) ∧
  (one_running m → none_running r.2) ∧
  ∀ h', toggle_speech h' r.2 = r.2 ∧ stop_speech h' r.2 = r.2.
Proof.
  intros Hin Hd Hv r. subst r.
  destruct (navigate_invalid h block_idx sent_idx m data Hin Hd Hv)
    as (Hok & Hw & Hs & Hnav & Hidx & Hnone).
  split_and!; try done.
  intros h'. unfold toggle_speech. rewrite Hs. unfold stop_speech.
  by rewrite Hw.
Qed.

(** The theorem at a session on [two_block_document] and the key (5,0),
    which is no sentence of it. *)
Lemma navigation_to_missing_sentence_ends_session_witness :
  in_session (speaking two_block_document) ∧
  ¬ valid_key two_block_document (5, 0) ∧
  (_navigate_to_sentence (ready_host two_block_document) 5 0
     (set_sentence_index 5 0 (speaking two_block_document))).1 = false ∧
  tts_worker
    (_navigate_to_sentence (ready_host two_block_document) 5 0
       (set_sentence_index 5 0 (speaking two_block_document))).2 = None ∧
  is_speaking
    (_navigate_to_sentence (ready_host two_block_document) 5 0
       (set_sentence_index 5 0 (speaking two_block_document))).2 = true.
Proof.
  pose proof (speaking_in_session _ two_block_first_valid) as Hs.
  assert (¬ valid_key two_block_document (5, 0)) as Hv
    by (unfold valid_key, block_len; simpl; lia).
  destruct (navigation_to_missing_sentence_ends_session
              (ready_host two_block_document) 5 0
              (speaking two_block_document) two_block_document Hs
              (speaking_sentence_data _ two_block_first_valid) Hv)
    as (Hno & Hw & Hsp & _).
  split; [exact Hs|]. split; [exact Hv|]. split; [exact Hno|].
  split; [exact Hw|exact Hsp].
Defined.

(** X13: when the sentence after the current one lies in the same
    block or in the block directly after it, [navigate_to_next_sentence]
    returns [True] and restarts the session at that sentence. *)
Theorem next_sentence_goes_to_successor h m data q :
  in_session m → host_ready h → sentence_data m = Some data →
  valid_key data (tts_sentence_index m) →
  successor data (tts_sentence_index m) q →
  q.1 ≤ (tts_sentence_index m).1 + 1 →
  let r := navigate_to_next_sentence h m in
  r.1 = true ∧ ∃ buffer, session_at data q buffer r.2.
Proof.
  intros Hin Hready Hd Hv Hq Hnear r. subst r.
  unfold navigate_to_next_sentence. rewrite Hd.
  destruct Hin as [Hs Hw]. rewrite Hs.
  destruct (tts_sentence_index m) as [b s] eqn:Hidx. cbn [fst snd] in *.
  rewrite (find_next_sentence_successor data b s q) by (done || lia).
  destruct q as [qb qs]. pose proof Hq as ([Hqb Hqs] & _). cbn [fst snd] in *.
  destruct data as [|blk data]; [simpl in Hqb; lia|]. simpl negb. cbv iota.
  rewrite bool_decide_eq_false_2 by lia.
  rewrite bool_decide_eq_false_2 by lia. simpl.
  destruct (navigate_valid h qb qs m (blk :: data)) as (Hok & _ & buffer & Hat & _);
    [done|done|done|done|].
  split; [done|]. by exists buffer.
Qed.

(** The theorem at a session on [hello_document], from (0,0) to (0,1). *)
Lemma next_sentence_goes_to_successor_witness :
  in_session (speaking hello_document) ∧
  successor hello_document (0, 0) (0, 1) ∧
  (navigate_to_next_sentence (ready_host hello_document)
     (speaking hello_document)).1 = true ∧
  ∃ buffer,
    session_at hello_document (0, 1) buffer
      (navigate_to_next_sentence (ready_host hello_document)
         (speaking hello_document)).2.
Proof.
  pose proof (speaking_in_session _ hello_first_valid) as Hs.
  pose proof (speaking_sentence_index _ hello_first_valid) as Hidx.
  assert (successor hello_document (0, 0) (0, 1)) as Hnext.
  { split_and!.
    - unfold valid_key, block_len; simpl; lia.
    - right. simpl. lia.
    - intros [b s] [Hb Hlen] [Hlt|[Hb' Hlt]]; simpl in *; [lia|].
      subst b. destruct s as [|[|s]]; [lia|by left|].
      unfold block_len in Hlen. simpl in Hlen. lia. }
  assert (valid_key hello_document (tts_sentence_index (speaking hello_document)))
    as Hv by (rewrite Hidx; exact hello_first_valid).
  assert (successor hello_document
            (tts_sentence_index (speaking hello_document)) (0, 1)) as Hsucc
    by (rewrite Hidx; exact Hnext).
  assert ((0, 1).1 ≤ (tts_sentence_index (speaking hello_document)).1 + 1)
    as Hnear by (rewrite Hidx; simpl; lia).
  destruct (next_sentence_goes_to_successor (ready_host hello_document)
              (speaking hello_document) hello_document (0, 1) Hs
              (ready_host_ready hello_document)
              (speaking_sentence_data _ hello_first_valid) Hv Hsucc Hnear)
    as (Hok & buffer & Hat).
  split; [exact Hs|]. split; [exact Hnext|]. split; [exact Hok|].
  exists buffer. exact Hat.
Defined.

(** X14: at the last sentence of the document
    [navigate_to_next_sentence] returns [False] and changes nothing. *)
Theorem next_sentence_at_end_refuses h m data :
  sentence_data m = Some data →
  (∀ k, valid_key data k → ¬ key_lt (tts_sentence_index m) k) →
  navigate_to_next_sentence h m = (false, m).
Proof.
  intros Hd Hlast. unfold navigate_to_next_sentence. rewrite Hd.
  destruct data as [|blk data]; [done|].
  destruct (is_speaking m); simpl; [|done].
  destruct (tts_sentence_index m) as [b s]. cbn [fst snd].
  pose proof (find_next_sentence_at_end (blk :: data) b s Hlast) as Hend.
  destruct (find_next_sentence (blk :: data) b s) as [b' s']. cbn [fst] in Hend.
  by rewrite bool_decide_eq_true_2 by done.
Qed.

(** The theorem at [hello_document] and its last sentence (0,1). *)
Lemma next_sentence_at_end_refuses_witness :
  (∀ k, valid_key hello_document k → ¬ key_lt (0, 1) k) ∧
  navigate_to_next_sentence (ready_host hello_document)
    (set_sentence_index 0 1 (speaking hello_document)) =
    (false, set_sentence_index 0 1 (speaking hello_document)).
Proof.
  assert (∀ k, valid_key hello_document k → ¬ key_lt (0, 1) k) as Hend.
  { intros [b s] [Hb Hlen] [Hlt|[Hb' Hlt]]; simpl in *; [lia|].
    subst b. unfold block_len in Hlen. simpl in Hlen. lia. }
  split; [exact Hend|].
  apply (next_sentence_at_end_refuses (ready_host hello_document)
           (set_sentence_index 0 1 (speaking hello_document)) hello_document).
  - exact (speaking_sentence_data _ hello_first_valid).
  - exact Hend.
Defined.

(** X15: from an existing sentence, [navigate_to_previous_sentence]
    restarts the session at the sentence just before it in document
    order, across any number of empty blocks; at the first sentence of
    the document it returns [False] and changes nothing; it raises no
    [IndexError]. *)
Theorem previous_sentence_goes_to_predecessor h m data :
  in_session m → host_ready h → sentence_data m = Some data →
  valid_key data (tts_sentence_index m) →
  (∀ p, predecessor data (tts_sentence_index m) p →
        ∃ r buffer,
          navigate_to_previous_sentence h m = Some r ∧ r.1 = true ∧
          session_at data p buffer r.2) ∧
  ((∀ k, valid_key data k → ¬ key_lt k (tts_sentence_index m)) →
   navigate_to_previous_sentence h m = Some (false, m)).
Proof.
  intros Hin Hready Hd Hv. unfold navigate_to_previous_sentence. rewrite Hd.
  pose proof Hin as [Hs Hw]. rewrite Hs.
  destruct (tts_sentence_index m) as [b s] eqn:Hidx. cbn [fst snd].
  pose proof (find_previous_sentence_spec data b s Hv) as Hspec.
  destruct data as [|blk data]; [destruct Hv as [Hv _]; simpl in Hv; lia|].
  simpl negb. cbv iota.
  destruct (find_previous_sentence (blk :: data) b s) as [[[c|] s']|]; [| |done].
  - pose proof Hspec as ([Hc Hs'] & Hlt & _). cbn [fst snd] in *.
    destruct ((blk :: data) !! c) as [blk'|] eqn:Hblk.
    2:{ apply lookup_ge_None_1 in Hblk. lia. }
    rewrite bool_decide_eq_false_2
      by (rewrite (block_len_empty _ _ _ Hblk); lia).
    split.
    + intros p Hp. rewrite (predecessor_unique _ _ _ _ Hp Hspec).
      destruct (navigate_valid h c s' m (blk :: data))
        as (Hok & _ & buffer & Hat & _); [done|done|done|done|].
      eexists _, buffer. split; [done|]. split; [exact Hok|exact Hat].
    + intros Hfirst. by destruct (Hfirst (c, s')).
  - split; [|done]. intros p (Hp & Hlt & _). by destruct (Hspec p).
Qed.

(** The theorem at [gap_document], from (2,0) across the empty block 1
    to (0,0). *)
Lemma previous_sentence_goes_to_predecessor_witness :
  in_session (set_sentence_index 2 0 (speaking gap_document)) ∧
  predecessor gap_document (2, 0) (0, 0) ∧
  ∃ r buffer,
    navigate_to_previous_sentence (ready_host gap_document)
      (set_sentence_index 2 0 (speaking gap_document)) = Some r ∧
    r.1 = true ∧ session_at gap_document (0, 0) buffer r.2.
Proof.
  pose proof (in_session_set_sentence_index 2 0 _
                (speaking_in_session _ gap_first_valid)) as Hs.
  assert (predecessor gap_document (2, 0) (0, 0)) as Hprev.
  { split_and!.
    - exact gap_first_valid.
    - left. simpl. lia.
    - intros [b s] [Hb Hlen] [Hlt|[Hb' Hlt]]; simpl in *; [|lia].
      destruct b as [|[|b]]; unfold block_len in Hlen; simpl in Hlen; [|lia|lia].
      left. f_equal. lia. }
  assert (valid_key gap_document (2, 0)) as Hv
    by (unfold valid_key, block_len; simpl; lia).
  destruct (previous_sentence_goes_to_predecessor (ready_host gap_document)
              (set_sentence_index 2 0 (speaking gap_document)) gap_document Hs
              (ready_host_ready gap_document)
              (speaking_sentence_data _ gap_first_valid) Hv) as [Hgo _].
  split; [exact Hs|]. split; [exact Hprev|]. exact (Hgo (0, 0) Hprev).
Defined.

(** X16: [navigate_to_next_paragraph] restarts the session at the
    first sentence of the nearest block after the current one that has
    sentences, and returns [False] and changes nothing when there is no
    such block. *)
Theorem next_paragraph_goes_to_next_block_with_sentences h m data :
  in_session m → host_ready h → sentence_data m = Some data →
  let b := (tts_sentence_index m).1 in
  let r := navigate_to_next_paragraph h m in
  (∀ c, b < c < length data → block_len data c ≠ 0 →
        (∀ j, b < j < c → block_len data j = 0) →
        r.1 = true ∧ ∃ buffer, session_at data (c, 0) buffer r.2) ∧
  ((∀ j, b < j → block_len data j = 0) → r = (false, m)).
Proof.
  intros Hin Hready Hd b r. subst b r. unfold navigate_to_next_paragraph.
  rewrite Hd. pose proof Hin as [Hs Hw]. rewrite Hs.
  destruct data as [|blk data].
  { split; [intros c Hc; simpl in Hc; lia|done]. }
  simpl negb. cbv iota. split.
  - intros c Hc Hne Hbetween.
    rewrite (find_next_paragraph_first _ _ c); [|lia|done|intros j ?; apply Hbetween; lia].
    destruct (navigate_valid h c 0 m (blk :: data))
      as (Hok & _ & buffer & Hat & _);
      [done|done|done|apply valid_key_pair; lia|].
    split; [done|]. by exists buffer.
  - intros Hempty.
    pose proof (find_next_paragraph_spec (blk :: data) ((tts_sentence_index m).1 + 1))
      as Hspec.
    destruct (find_next_paragraph _ _) as [c|]; [|done].
    destruct Hspec as (Hc & Hne & _). destruct Hne. apply Hempty. lia.
Qed.

(** The theorem at [gap_document], from block 0 across the empty block 1
    to block 2. *)
Lemma next_paragraph_goes_to_next_block_with_sentences_witness :
  in_session (speaking gap_document) ∧
  block_len gap_document 1 = 0 ∧
  (navigate_to_next_paragraph (ready_host gap_document)
     (speaking gap_document)).1 = true ∧
  ∃ buffer,
    session_at gap_document (2, 0) buffer
      (navigate_to_next_paragraph (ready_host gap_document)
         (speaking gap_document)).2.
Proof.
  pose proof (speaking_in_session _ gap_first_valid) as Hs.
  pose proof (speaking_sentence_index _ gap_first_valid) as Hidx.
  pose proof (next_paragraph_goes_to_next_block_with_sentences
                (ready_host gap_document) (speaking gap_document) gap_document
                Hs (ready_host_ready gap_document)
                (speaking_sentence_data _ gap_first_valid)) as Hnav.
  cbv zeta in Hnav. destruct Hnav as [Hgo _].
  split; [exact Hs|]. split; [reflexivity|].
  apply (Hgo 2).
  - rewrite Hidx. simpl. lia.
  - unfold block_len. simpl. lia.
  - rewrite Hidx. simpl. intros j Hj. assert (j = 1) as -> by lia. reflexivity.
Defined.

(** X17: with the current block index within the document,
    [navigate_to_previous_paragraph] restarts the session at the first
    sentence of the nearest block before the current one that has
    sentences, and returns [False] and changes nothing when there is no
    such block; it raises no [IndexError]. *)
Theorem previous_paragraph_goes_to_previous_block_with_sentences h m data :
  in_session m → host_ready h → sentence_data m = Some data →
  (tts_sentence_index m).1 ≤ length data →
  let b := (tts_sentence_index m).1 in
  (∀ c, c < b → block_len data c ≠ 0 →
        (∀ j, c < j < b → block_len data j = 0) →
        ∃ r buffer,
          navigate_to_previous_paragraph h m = Some r ∧ r.1 = true ∧
          session_at data (c, 0) buffer r.2) ∧
  ((∀ j, j < b → block_len data j = 0) →
   navigate_to_previous_paragraph h m = Some (false, m)).
Proof.
  intros Hin Hready Hd Hb b. subst b. unfold navigate_to_previous_paragraph.
  rewrite Hd. pose proof Hin as [Hs Hw]. rewrite Hs.
  destruct data as [|blk data].
  { split; [intros c Hc; simpl in Hb; lia|done]. }
  simpl negb. cbv iota. split.
  - intros c Hc Hne Hbetween.
    rewrite (find_previous_paragraph_last _ _ c) by done.
    destruct (navigate_valid h c 0 m (blk :: data))
      as (Hok & _ & buffer & Hat & _);
      [done|done|done|apply valid_key_pair; lia|].
    eexists _, buffer. split; [done|]. split; [exact Hok|exact Hat].
  - intros Hempty.
    pose proof (find_previous_paragraph_spec (blk :: data) _ Hb) as Hspec.
    destruct (find_previous_paragraph _ _) as [[c|]|]; [|done|done].
    destruct Hspec as (Hc & Hne & _). destruct Hne. by apply Hempty.
Qed.

(** The theorem at [gap_document], from block 2 across the empty block 1
    to block 0. *)
Lemma previous_paragraph_goes_to_previous_block_with_sentences_witness :
  in_session (set_sentence_index 2 0 (speaking gap_document)) ∧
  block_len gap_document 1 = 0 ∧
  ∃ r buffer,
    navigate_to_previous_paragraph (ready_host gap_document)
      (set_sentence_index 2 0 (speaking gap_document)) = Some r ∧
    r.1 = true ∧ session_at gap_document (0, 0) buffer r.2.
Proof.
  pose proof (in_session_set_sentence_index 2 0 _
                (speaking_in_session _ gap_first_valid)) as Hs.
  assert ((tts_sentence_index (set_sentence_index 2 0 (speaking gap_document))).1
          ≤ length gap_document) as Hin by (simpl; lia).
  pose proof (previous_paragraph_goes_to_previous_block_with_sentences
                (ready_host gap_document)
                (set_sentence_index 2 0 (speaking gap_document)) gap_document
                Hs (ready_host_ready gap_document)
                (speaking_sentence_data _ gap_first_valid) Hin) as Hnav.
  cbv zeta in Hnav. destruct Hnav as [Hgo _].
  split; [exact Hs|]. split; [reflexivity|].
  apply (Hgo 0).
  - simpl. lia.
  - unfold block_len. simpl. lia.
  - simpl. intros j Hj. assert (j = 1) as -> by lia. reflexivity.
Defined.

(** X18: in a session, [navigate_to_first_sentence] restarts the
    session at (0,0) when the first block has a sentence; when the first
    block is empty it returns [False] after the session has been torn
    down: no worker is left while [is_speaking] stays set. *)
Theorem first_sentence_navigation h m data :
  in_session m → host_ready h → sentence_data m = Some data → data ≠ [] →
  let r := navigate_to_first_sentence h m in
  (block_len data 0 ≠ 0 →
   r.1 = true ∧ ∃ buffer, session_at data (0, 0) buffer r.2) ∧
  (block_len data 0 = 0 →
   r.1 = false ∧ tts_worker r.2 = None ∧ is_speaking r.2 = true ∧
   tts_sentence_index r.2 = (0, 0)).
Proof.
  intros Hin Hready Hd Hne r. subst r. unfold navigate_to_first_sentence.
  rewrite Hd. pose proof Hin as [Hs Hw]. rewrite Hs.
  destruct data as [|blk data]; [done|]. simpl negb. cbv iota. split.
  - intros Hlen.
    destruct (navigate_valid h 0 0 m (blk :: data))
      as (Hok & _ & buffer & Hat & _);
      [done|done|done|apply valid_key_pair; simpl; lia|].
    split; [done|]. by exists buffer.
  - intros Hlen.
    destruct (navigate_invalid h 0 0 m (blk :: data))
      as (Hok & Hw' & Hs' & _ & Hidx & _); [done|done| |done].
    intros [_ Hv]. cbn [fst snd] in Hv. lia.
Qed.

(** The theorem at a session on [hello_document] that has reached (0,1). *)
Lemma first_sentence_navigation_witness :
  in_session (set_sentence_index 0 1 (speaking hello_document)) ∧
  (navigate_to_first_sentence (ready_host hello_document)
     (set_sentence_index 0 1 (speaking hello_document))).1 = true ∧
  ∃ buffer,
    session_at hello_document (0, 0) buffer
      (navigate_to_first_sentence (ready_host hello_document)
         (set_sentence_index 0 1 (speaking hello_document))).2.
Proof.
  pose proof (in_session_set_sentence_index 0 1 _
                (speaking_in_session _ hello_first_valid)) as Hs.
  assert (hello_document ≠ []) as Hne by done.
  pose proof (first_sentence_navigation (ready_host hello_document)
                (set_sentence_index 0 1 (speaking hello_document))
                hello_document Hs (ready_host_ready hello_document)
                (speaking_sentence_data _ hello_first_valid) Hne) as Hnav.
  cbv zeta in Hnav. destruct Hnav as [Hgo _].
  split; [exact Hs|]. apply Hgo. unfold block_len. simpl. lia.
Defined.

End navigation.

Section widget.
Import TTSManager ReadOnlyTTSWidget.

(** ** A click on a sentence *)

Lemma find_offset_spec offsets offset i0 :
  match find_offset offsets offset i0 with
  | Some i =>
      i0 ≤ i ∧
      (∃ s e, offsets !! (i - i0) = Some (s, e) ∧ s ≤ offset ≤ e) ∧
      ∀ j s e, j < i - i0 → offsets !! j = Some (s, e) → ¬ (s ≤ offset ≤ e)
  | None => ∀ j s e, offsets !! j = Some (s, e) → ¬ (s ≤ offset ≤ e)
  end.
Proof.
  revert i0. induction offsets as [|[s0 e0] offsets IH]; intros i0; simpl.
  { intros j s e Hj. done. }
  case_bool_decide as Hin.
  - split_and!; [lia| |intros j s e ?; lia].
    exists s0, e0. by rewrite Nat.sub_diag.
  - specialize (IH (S i0)). destruct (find_offset offsets offset (S i0)) as [i|].
    + destruct IH as (Hle & (s & e & Hi & Hse) & Hfirst). split_and!; [lia| |].
      * exists s, e. replace (i - i0) with (S (i - S i0)) by lia. done.
      * intros [|j] s' e' Hj Hlook; simpl in Hlook; [by injection Hlook as -> ->|].
        apply (Hfirst j s' e'); [lia|done].
    + intros [|j] s e Hlook; simpl in Hlook; [by injection Hlook as -> ->|].
      by apply (IH j s e).
Qed.

Lemma find_offset_first offsets offset i s e :
  offsets !! i = Some (s, e) → s ≤ offset ≤ e →
  (∀ j s' e', j < i → offsets !! j = Some (s', e') → ¬ (s' ≤ offset ≤ e')) →
  find_offset offsets offset 0 = Some i.
Proof.
  intros Hi Hse Hfirst. pose proof (find_offset_spec offsets offset 0) as Hspec.
  destruct (find_offset offsets offset 0) as [i'|].
  - destruct Hspec as (_ & (s' & e' & Hi' & Hse') & Hfirst').
    rewrite Nat.sub_0_r in *. f_equal.
    destruct (decide (i' < i)); [by destruct (Hfirst i' s' e')|].
    destruct (decide (i < i')); [by destruct (Hfirst' i s e)|]. lia.
  - by destruct (Hspec i s e).
Qed.

(** X19: [find_sentence_id_from_offset] returns the first sentence of
    the block whose character range contains the offset, and [None]
    exactly when no range of the block contains it (or the block does
    not exist). *)
Theorem find_sentence_id_from_offset_spec data block_number offset :
  match find_sentence_id_from_offset (Some data) block_number offset with
  | Some (b, i) =>
      b = block_number ∧
      ∃ blk s e,
        data !! b = Some blk ∧ offsets blk !! i = Some (s, e) ∧ s ≤ offset ≤ e ∧
        ∀ j s' e', j < i → offsets blk !! j = Some (s', e') →
                   ¬ (s' ≤ offset ≤ e')
  | None =>
      ∀ blk j s e,
        data !! block_number = Some blk → offsets blk !! j = Some (s, e) →
        ¬ (s ≤ offset ≤ e)
  end.
Proof.
  unfold find_sentence_id_from_offset.
  destruct data as [|blk0 data]; [done|].
  destruct ((blk0 :: data) !! block_number) as [blk|] eqn:Hblk; [|done].
  pose proof (find_offset_spec (offsets blk) offset 0) as Hspec.
  destruct (find_offset (offsets blk) offset 0) as [i|]; simpl.
  - destruct Hspec as (_ & (s & e & Hi & Hse) & Hfirst).
    rewrite Nat.sub_0_r in *. split; [done|]. by exists blk, s, e.
  - intros blk' j s e [= <-]. apply Hspec.
Qed.

(** X20: in a session, a click inside the character range of a
    sentence restarts the session at that sentence (the first one whose
    range contains the click), provided the block has as many ranges as
    sentences. *)
Theorem click_restarts_at_clicked_sentence h m data block_number offset blk i s e :
  in_session m → host_ready h → sentence_data m = Some data →
  data !! block_number = Some blk →
  length (offsets blk) = length (sentences blk) →
  offsets blk !! i = Some (s, e) → s ≤ offset ≤ e →
  (∀ j s' e', j < i → offsets blk !! j = Some (s', e') → ¬ (s' ≤ offset ≤ e')) →
  ∃ buffer,
    session_at data (block_number, i) buffer
      (mousePressEvent h (Some data) block_number offset m).
Proof.
  intros Hin Hready Hd Hblk Hlen Hi Hse Hfirst.
  unfold mousePressEvent. destruct Hin as [Hs Hw]. rewrite Hs. simpl.
  unfold find_sentence_id_from_offset.
  destruct data as [|blk0 data]; [done|]. rewrite Hblk.
  rewrite (find_offset_first _ _ i s e) by done. simpl.
  destruct (navigate_valid h block_number i m (blk0 :: data))
    as (_ & _ & buffer & Hat & _); [done|done|done| |by exists buffer].
  apply lookup_lt_Some in Hi as Hlt. apply lookup_lt_Some in Hblk as Hb.
  split; [done|]. cbn [fst snd]. rewrite (block_len_lookup _ _ _ Hblk). lia.
Qed.

(** The theorem at [offset_document] and a click at offset 5 of block
    0, inside the range (4,7) of the second sentence. *)
Lemma click_restarts_at_clicked_sentence_witness :
  in_session (speaking offset_document) ∧
  ∃ buffer,
    session_at offset_document (0, 1) buffer
      (ReadOnlyTTSWidget.mousePressEvent (ready_host offset_document)
         (Some offset_document) 0 5 (speaking offset_document)).
Proof.
  pose proof (speaking_in_session _ offset_first_valid) as Hs.
  split; [exact Hs|].
  apply (click_restarts_at_clicked_sentence (ready_host offset_document)
           (speaking offset_document) offset_document 0 5
           (mkBlock ["Hi."; "Bye."] [(0, 2); (4, 7)]) 1 4 7).
  - exact Hs.
  - apply ready_host_ready.
  - exact (speaking_sentence_data _ offset_first_valid).
  - reflexivity.
  - reflexivity.
  - reflexivity.
  - lia.
  - intros j s' e' Hj Hlook. assert (j = 0) as -> by lia.
    simpl in Hlook. injection Hlook as <- <-. lia.
Defined.


(** X21: the widget's [navigate_to_first_sentence], on a configured
    host whose first block has a sentence, ends in a session at (0,0)
    whether the manager was speaking or not. *)
Theorem first_sentence_command_starts_at_the_top h m :
  host_ready h → document_empty h = false → tts_configured h = true →
  block_len (document_sentences h) 0 ≠ 0 →
  (is_speaking m = true →
   is_Some (tts_worker m) ∧ sentence_data m = Some (document_sentences h)) →
  ∃ buffer,
    session_at (document_sentences h) (0, 0) buffer
      (ReadOnlyTTSWidget.navigate_to_first_sentence h m).
Proof.
  intros Hready Hdoc Hconf Hfirst Hsession.
  assert (valid_key (document_sentences h) (0, 0)) as Hv.
  { split; cbn [fst snd]; [|lia].
    destruct (decide (0 < length (document_sentences h))); [done|].
    rewrite block_len_ge in Hfirst by lia. done. }
  unfold ReadOnlyTTSWidget.navigate_to_first_sentence.
  destruct (is_speaking m) eqn:Hs.
  - destruct (Hsession eq_refl) as [Hw Hd].
    unfold TTSManager.navigate_to_first_sentence. rewrite Hd, Hs.
    destruct (document_sentences h) as [|blk data] eqn:Hdata;
      [destruct Hv as [Hv _]; simpl in Hv; lia|].
    simpl negb. cbv iota.
    destruct (navigate_valid h 0 0 m (blk :: data))
      as (_ & _ & buffer & Hat & _); [done|done|done|done|by exists buffer].
  - destruct (toggle_speech_spec h (reset_sentence_index m) Hs) as (Hiff & Hat & _).
    exists ∅. apply Hat. apply Hiff. by split_and!.
Qed.

(** The theorem at a session on [hello_document] that has reached (0,1). *)
Lemma first_sentence_command_starts_at_the_top_witness :
  is_speaking (set_sentence_index 0 1 (speaking hello_document)) = true ∧
  ∃ buffer,
    session_at hello_document (0, 0) buffer
      (ReadOnlyTTSWidget.navigate_to_first_sentence (ready_host hello_document)
         (set_sentence_index 0 1 (speaking hello_document))).
Proof.
  pose proof (in_session_set_sentence_index 0 1 _
                (speaking_in_session _ hello_first_valid)) as Hs.
  split; [exact (proj1 Hs)|].
  apply (first_sentence_command_starts_at_the_top (ready_host hello_document)
           (set_sentence_index 0 1 (speaking hello_document))).
  - apply ready_host_ready.
  - reflexivity.
  - reflexivity.
  - unfold block_len. simpl. lia.
  - intros _. split; [exact (proj2 Hs)|].
    exact (speaking_sentence_data _ hello_first_valid).
Defined.

End widget.

Section wav_patch.
Import KokoroTTS.

(** ** The WAV header patch, applied again *)

Lemma pack_u32_range n bs : pack_u32 n = Some bs → (0 ≤ n < 2 ^ 32)%Z.
Proof. unfold pack_u32. by case_bool_decide. Qed.

Lemma has_riff_wave_header_stable file :
  ¬ ¬ has_riff_wave_header file → has_riff_wave_header file.
Proof.
  unfold has_riff_wave_header. intros Hnn.
  destruct (decide (read_at 0 4 file = RIFF ∧ read_at 8 4 file = WAVE)); [done|].
  by destruct Hnn.
Qed.

(** The successful runs of [_fix_wav_header], and what they write. *)
Lemma fix_wav_header_success file file' :
  _fix_wav_header file = (None, file') ↔
  has_riff_wave_header file ∧
  ∃ p riff_size data_size,
    data_chunk_at file p ∧
    pack_u32 (Z.of_nat (length file) - 8) = Some riff_size ∧
    pack_u32 (Z.of_nat (length file) - (Z.of_nat p + 8)) = Some data_size ∧
    file' = write_at (p + 4) data_size (write_at 4 riff_size file).
Proof.
  unfold _fix_wav_header. split.
  - case_bool_decide as Hh; [done|].
    destruct (scan_for_data_chunk file 12) as [p|] eqn:Hscan; [|done].
    destruct (pack_u32 (Z.of_nat (length file) - 8)) as [b1|] eqn:Hb1; [|done].
    destruct (pack_u32 (Z.of_nat (length file) - (Z.of_nat p + 8)))
      as [b2|] eqn:Hb2; [|done].
    intros [= <-]. split.
    + apply has_riff_wave_header_stable. by rewrite <- header_check.
    + exists p, b1, b2. split_and!; try done. by apply scan_spec.
  - intros (Hh & p & b1 & b2 & Hdata%scan_spec & Hb1 & Hb2 & ->).
    rewrite bool_decide_eq_false_2 by (rewrite header_check; by intros []).
    by rewrite Hdata, Hb1, Hb2.
Qed.

Lemma write_at_same pos n bs file :
  read_at pos n file = bs → pos + n ≤ length file → write_at pos bs file = file.
Proof.
  intros <- Hlen. unfold read_at, write_at.
  rewrite length_take, length_drop, Nat.min_l by lia.
  by rewrite <- drop_drop, take_drop, take_drop.
Qed.

(** Two files of the same length that agree before offset [p] have the
    same chunk headers up to [p]. *)
Lemma chunk_at_agree file file' p :
  length file' = length file →
  chunk_at file p →
  (∀ pos n, 12 ≤ pos → pos + n ≤ p → read_at pos n file' = read_at pos n file) →
  chunk_at file' p.
Proof.
  intros Hlen Hchunk. induction Hchunk as [|pos Hchunk IH Hpos Hid]; intros Hagree.
  - constructor.
  - pose proof (chunk_at_ge _ _ Hchunk) as Hge.
    rewrite <- (Hagree (pos + 4) 4) by lia.
    apply chunk_next.
    + apply IH. intros pos' n ??. apply Hagree; lia.
    + lia.
    + rewrite (Hagree pos 4) by lia. done.
Qed.


(** X22: patching a patched file changes nothing: when
    [_fix_wav_header] succeeds, a second run on the result succeeds and
    leaves every byte as it is. *)
Theorem fix_wav_header_idempotent file file' :
  _fix_wav_header file = (None, file') →
  _fix_wav_header file' = (None, file').
Proof.
  intros (Hh & p & b1 & b2 & Hdata & Hb1 & Hb2 & ->)%fix_wav_header_success.
  destruct Hh as [Hriff Hwave].
  destruct Hdata as (Hchunk & Hlen & Hid).
  pose proof (chunk_at_ge _ _ Hchunk) as Hge.
  apply pack_u32_spec in Hb1 as Hl1. destruct Hl1 as [Hl1 _].
  apply pack_u32_spec in Hb2 as Hl2. destruct Hl2 as [Hl2 _].
  assert (length (write_at 4 b1 file) = length file) as Hlen1
    by (apply length_write_at; lia).
  set (file' := write_at (p + 4) b2 (write_at 4 b1 file)).
  assert (length file' = length file) as Hlen'
    by (unfold file'; rewrite length_write_at; lia).
  assert (∀ pos n, pos + n ≤ 4 ∨ 8 ≤ pos ∧ pos + n ≤ p + 4 ∨ p + 8 ≤ pos →
                   read_at pos n file' = read_at pos n file) as Hagree.
  { intros pos n Hpos. unfold file'.
    rewrite !read_at_write_at_other by lia. done. }
  apply fix_wav_header_success. split.
  - split; rewrite Hagree by lia; done.
  - exists p, b1, b2. rewrite Hlen'. split_and!; [|done|done|].
    + split_and!; [|lia|by rewrite Hagree by lia].
      apply (chunk_at_agree file); [done|done|].
      intros pos n ??. apply Hagree. lia.
    + rewrite (write_at_same 4 4 b1 file').
      * symmetry. apply (write_at_same (p + 4) 4); [|lia].
        unfold file'. by rewrite read_at_write_at by lia.
      * unfold file'. rewrite read_at_write_at_other by lia.
        by rewrite read_at_write_at by lia.
      * lia.
Qed.

(** The theorem at [small_wav]. *)
Lemma fix_wav_header_idempotent_witness :
  ∃ file',
    KokoroTTS._fix_wav_header small_wav = (None, file') ∧
    KokoroTTS._fix_wav_header file' = (None, file').
Proof.
  assert (KokoroTTS._fix_wav_header small_wav =
          (None, (KokoroTTS._fix_wav_header small_wav).2)) as Hrun
    by (vm_compute; reflexivity).
  exists (KokoroTTS._fix_wav_header small_wav).2. split; [exact Hrun|].
  exact (fix_wav_header_idempotent _ _ Hrun).
Defined.

(** X23: [_fix_wav_header] never changes the length of the file; when
    it raises, the file is left as it was (no field is half-written);
    and it succeeds exactly when the file has a RIFF/WAVE header and a
    data chunk and its size minus 8 fits 32 bits. *)
Theorem fix_wav_header_all_or_nothing file :
  let r := _fix_wav_header file in
  length r.2 = length file ∧
  (r.1 ≠ None → r.2 = file) ∧
  (r.1 = None ↔
     has_riff_wave_header file ∧ (∃ p, data_chunk_at file p) ∧
     (Z.of_nat (length file) - 8 < 2 ^ 32)%Z).
Proof.
  intros r. subst r. unfold _fix_wav_header.
  case_bool_decide as Hh.
  { simpl. split_and!; [done|done|]. split; [done|].
    intros (Hh' & _). by apply header_check in Hh. }
  assert (has_riff_wave_header file) as Hh'
    by (apply has_riff_wave_header_stable; by rewrite <- header_check).
  destruct (scan_for_data_chunk file 12) as [p|] eqn:Hscan.
  2:{ simpl. split_and!; [done|done|]. split; [done|].
      intros (_ & [p Hp%scan_spec] & _). congruence. }
  apply scan_spec in Hscan as Hdata. destruct Hdata as (Hchunk & Hlen & _).
  pose proof (chunk_at_ge _ _ Hchunk) as Hge.
  destruct (pack_u32 (Z.of_nat (length file) - 8)) as [b1|] eqn:Hb1.
  2:{ simpl. split_and!; [done|done|]. split; [done|].
      intros (_ & _ & Hsize).
      destruct (pack_u32_is_Some (Z.of_nat (length file) - 8)) as [? ?];
        [lia|congruence]. }
  apply pack_u32_range in Hb1 as Hrange.
  destruct (pack_u32_is_Some (Z.of_nat (length file) - (Z.of_nat p + 8)))
    as [b2 Hb2]; [lia|].
  rewrite Hb2. simpl.
  apply pack_u32_spec in Hb1 as [Hl1 _]. apply pack_u32_spec in Hb2 as [Hl2 _].
  assert (length (write_at 4 b1 file) = length file) as Hlen1
    by (apply length_write_at; lia).
  split_and!; [rewrite length_write_at; lia|done|].
  split; [|done]. intros _. split_and!; [done| |lia].
  exists p. by apply scan_spec.
Qed.

End wav_patch.
